(** * Blitzball Arena: the match simulator of [src/components/Game.tsx]

    A shallow embedding of the per-frame simulation ([updateGame]), the
    power-up life cycle ([spawnPowerUp], [applyPowerUp], [updatePowerUps]),
    the keyboard handlers, the timer, [resetGame] and the clock of the score
    bar, followed by the properties the specification states about them
    (C1 to C10) and by further properties of the code (X1 to X21).

    Modelling conventions.
    - A JavaScript [number] is a real number: [+], [-], [*], [Math.sqrt],
      [Math.cos], [Math.sin], [Math.min] and [Math.max] are the operations
      of [R]; binary64 rounding is outside this model.  A division whose
      divisor is zero has no real result (JavaScript yields an infinity or
      NaN), so [/] is the partial operation [JS.div].  Where rounding
      decides a property (friction on the smallest velocities) the step is
      given a second time on binary64 numbers, in the module [Binary64].
    - [Date.now()] is an integral number of milliseconds ([Z]); one reading
      is taken per frame.  [Math.random()] values are inputs of the frame.
    - The mutable object [gameStateRef.current] and the React state cells
      ([score], [timeLeft], ...) are the fields of one record [World].
      The values a frame callback closes over ([kickPower], [isCharging],
      [powerUps], [isPaused]) are the ones of the world at the start of the
      frame: the effect that registers the callback is re-run whenever one
      of them changes.  State updaters queued during a frame are applied in
      the order they were queued.
    - Audio signals are appended to the [played] log of the world. *)

From Stdlib Require Import Reals Lra Lia ZArith List Bool Psatz.
From Stdlib Require Floats String Ascii DecimalString.
Import ListNotations.
Open Scope R_scope.

(** ** JavaScript numbers *)

Module JS.

Definition lt (a b : R) : bool := if Rlt_dec a b then true else false.
Definition gt (a b : R) : bool := lt b a.
Definition eq (a b : R) : bool := if Req_dec_T a b then true else false.
Definition neq (a b : R) : bool := negb (eq a b).

(** [a / b]: no real result when [b] is zero. *)
Definition div (a b : R) : option R :=
  if Req_dec_T b 0 then None else Some (a / b).

(** [a || d] on numbers: [d] replaces a falsy (zero) [a]. *)
Definition or_else (a d : R) : R := if Req_dec_T a 0 then d else a.

(** [Math.atan2(y, x)], the angle of the point [(x, y)] in (-PI, PI];
    [Math.atan2(0, 0)] is [0]. *)
Definition atan2 (y x : R) : R :=
  if Rlt_dec 0 x then atan (y / x)
  else if Rlt_dec x 0 then
    (if Rle_dec 0 y then atan (y / x) + PI else atan (y / x) - PI)
  else if Rlt_dec 0 y then PI / 2
  else if Rlt_dec y 0 then - (PI / 2)
  else 0.

(** Truthiness of an optional timestamp ([!powerUp.startTime]). *)
Definition truthy (t : option Z) : bool :=
  match t with
  | Some n => negb (n =? 0)%Z
  | None => false
  end.

End JS.

Definition bind {A B : Type} (m : option A) (k : A -> option B) : option B :=
  match m with
  | Some a => k a
  | None => None
  end.

Notation "x <- m ;; k" := (bind m (fun x => k))
  (at level 61, m at next level, right associativity).

(** ** Data model *)

Module GameObject.
Record t : Type := mk {
  x : R; y : R; vx : R; vy : R;
  radius : R; speed : R; maxSpeed : R;
  acceleration : R; deceleration : R;
  direction : R
}.
Definition set_x (v : R) (o : t) : t :=
  mk v (y o) (vx o) (vy o) (radius o) (speed o) (maxSpeed o)
     (acceleration o) (deceleration o) (direction o).
Definition set_y (v : R) (o : t) : t :=
  mk (x o) v (vx o) (vy o) (radius o) (speed o) (maxSpeed o)
     (acceleration o) (deceleration o) (direction o).
Definition set_vx (v : R) (o : t) : t :=
  mk (x o) (y o) v (vy o) (radius o) (speed o) (maxSpeed o)
     (acceleration o) (deceleration o) (direction o).
Definition set_vy (v : R) (o : t) : t :=
  mk (x o) (y o) (vx o) v (radius o) (speed o) (maxSpeed o)
     (acceleration o) (deceleration o) (direction o).
Definition set_radius (v : R) (o : t) : t :=
  mk (x o) (y o) (vx o) (vy o) v (speed o) (maxSpeed o)
     (acceleration o) (deceleration o) (direction o).
Definition set_maxSpeed (v : R) (o : t) : t :=
  mk (x o) (y o) (vx o) (vy o) (radius o) (speed o) v
     (acceleration o) (deceleration o) (direction o).
Definition set_direction (v : R) (o : t) : t :=
  mk (x o) (y o) (vx o) (vy o) (radius o) (speed o) (maxSpeed o)
     (acceleration o) (deceleration o) v.
End GameObject.

Module Ball.
Record t : Type := mk {
  x : R; y : R; vx : R; vy : R;
  radius : R; spin : R; rotation : R
}.
Definition set_x (v : R) (b : t) : t :=
  mk v (y b) (vx b) (vy b) (radius b) (spin b) (rotation b).
Definition set_y (v : R) (b : t) : t :=
  mk (x b) v (vx b) (vy b) (radius b) (spin b) (rotation b).
Definition set_vx (v : R) (b : t) : t :=
  mk (x b) (y b) v (vy b) (radius b) (spin b) (rotation b).
Definition set_vy (v : R) (b : t) : t :=
  mk (x b) (y b) (vx b) v (radius b) (spin b) (rotation b).
Definition set_spin (v : R) (b : t) : t :=
  mk (x b) (y b) (vx b) (vy b) (radius b) v (rotation b).
Definition set_rotation (v : R) (b : t) : t :=
  mk (x b) (y b) (vx b) (vy b) (radius b) (spin b) v.
End Ball.

Inductive PowerUpType : Type := speed | sticky | giant.

Module PowerUp.
Record t : Type := mk {
  x : R; y : R;
  type : PowerUpType;
  active : bool;
  duration : Z;
  startTime : option Z
}.
Definition set_startTime (v : option Z) (p : t) : t :=
  mk (x p) (y p) (type p) (active p) (duration p) v.
End PowerUp.

Module Keys.
Record t : Type := mk {
  up : bool; down : bool; left : bool; right : bool;
  space : bool; shift : bool
}.
Definition set_up (v : bool) (k : t) : t :=
  mk v (down k) (left k) (right k) (space k) (shift k).
Definition set_down (v : bool) (k : t) : t :=
  mk (up k) v (left k) (right k) (space k) (shift k).
Definition set_left (v : bool) (k : t) : t :=
  mk (up k) (down k) v (right k) (space k) (shift k).
Definition set_right (v : bool) (k : t) : t :=
  mk (up k) (down k) (left k) v (space k) (shift k).
Definition set_space (v : bool) (k : t) : t :=
  mk (up k) (down k) (left k) (right k) v (shift k).
Definition set_shift (v : bool) (k : t) : t :=
  mk (up k) (down k) (left k) (right k) (space k) v.
End Keys.

Module Score.
Record t : Type := mk { player : Z; ai : Z }.
End Score.

Inductive Sound : Type := kick | goal | bounce | powerup.

Definition CANVAS_WIDTH : R := 800.
Definition CANVAS_HEIGHT : R := 600.
Definition PLAYER_RADIUS : R := 20.
Definition BALL_RADIUS : R := 12.
Definition BASE_FRICTION : R := 0.98.
Definition BASE_PLAYER_SPEED : R := 5.
Definition SPRINT_MULTIPLIER : R := 1.5.
Definition AI_SPEED : R := 4.
Definition KICK_CHARGE_RATE : R := 0.5.
Definition MAX_KICK_POWER : R := 20.
Definition POWER_UP_DURATION : Z := 5000.

(** The world: [gameStateRef.current] ([player], [ai], [ball], [keys]), the
    React state cells of the simulation, and the log of audio signals. *)
Record World : Type := mkWorld {
  player : GameObject.t;
  ai : GameObject.t;
  ball : Ball.t;
  keys : Keys.t;
  score : Score.t;
  timeLeft : Z;
  gameOver : bool;
  powerUps : list PowerUp.t;
  kickPower : R;
  isCharging : bool;
  isPaused : bool;
  played : list Sound
}.

Definition set_player (v : GameObject.t) (w : World) : World :=
  mkWorld v (ai w) (ball w) (keys w) (score w) (timeLeft w) (gameOver w)
          (powerUps w) (kickPower w) (isCharging w) (isPaused w) (played w).
Definition set_ai (v : GameObject.t) (w : World) : World :=
  mkWorld (player w) v (ball w) (keys w) (score w) (timeLeft w) (gameOver w)
          (powerUps w) (kickPower w) (isCharging w) (isPaused w) (played w).
Definition set_ball (v : Ball.t) (w : World) : World :=
  mkWorld (player w) (ai w) v (keys w) (score w) (timeLeft w) (gameOver w)
          (powerUps w) (kickPower w) (isCharging w) (isPaused w) (played w).
Definition set_keys (v : Keys.t) (w : World) : World :=
  mkWorld (player w) (ai w) (ball w) v (score w) (timeLeft w) (gameOver w)
          (powerUps w) (kickPower w) (isCharging w) (isPaused w) (played w).
Definition setScore (v : Score.t) (w : World) : World :=
  mkWorld (player w) (ai w) (ball w) (keys w) v (timeLeft w) (gameOver w)
          (powerUps w) (kickPower w) (isCharging w) (isPaused w) (played w).
Definition setTimeLeft (v : Z) (w : World) : World :=
  mkWorld (player w) (ai w) (ball w) (keys w) (score w) v (gameOver w)
          (powerUps w) (kickPower w) (isCharging w) (isPaused w) (played w).
Definition setGameOver (v : bool) (w : World) : World :=
  mkWorld (player w) (ai w) (ball w) (keys w) (score w) (timeLeft w) v
          (powerUps w) (kickPower w) (isCharging w) (isPaused w) (played w).
Definition setPowerUps (v : list PowerUp.t) (w : World) : World :=
  mkWorld (player w) (ai w) (ball w) (keys w) (score w) (timeLeft w)
          (gameOver w) v (kickPower w) (isCharging w) (isPaused w) (played w).
Definition setKickPower (v : R) (w : World) : World :=
  mkWorld (player w) (ai w) (ball w) (keys w) (score w) (timeLeft w)
          (gameOver w) (powerUps w) v (isCharging w) (isPaused w) (played w).
Definition setIsCharging (v : bool) (w : World) : World :=
  mkWorld (player w) (ai w) (ball w) (keys w) (score w) (timeLeft w)
          (gameOver w) (powerUps w) (kickPower w) v (isPaused w) (played w).
Definition setIsPaused (v : bool) (w : World) : World :=
  mkWorld (player w) (ai w) (ball w) (keys w) (score w) (timeLeft w)
          (gameOver w) (powerUps w) (kickPower w) (isCharging w) v (played w).
(** [sounds.s.play()] *)
Definition play (s : Sound) (w : World) : World :=
  mkWorld (player w) (ai w) (ball w) (keys w) (score w) (timeLeft w)
          (gameOver w) (powerUps w) (kickPower w) (isCharging w) (isPaused w)
          (played w ++ [s]).

(** The initial value of [gameStateRef] and of the state cells. *)
Definition initialPlayer : GameObject.t :=
  GameObject.mk (CANVAS_WIDTH / 4) (CANVAS_HEIGHT / 2) 0 0 PLAYER_RADIUS
    BASE_PLAYER_SPEED (BASE_PLAYER_SPEED * SPRINT_MULTIPLIER) 0.5 0.8 1.

Definition initialAi : GameObject.t :=
  GameObject.mk ((CANVAS_WIDTH / 4) * 3) (CANVAS_HEIGHT / 2) 0 0 PLAYER_RADIUS
    AI_SPEED AI_SPEED 0.4 0.8 (-1).

Definition initialBall : Ball.t :=
  Ball.mk (CANVAS_WIDTH / 2) (CANVAS_HEIGHT / 2) 0 0 BALL_RADIUS 0 0.

Definition initialKeys : Keys.t := Keys.mk false false false false false false.

Definition initialWorld : World :=
  mkWorld initialPlayer initialAi initialBall initialKeys (Score.mk 0 0)
          180 false [] 0 false true [].

(** ** Operations *)

(** [resetGame] (lines 189-219).  The radius and the maximal speed of the
    player, the pressed keys and the signal log are not touched. *)
Definition resetGame (w : World) : World :=
  let w := setScore (Score.mk 0 0) w in
  let w := setTimeLeft 180 w in
  let w := setGameOver false w in
  let w := setPowerUps [] w in
  let w := setKickPower 0 w in
  let w := setIsCharging false w in
  let p := player w in
  let p := GameObject.set_x (CANVAS_WIDTH / 4) p in
  let p := GameObject.set_y (CANVAS_HEIGHT / 2) p in
  let p := GameObject.set_vx 0 p in
  let p := GameObject.set_vy 0 p in
  let p := GameObject.set_direction 1 p in
  let a := ai w in
  let a := GameObject.set_x ((CANVAS_WIDTH / 4) * 3) a in
  let a := GameObject.set_y (CANVAS_HEIGHT / 2) a in
  let a := GameObject.set_vx 0 a in
  let a := GameObject.set_vy 0 a in
  let a := GameObject.set_direction (-1) a in
  let b := ball w in
  let b := Ball.set_x (CANVAS_WIDTH / 2) b in
  let b := Ball.set_y (CANVAS_HEIGHT / 2) b in
  let b := Ball.set_vx 0 b in
  let b := Ball.set_vy 0 b in
  let b := Ball.set_spin 0 b in
  let b := Ball.set_rotation 0 b in
  let w := set_ball b (set_ai a (set_player p w)) in
  setIsPaused true w.

(** The values of [e.key] the handlers distinguish. *)
Inductive Key : Type :=
  | ArrowUp | ArrowDown | ArrowLeft | ArrowRight
  | Space | Shift | Escape | F11 | OtherKey.

(** [handleKeyDown] (lines 231-268); the fullscreen toggle of F11 is
    presentation only. *)
Definition handleKeyDown (k : Key) (w : World) : World :=
  match k with
  | F11 => w
  | Escape => setIsPaused (negb (isPaused w)) w
  | ArrowUp => set_keys (Keys.set_up true (keys w)) w
  | ArrowDown => set_keys (Keys.set_down true (keys w)) w
  | ArrowLeft =>
      let w := set_keys (Keys.set_left true (keys w)) w in
      set_player (GameObject.set_direction (-1) (player w)) w
  | ArrowRight =>
      let w := set_keys (Keys.set_right true (keys w)) w in
      set_player (GameObject.set_direction 1 (player w)) w
  | Space =>
      let w := if negb (Keys.space (keys w)) then setIsCharging true w else w in
      set_keys (Keys.set_space true (keys w)) w
  | Shift => set_keys (Keys.set_shift true (keys w)) w
  | OtherKey => w
  end.

(** [handleKeyUp] (lines 270-295). *)
Definition handleKeyUp (k : Key) (w : World) : World :=
  match k with
  | ArrowUp => set_keys (Keys.set_up false (keys w)) w
  | ArrowDown => set_keys (Keys.set_down false (keys w)) w
  | ArrowLeft => set_keys (Keys.set_left false (keys w)) w
  | ArrowRight => set_keys (Keys.set_right false (keys w)) w
  | Space =>
      let w := if Keys.space (keys w) then play kick w else w in
      let w := set_keys (Keys.set_space false (keys w)) w in
      setIsCharging false w
  | Shift => set_keys (Keys.set_shift false (keys w)) w
  | _ => w
  end.

(** What a frame reads from its environment: the clock and the four
    [Math.random()] draws of [spawnPowerUp], in the order they are made. *)
Record Env : Type := mkEnv {
  now : Z;
  random_spawn : R;
  random_x : R;
  random_y : R;
  random_type : R
}.

Definition types : list PowerUpType := [speed; sticky; giant].

(** [spawnPowerUp] (lines 311-323).  [len] is [powerUps.length] of the list
    the frame closed over; the new power-up is appended by an updater to the
    list current at that point.  An index outside [types] would read
    [undefined], a type with no effect anywhere in the simulation, as
    [sticky]. *)
Definition spawnPowerUp (env : Env) (len : nat) (w : World) : World :=
  if JS.lt (random_spawn env) 0.005 && (len <? 2)%nat then
    let newPowerUp :=
      PowerUp.mk (random_x env * (CANVAS_WIDTH - 40) + 20)
                 (random_y env * (CANVAS_HEIGHT - 40) + 20)
                 (nth (Z.to_nat (Zfloor (random_type env * INR (length types))))
                      types sticky)
                 true POWER_UP_DURATION None in
    setPowerUps (powerUps w ++ [newPowerUp]) w
  else w.

(** [applyPowerUp] (lines 325-340): returns the stamped power-up and the
    world with the player changed. *)
Definition applyPowerUp (t : Z) (powerUp : PowerUp.t) (w : World)
  : PowerUp.t * World :=
  let p := player w in
  let p :=
    match PowerUp.type powerUp with
    | speed => GameObject.set_maxSpeed (GameObject.maxSpeed p * 1.5) p
    | sticky => p
    | giant => GameObject.set_radius (GameObject.radius p * 1.5) p
    end in
  let w := play powerup (set_player p w) in
  (PowerUp.set_startTime (Some t) powerUp, w).

(** The callback of the filter in [updatePowerUps] (lines 343-358): whether
    the power-up is kept, and the player after the callback. *)
Definition keepPowerUp (t : Z) (powerUp : PowerUp.t) (p : GameObject.t)
  : bool * GameObject.t :=
  if negb (PowerUp.active powerUp) || negb (JS.truthy (PowerUp.startTime powerUp))
  then (true, p)
  else
    match PowerUp.startTime powerUp with
    | Some start =>
        if (t - start >=? PowerUp.duration powerUp)%Z then
          (false,
           match PowerUp.type powerUp with
           | speed =>
               GameObject.set_maxSpeed (BASE_PLAYER_SPEED * SPRINT_MULTIPLIER) p
           | giant => GameObject.set_radius PLAYER_RADIUS p
           | sticky => p
           end)
        else (true, p)
    | None => (true, p)
    end.

Fixpoint filterPowerUps (t : Z) (prev : list PowerUp.t) (p : GameObject.t)
  : list PowerUp.t * GameObject.t :=
  match prev with
  | [] => ([], p)
  | powerUp :: rest =>
      let '(keep, p) := keepPowerUp t powerUp p in
      let '(rest, p) := filterPowerUps t rest p in
      (if keep then powerUp :: rest else rest, p)
  end.

(** [updatePowerUps] (lines 342-359). *)
Definition updatePowerUps (t : Z) (w : World) : World :=
  let '(kept, p) := filterPowerUps t (powerUps w) (player w) in
  setPowerUps kept (set_player p w).

(** The pick-up loop of [updateGame] (lines 480-489); the power-ups are
    stamped in place, so the list of the world holds the stamped ones. *)
Fixpoint forEachPickUp (t : Z) (l : list PowerUp.t) (w : World)
  : list PowerUp.t * World :=
  match l with
  | [] => ([], w)
  | powerUp :: rest =>
      let '(powerUp, w) :=
        if PowerUp.active powerUp && negb (JS.truthy (PowerUp.startTime powerUp))
        then
          let dx := GameObject.x (player w) - PowerUp.x powerUp in
          let dy := GameObject.y (player w) - PowerUp.y powerUp in
          let distance := sqrt (dx * dx + dy * dy) in
          if JS.lt distance (GameObject.radius (player w) + 10)
          then applyPowerUp t powerUp w
          else (powerUp, w)
        else (powerUp, w) in
      let '(rest, w) := forEachPickUp t rest w in
      (powerUp :: rest, w)
  end.

Definition pickUp (t : Z) (w : World) : World :=
  let '(l, w) := forEachPickUp t (powerUps w) w in
  setPowerUps l w.

(** *** The frame callback [updateGame], statement group by statement group *)

(** Lines 371-375.  The conditions read the closed-over [isCharging] and
    [kickPower]; the updater reads the current cell. *)
Definition chargeKick (isCharging0 : bool) (kickPower0 : R) (w : World)
  : World :=
  if isCharging0 && JS.lt kickPower0 MAX_KICK_POWER then
    setKickPower (Rmin (kickPower w + KICK_CHARGE_RATE) MAX_KICK_POWER) w
  else if negb isCharging0 && JS.gt kickPower0 0 then setKickPower 0 w
  else w.

Definition target (neg pos : bool) : R :=
  (if neg then -1 else 0) + (if pos then 1 else 0).

(** Lines 379-399: the player's velocity and position. *)
Definition movePlayer (w : World) : option World :=
  let p := player w in
  let targetVx := target (Keys.left (keys w)) (Keys.right (keys w)) in
  let targetVy := target (Keys.up (keys w)) (Keys.down (keys w)) in
  let currentSpeed :=
    if Keys.shift (keys w) then GameObject.maxSpeed p else GameObject.speed p in
  p <- (if JS.neq targetVx 0 && JS.neq targetVy 0 then
          let norm := sqrt 2 in
          tx <- JS.div (targetVx * currentSpeed) norm ;;
          ty <- JS.div (targetVy * currentSpeed) norm ;;
          let p := GameObject.set_vx
                     (GameObject.vx p
                      + (tx - GameObject.vx p) * GameObject.acceleration p) p in
          Some (GameObject.set_vy
                  (GameObject.vy p
                   + (ty - GameObject.vy p) * GameObject.acceleration p) p)
        else
          let p := GameObject.set_vx
                     (GameObject.vx p
                      + (targetVx * currentSpeed - GameObject.vx p)
                        * GameObject.acceleration p) p in
          Some (GameObject.set_vy
                  (GameObject.vy p
                   + (targetVy * currentSpeed - GameObject.vy p)
                     * GameObject.acceleration p) p)) ;;
  let p := if JS.eq targetVx 0
           then GameObject.set_vx (GameObject.vx p * GameObject.deceleration p) p
           else p in
  let p := if JS.eq targetVy 0
           then GameObject.set_vy (GameObject.vy p * GameObject.deceleration p) p
           else p in
  let p := GameObject.set_x (GameObject.x p + GameObject.vx p) p in
  let p := GameObject.set_y (GameObject.y p + GameObject.vy p) p in
  let p := GameObject.set_x
             (Rmax (GameObject.radius p)
                   (Rmin (CANVAS_WIDTH - GameObject.radius p) (GameObject.x p)))
             p in
  let p := GameObject.set_y
             (Rmax (GameObject.radius p)
                   (Rmin (CANVAS_HEIGHT - GameObject.radius p) (GameObject.y p)))
             p in
  Some (set_player p w).

(** Lines 401-409: the AI seeks the ball. *)
Definition steerAI (w : World) : option World :=
  let a := ai w in
  let dx := Ball.x (ball w) - GameObject.x a in
  let dy := Ball.y (ball w) - GameObject.y a in
  let dist := sqrt (dx * dx + dy * dy) in
  if JS.gt dist 0 then
    ux <- JS.div dx dist ;;
    let a := GameObject.set_vx
               (GameObject.vx a
                + (ux * GameObject.speed a - GameObject.vx a)
                  * GameObject.acceleration a) a in
    uy <- JS.div dy dist ;;
    let a := GameObject.set_vy
               (GameObject.vy a
                + (uy * GameObject.speed a - GameObject.vy a)
                  * GameObject.acceleration a) a in
    let a := GameObject.set_direction
               (if JS.gt (GameObject.vx a) 0 then 1 else -1) a in
    Some (set_ai a w)
  else Some w.

(** Lines 411-414. *)
Definition moveAI (w : World) : World :=
  let a := ai w in
  let a := GameObject.set_x (GameObject.x a + GameObject.vx a) a in
  let a := GameObject.set_y (GameObject.y a + GameObject.vy a) a in
  let a := GameObject.set_x
             (Rmax (GameObject.radius a)
                   (Rmin (CANVAS_WIDTH - GameObject.radius a) (GameObject.x a)))
             a in
  let a := GameObject.set_y
             (Rmax (GameObject.radius a)
                   (Rmin (CANVAS_HEIGHT - GameObject.radius a) (GameObject.y a)))
             a in
  set_ai a w.

(** Lines 416-420. *)
Definition moveBall (w : World) : World :=
  let b := ball w in
  let b := Ball.set_x (Ball.x b + Ball.vx b) b in
  let b := Ball.set_y (Ball.y b + Ball.vy b) b in
  let b := Ball.set_vx (Ball.vx b * BASE_FRICTION) b in
  let b := Ball.set_vy (Ball.vy b * BASE_FRICTION) b in
  let b := Ball.set_rotation (Ball.rotation b + Ball.spin b) b in
  set_ball b w.

(** Lines 422-426: reflection off the left and right walls. *)
Definition bounceHorizontal (w : World) : World :=
  let b := ball w in
  if JS.lt (Ball.x b) (Ball.radius b)
     || JS.gt (Ball.x b) (CANVAS_WIDTH - Ball.radius b)
  then
    let b := Ball.set_vx (Ball.vx b * -0.8) b in
    let b := Ball.set_x (if JS.lt (Ball.x b) (Ball.radius b)
                         then Ball.radius b
                         else CANVAS_WIDTH - Ball.radius b) b in
    play bounce (set_ball b w)
  else w.

(** Lines 427-431: reflection off the top and bottom walls. *)
Definition bounceVertical (w : World) : World :=
  let b := ball w in
  if JS.lt (Ball.y b) (Ball.radius b)
     || JS.gt (Ball.y b) (CANVAS_HEIGHT - Ball.radius b)
  then
    let b := Ball.set_vy (Ball.vy b * -0.8) b in
    let b := Ball.set_y (if JS.lt (Ball.y b) (Ball.radius b)
                         then Ball.radius b
                         else CANVAS_HEIGHT - Ball.radius b) b in
    play bounce (set_ball b w)
  else w.

(** Lines 433-438. *)
Definition checkCollision (obj1 : GameObject.t) (obj2 : Ball.t) : bool :=
  let dx := GameObject.x obj1 - Ball.x obj2 in
  let dy := GameObject.y obj1 - Ball.y obj2 in
  let distance := sqrt (dx * dx + dy * dy) in
  JS.lt distance (GameObject.radius obj1 + Ball.radius obj2).

(** Lines 440-457: kick or dribble.  [kickPower0] is the closed-over
    [kickPower]. *)
Definition playerBall (kickPower0 : R) (w : World) : World :=
  let p := player w in
  let b := ball w in
  if checkCollision p b then
    if Keys.space (keys w) then
      let angle := JS.atan2 (Ball.y b - GameObject.y p) (Ball.x b - GameObject.x p) in
      let power := JS.or_else kickPower0 10 in
      let b := Ball.set_vx (cos angle * power) b in
      let b := Ball.set_vy (sin angle * power) b in
      let b := Ball.set_spin (GameObject.vx p * cos (angle + PI / 2) * 0.1) b in
      play kick (set_ball b w)
    else
      let angle := JS.atan2 (Ball.y b - GameObject.y p) (Ball.x b - GameObject.x p) in
      let overlap :=
        GameObject.radius p + Ball.radius b
        - sqrt ((Ball.x b - GameObject.x p) ^ 2 + (Ball.y b - GameObject.y p) ^ 2) in
      let b := Ball.set_x (Ball.x b + cos angle * overlap) b in
      let b := Ball.set_y (Ball.y b + sin angle * overlap) b in
      let b := Ball.set_vx ((Ball.vx b + GameObject.vx p) * 0.5) b in
      let b := Ball.set_vy ((Ball.vy b + GameObject.vy p) * 0.5) b in
      set_ball b w
  else w.

(** Lines 459-464. *)
Definition aiBall (w : World) : World :=
  let a := ai w in
  let b := ball w in
  if checkCollision a b then
    let angle := JS.atan2 (Ball.y b - GameObject.y a) (Ball.x b - GameObject.x a) in
    let b := Ball.set_vx (cos angle * 12) b in
    let b := Ball.set_vy (sin angle * 12) b in
    play kick (set_ball b w)
  else w.

(** Lines 466-478: goal detection. *)
Definition goalCheck (w : World) : World :=
  let b := ball w in
  if JS.lt (Ball.x b) 0 then
    let w := setScore (Score.mk (Score.player (score w)) (Score.ai (score w) + 1)) w in
    let w := play goal w in
    let b := Ball.set_x (CANVAS_WIDTH / 2) b in
    let b := Ball.set_y (CANVAS_HEIGHT / 2) b in
    let b := Ball.set_vx 0 (Ball.set_vy 0 b) in
    set_ball b w
  else if JS.gt (Ball.x b) CANVAS_WIDTH then
    let w := setScore (Score.mk (Score.player (score w) + 1) (Score.ai (score w))) w in
    let w := play goal w in
    let b := Ball.set_x (CANVAS_WIDTH / 2) b in
    let b := Ball.set_y (CANVAS_HEIGHT / 2) b in
    let b := Ball.set_vx 0 (Ball.set_vy 0 b) in
    set_ball b w
  else w.

(** Motion of the three bodies and wall reflection (lines 379-431). *)
Definition integrate (w : World) : option World :=
  w <- movePlayer w ;;
  w <- steerAI w ;;
  let w := moveAI w in
  let w := moveBall w in
  let w := bounceHorizontal w in
  Some (bounceVertical w).

(** Collisions and scoring (lines 440-478). *)
Definition resolve (kickPower0 : R) (w : World) : World :=
  goalCheck (aiBall (playerBall kickPower0 w)).

(** Pick-up, expiry and spawn (lines 480-491 and 573). *)
Definition lifecycle (env : Env) (len0 : nat) (w : World) : World :=
  spawnPowerUp env len0 (updatePowerUps (now env) (pickUp (now env) w)).

(** [updateGame] (lines 361-578), without the drawing and the bookkeeping
    of [lastTime], which nothing else reads. *)
Definition updateGame (env : Env) (w : World) : option World :=
  if isPaused w then Some w
  else
    let kickPower0 := kickPower w in
    let len0 := length (powerUps w) in
    let w := chargeKick (isCharging w) kickPower0 w in
    w <- integrate w ;;
    Some (lifecycle env len0 (resolve kickPower0 w)).

(** The callback of the one-second interval (lines 584-595). *)
Definition timerTick (w : World) : World :=
  if negb (isPaused w) then
    if (timeLeft w <=? 1)%Z then setGameOver true (setTimeLeft 0 w)
    else setTimeLeft (timeLeft w - 1) w
  else w.

(** The Start/Pause button (line 647). *)
Definition clickPause (w : World) : World := setIsPaused (negb (isPaused w)) w.

(** ** The ball in binary64

    The position and velocity update of the ball with the arithmetic the
    code runs on: IEEE 754 binary64, round to nearest, ties to even. *)

Module Binary64.
Import PrimFloat.

#[warnings="-inexact-float"] Definition BASE_FRICTION : float := 0.98%float.

Record Ball : Type := mkBall {
  x : float; y : float; vx : float; vy : float;
  radius : float; spin : float; rotation : float
}.

(** Lines 416-420. *)
Definition moveBall (b : Ball) : Ball :=
  mkBall (x b + vx b)%float (y b + vy b)%float
         (vx b * BASE_FRICTION)%float (vy b * BASE_FRICTION)%float
         (radius b) (spin b) (rotation b + spin b)%float.

(** The factor of a reflection (lines 423 and 428). *)
#[warnings="-inexact-float"] Definition reflect (v : float) : float := (v * -0.8)%float.

(** [k] times the least positive number, 2^-1074. *)
Definition ulps (k : positive) : float :=
  FloatOps.SF2Prim (SpecFloat.S754_finite false k (-1074)).

(** The ball at the centre of the field, creeping to the right at 2^-1074
    pixels per frame. *)
Definition creeping : Ball := mkBall 400 300 (ulps 1) 0 12 0 0.

End Binary64.

(** ** The view *)

Module View.
Import String Ascii.
Local Open Scope string_scope.

(** [n.toString()] of an integral number. *)
Definition toString (n : Z) : string :=
  DecimalString.NilZero.string_of_int (Z.to_int n).

Fixpoint repeat (padString : ascii) (n : nat) : string :=
  match n with
  | O => EmptyString
  | S n => String padString (repeat padString n)
  end.

(** [str.padStart(targetLength, padString)] for a pad string of one
    character. *)
Definition padStart (targetLength : nat) (padString : ascii) (str : string)
  : string :=
  repeat padString (targetLength - length str) ++ str.

(** The clock of the score bar (line 634). *)
Definition clock (timeLeft : Z) : string :=
  "Time: " ++ toString (timeLeft / 60) ++ ":"
  ++ padStart 2 "0" (toString (Z.rem timeLeft 60)).

(** The character of a decimal digit. *)
Definition digit (d : Z) : ascii := ascii_of_nat (48 + Z.to_nat d).

(** Minutes, a colon and two digits of seconds. *)
Definition minutesSeconds (t : Z) : string :=
  "Time: " ++
  String (digit (t / 60))
    (String ":" (String (digit (t mod 60 / 10))
                        (String (digit (t mod 10)) EmptyString))).

Definition agree (n : nat) : bool :=
  String.eqb (clock (Z.of_nat n)) (minutesSeconds (Z.of_nat n)).

End View.

(** ** Runs of the program *)

Inductive Event : Type :=
  | Frame (env : Env)
  | KeyDown (k : Key)
  | KeyUp (k : Key)
  | ClickPause
  | ClickReset
  | Interval.

Definition step (ev : Event) (w : World) : option World :=
  match ev with
  | Frame env => updateGame env w
  | KeyDown k => Some (handleKeyDown k w)
  | KeyUp k => Some (handleKeyUp k w)
  | ClickPause => Some (clickPause w)
  | ClickReset => Some (resetGame w)
  | Interval => Some (timerTick w)
  end.

(** The clock reads a positive number of milliseconds and every random
    draw lies in [0, 1). *)
Definition validEnv (env : Env) : Prop :=
  (0 < now env)%Z /\
  0 <= random_spawn env < 1 /\ 0 <= random_x env < 1 /\
  0 <= random_y env < 1 /\ 0 <= random_type env < 1.

Definition validEvent (ev : Event) : Prop :=
  match ev with
  | Frame env => validEnv env
  | _ => True
  end.

(** The worlds a run can be in between two callbacks.  Frames are allowed
    whatever [gameOver] is: the effect requests a frame each time it is
    re-run. *)
Inductive reachable : World -> Prop :=
  | reachable_initial : reachable initialWorld
  | reachable_step : forall ev w w',
      reachable w -> validEvent ev -> step ev w = Some w' -> reachable w'.

(** The worlds of the runs in which the Reset button is never clicked. *)
Inductive resetFree : World -> Prop :=
  | resetFree_initial : resetFree initialWorld
  | resetFree_step : forall ev w w',
      resetFree w -> validEvent ev -> ev <> ClickReset ->
      step ev w = Some w' -> resetFree w'.

(** ** Notions used in the statements *)

(** The speed of a body: the magnitude of its velocity. *)
Definition magnitude (vx vy : R) : R := sqrt (vx * vx + vy * vy).

(** The cells no physics step writes. *)
Definition sameCells (w w' : World) : Prop :=
  keys w' = keys w /\ timeLeft w' = timeLeft w /\ gameOver w' = gameOver w /\
  isCharging w' = isCharging w /\ isPaused w' = isPaused w.

(** The fields of a body no power-up writes. *)
Definition sameMotion (p p' : GameObject.t) : Prop :=
  GameObject.x p' = GameObject.x p /\ GameObject.y p' = GameObject.y p /\
  GameObject.vx p' = GameObject.vx p /\ GameObject.vy p' = GameObject.vy p /\
  GameObject.speed p' = GameObject.speed p /\
  GameObject.acceleration p' = GameObject.acceleration p /\
  GameObject.deceleration p' = GameObject.deceleration p /\
  GameObject.direction p' = GameObject.direction p.

(** A power-up the filter of [updatePowerUps] drops at time [t]. *)
Definition expired (t : Z) (powerUp : PowerUp.t) : bool :=
  PowerUp.active powerUp &&
  match PowerUp.startTime powerUp with
  | Some start => negb (start =? 0)%Z && (t - start >=? PowerUp.duration powerUp)%Z
  | None => false
  end.

(** An expired power-up of the given type. *)
Definition expiredOf (ty : PowerUpType) (t : Z) (powerUp : PowerUp.t) : bool :=
  expired t powerUp &&
  match ty, PowerUp.type powerUp with
  | speed, speed | sticky, sticky | giant, giant => true
  | _, _ => false
  end.

(** What holds of every world of a run. *)
Definition invariant (w : World) : Prop :=
  (length (powerUps w) <= 2)%nat /\
  (kickPower w = 0 \/ 0.5 <= kickPower w <= 20) /\
  GameObject.acceleration (player w) = 0.5 /\
  GameObject.deceleration (player w) = 0.8 /\
  GameObject.speed (player w) = 5 /\
  7.5 <= GameObject.maxSpeed (player w) /\
  20 <= GameObject.radius (player w) /\
  GameObject.radius (ai w) = 20.

(** The world a frame hands from the motion phase to the collision phase. *)
Definition afterMotion (w : World) : option World :=
  integrate (chargeKick (isCharging w) (kickPower w) w).

(** A frame that draws no spawn. *)
Definition quiet (env : Env) : Prop := 0.005 <= random_spawn env.

(** The power-up [spawnPowerUp] builds from the draws of a frame
    (lines 314-320). *)
Definition spawned (env : Env) : PowerUp.t :=
  PowerUp.mk (random_x env * (CANVAS_WIDTH - 40) + 20)
             (random_y env * (CANVAS_HEIGHT - 40) + 20)
             (nth (Z.to_nat (Zfloor (random_type env * INR (length types))))
                  types sticky)
             true POWER_UP_DURATION None.

(** The condition under which [spawnPowerUp] appends a power-up (line 312):
    the draw, and the length of the list the frame closed over. *)
Definition spawns (env : Env) (w : World) : Prop :=
  random_spawn env < 0.005 /\ (length (powerUps w) < 2)%nat.

(** The least magnitude at which the binary64 product by [BASE_FRICTION]
    rounds below its operand, 25 * 2^-1074.  The code returns a smaller
    velocity component as it is. *)
Definition FRICTION_FLOOR : R := 25 / 2 ^ 1074.

(** A giant power-up whose effect is on the player: picked up and still
    in the list. *)
Definition giantOn (powerUp : PowerUp.t) : bool :=
  match PowerUp.type powerUp with
  | giant => JS.truthy (PowerUp.startTime powerUp)
  | _ => false
  end.

Definition giantsOn (l : list PowerUp.t) : nat := length (filter giantOn l).

(** The radius of the player is accounted for by the giant power-ups in
    the list. *)
Definition radiusAccounted (w : World) : Prop :=
  GameObject.radius (player w) <= PLAYER_RADIUS * 1.5 ^ giantsOn (powerUps w).

(** A world of a running match, known by its player, power-ups and keys. *)
Definition situation (p : GameObject.t) (l : list PowerUp.t) (k : Keys.t)
  (w : World) : Prop :=
  reachable w /\ player w = p /\ powerUps w = l /\ keys w = k /\
  isPaused w = false.

(** A sequence of callbacks, run one after the other. *)
Fixpoint run (evs : list Event) (w : World) : option World :=
  match evs with
  | [] => Some w
  | ev :: rest => w <- step ev w ;; run rest w
  end.

(** The callbacks the browser fires by itself: frames and timer ticks. *)
Definition timed (ev : Event) : bool :=
  match ev with
  | Frame _ | Interval => true
  | _ => false
  end.


(** What the spawner gives every power-up, and the pick-up loop keeps: it
    is active, lasts [POWER_UP_DURATION], lies inside the field 20 away
    from each edge, and its activation time, once there, is a positive
    clock reading. *)
Definition wellFormed (powerUp : PowerUp.t) : Prop :=
  PowerUp.active powerUp = true /\
  PowerUp.duration powerUp = POWER_UP_DURATION /\
  20 <= PowerUp.x powerUp < CANVAS_WIDTH - 20 /\
  20 <= PowerUp.y powerUp < CANVAS_HEIGHT - 20 /\
  (PowerUp.startTime powerUp = None \/
   exists t, PowerUp.startTime powerUp = Some t /\ (0 < t)%Z).

(** The number of goal signals in a log. *)
Definition isGoal (s : Sound) : bool :=
  match s with
  | goal => true
  | _ => false
  end.

Definition goalSounds (l : list Sound) : nat := length (filter isGoal l).

(** ** Closed forms of the steps of a frame *)

(** The player after [movePlayer], in closed form. *)
Definition nextPlayer (k : Keys.t) (p : GameObject.t) : GameObject.t :=
  let tx := target (Keys.left k) (Keys.right k) in
  let ty := target (Keys.up k) (Keys.down k) in
  let cs := if Keys.shift k then GameObject.maxSpeed p else GameObject.speed p in
  let diagonal := negb (Bool.eqb (Keys.left k) (Keys.right k))
                  && negb (Bool.eqb (Keys.up k) (Keys.down k)) in
  let gx := if diagonal then tx * cs / sqrt 2 else tx * cs in
  let gy := if diagonal then ty * cs / sqrt 2 else ty * cs in
  let vx1 := GameObject.vx p + (gx - GameObject.vx p) * GameObject.acceleration p in
  let vy1 := GameObject.vy p + (gy - GameObject.vy p) * GameObject.acceleration p in
  let vx2 := if Bool.eqb (Keys.left k) (Keys.right k)
             then vx1 * GameObject.deceleration p else vx1 in
  let vy2 := if Bool.eqb (Keys.up k) (Keys.down k)
             then vy1 * GameObject.deceleration p else vy1 in
  GameObject.mk
    (Rmax (GameObject.radius p)
          (Rmin (CANVAS_WIDTH - GameObject.radius p) (GameObject.x p + vx2)))
    (Rmax (GameObject.radius p)
          (Rmin (CANVAS_HEIGHT - GameObject.radius p) (GameObject.y p + vy2)))
    vx2 vy2 (GameObject.radius p) (GameObject.speed p) (GameObject.maxSpeed p)
    (GameObject.acceleration p) (GameObject.deceleration p)
    (GameObject.direction p).

(** The AI after [steerAI], in closed form. *)
Definition steered (a : GameObject.t) (b : Ball.t) : GameObject.t :=
  let dx := Ball.x b - GameObject.x a in
  let dy := Ball.y b - GameObject.y a in
  let dist := sqrt (dx * dx + dy * dy) in
  if Rlt_dec 0 dist then
    let vx := GameObject.vx a
              + (dx / dist * GameObject.speed a - GameObject.vx a)
                * GameObject.acceleration a in
    let vy := GameObject.vy a
              + (dy / dist * GameObject.speed a - GameObject.vy a)
                * GameObject.acceleration a in
    GameObject.mk (GameObject.x a) (GameObject.y a) vx vy (GameObject.radius a)
      (GameObject.speed a) (GameObject.maxSpeed a) (GameObject.acceleration a)
      (GameObject.deceleration a) (if Rlt_dec 0 vx then 1 else -1)
  else a.

(** The body after the position update and the clamp of lines 411-414. *)
Definition advanced (a : GameObject.t) : GameObject.t :=
  GameObject.mk
    (Rmax (GameObject.radius a)
          (Rmin (CANVAS_WIDTH - GameObject.radius a)
                (GameObject.x a + GameObject.vx a)))
    (Rmax (GameObject.radius a)
          (Rmin (CANVAS_HEIGHT - GameObject.radius a)
                (GameObject.y a + GameObject.vy a)))
    (GameObject.vx a) (GameObject.vy a) (GameObject.radius a)
    (GameObject.speed a) (GameObject.maxSpeed a) (GameObject.acceleration a)
    (GameObject.deceleration a) (GameObject.direction a).

(** Lines 416-420 on the ball alone. *)
Definition slide (b : Ball.t) : Ball.t :=
  Ball.mk (Ball.x b + Ball.vx b) (Ball.y b + Ball.vy b)
          (Ball.vx b * BASE_FRICTION) (Ball.vy b * BASE_FRICTION)
          (Ball.radius b) (Ball.spin b) (Ball.rotation b + Ball.spin b).

(** Lines 422-426 on the ball alone. *)
Definition reflectX (b : Ball.t) : Ball.t :=
  if JS.lt (Ball.x b) (Ball.radius b)
     || JS.gt (Ball.x b) (CANVAS_WIDTH - Ball.radius b)
  then Ball.mk (if JS.lt (Ball.x b) (Ball.radius b)
                then Ball.radius b else CANVAS_WIDTH - Ball.radius b)
               (Ball.y b) (Ball.vx b * -0.8) (Ball.vy b)
               (Ball.radius b) (Ball.spin b) (Ball.rotation b)
  else b.

(** Lines 427-431 on the ball alone. *)
Definition reflectY (b : Ball.t) : Ball.t :=
  if JS.lt (Ball.y b) (Ball.radius b)
     || JS.gt (Ball.y b) (CANVAS_HEIGHT - Ball.radius b)
  then Ball.mk (Ball.x b)
               (if JS.lt (Ball.y b) (Ball.radius b)
                then Ball.radius b else CANVAS_HEIGHT - Ball.radius b)
               (Ball.vx b) (Ball.vy b * -0.8)
               (Ball.radius b) (Ball.spin b) (Ball.rotation b)
  else b.

(** The ball after [moveBall] and the two reflections. *)
Definition nextBall (b : Ball.t) : Ball.t := reflectY (reflectX (slide b)).

(** The player as [applyPowerUp] leaves it. *)
Definition boosted (ty : PowerUpType) (p : GameObject.t) : GameObject.t :=
  match ty with
  | speed => GameObject.set_maxSpeed (GameObject.maxSpeed p * 1.5) p
  | sticky => p
  | giant => GameObject.set_radius (GameObject.radius p * 1.5) p
  end.

(** The player as the expiry of a power-up leaves it. *)
Definition reverted (ty : PowerUpType) (p : GameObject.t) : GameObject.t :=
  match ty with
  | speed => GameObject.set_maxSpeed (BASE_PLAYER_SPEED * SPRINT_MULTIPLIER) p
  | sticky => p
  | giant => GameObject.set_radius PLAYER_RADIUS p
  end.

(** The power-up phase reads the player and the list only: its effect on
    them is that on the initial world carrying them. *)
Definition lifecycleView (env : Env) (n : nat) (p : GameObject.t)
  (l : list PowerUp.t) : GameObject.t * list PowerUp.t :=
  let w := lifecycle env n (setPowerUps l (set_player p initialWorld)) in
  (player w, powerUps w).

(** ** Worlds, inputs and input sequences of the examples *)

(** The initial world with the ball pushed out to x = -12. *)
Definition ballLeftOfField : World :=
  set_ball (Ball.set_x (-12) initialBall) initialWorld.

(** The AI on the ball (at the centre), moving at 3 to the right. *)
Definition aiOnBall : World :=
  set_ai (GameObject.set_vx 3 (GameObject.set_x 400 initialAi)) initialWorld.

(** A player whose maximal speed was multiplied twice, with the two speed
    power-ups that did it, the first of which is due. *)
Definition twiceBoosted : World :=
  setPowerUps
    [PowerUp.mk 100 100 speed true POWER_UP_DURATION (Some 1000%Z);
     PowerUp.mk 300 300 speed true POWER_UP_DURATION (Some 4000%Z)]
    (set_player (GameObject.set_maxSpeed (7.5 * 1.5 * 1.5) initialPlayer)
                initialWorld).

(** A running match, the bodies at rest at their initial places, the ball
    at (15, 300) shot at the left wall with velocity (-16, 0). *)
Definition ballDrivenLeft : World :=
  mkWorld initialPlayer initialAi (Ball.mk 15 300 (-16) 0 BALL_RADIUS 0 0)
          initialKeys (Score.mk 0 0) 180 false [] 0 false false [].

(** A frame at clock 1 whose first draw spawns nothing. *)
Definition quietEnv : Env := mkEnv 1 0.5 0 0 0.

(** The player standing at (x, 300). *)
Definition standing (x r m : R) : GameObject.t :=
  GameObject.mk x 300 0 0 r 5 m 0.5 0.8 1.

(** The player of radius 20 running along y = 300. *)
Definition running (x vx m : R) : GameObject.t :=
  GameObject.mk x 300 vx 0 20 5 m 0.5 0.8 1.

(** Right arrow and shift held. *)
Definition keysRightShift : Keys.t := Keys.mk false false false true false true.

(** The player on the left edge, the ball rolling into the wall beside it. *)
Definition ballSqueezed : World :=
  mkWorld (standing 20 20 7.5) initialAi (Ball.mk 13 300 (-2) 0 BALL_RADIUS 0 0)
          initialKeys (Score.mk 0 0) 180 false [] 0 false false [].

(** The player next to the ball, the kick button held. *)
Definition atTheBall (charge : R) : World :=
  mkWorld initialPlayer initialAi (Ball.mk 220 300 0 0 BALL_RADIUS 0 0)
          (Keys.mk false false false false true false) (Score.mk 0 0)
          180 false [] charge true false [].

(** A frame whose draws spawn a power-up at (200, 300). *)
Definition spawnEnv (t : Z) (draw : R) : Env := mkEnv t 0 (9 / 38) (1 / 2) draw.

(** A frame at clock [t] whose first draw spawns nothing. *)
Definition quietAt (t : Z) : Env := mkEnv t 0.5 0 0 0.

(** The power-up a frame with the draws of [spawnEnv] appends. *)
Definition spawnedAt200 (ty : PowerUpType) : PowerUp.t :=
  PowerUp.mk (9 / 38 * (CANVAS_WIDTH - 40) + 20)
             (1 / 2 * (CANVAS_HEIGHT - 40) + 20)
             ty true POWER_UP_DURATION None.

(** Every key of the simulation released, one key-up after the other. *)
Definition releaseAll (w : World) : World :=
  fold_left (fun w k => handleKeyUp k w)
            [ArrowUp; ArrowDown; ArrowLeft; ArrowRight; Space; Shift] w.

(** ** Basic facts *)

Ltac unfold_consts :=
  unfold CANVAS_WIDTH, CANVAS_HEIGHT, PLAYER_RADIUS, BALL_RADIUS,
    BASE_FRICTION, BASE_PLAYER_SPEED, SPRINT_MULTIPLIER, AI_SPEED,
    KICK_CHARGE_RATE, MAX_KICK_POWER, POWER_UP_DURATION in *.

Lemma lt_true (a b : R) : JS.lt a b = true <-> a < b.
Proof. unfold JS.lt; destruct (Rlt_dec a b); split; intros; try easy. Qed.

Lemma lt_false (a b : R) : JS.lt a b = false <-> b <= a.
Proof.
  unfold JS.lt; destruct (Rlt_dec a b); split; intros; try easy; lra.
Qed.

Lemma div_some (a b : R) : b <> 0 -> JS.div a b = Some (a / b).
Proof. intros H; unfold JS.div; destruct (Req_dec_T b 0); easy. Qed.

Lemma sqrt2_neq_0 : sqrt 2 <> 0.
Proof. assert (0 < sqrt 2) by (apply sqrt_lt_R0; lra); lra. Qed.

(** A bound below a distance: comparing squares. *)
Lemma le_sqrt (c s : R) : 0 <= c -> c * c <= s -> c <= sqrt s.
Proof.
  intros Hc Hs. rewrite <- (sqrt_square c Hc). apply sqrt_le_1; nra.
Qed.

Lemma sqrt_lt_bound (c s : R) : 0 <= s -> 0 < c -> s < c * c -> sqrt s < c.
Proof.
  intros Hs Hc H. rewrite <- (sqrt_square c) by lra. apply sqrt_lt_1; nra.
Qed.

(** ** The closed forms agree with the steps *)

Lemma target_eq_0 (l r : bool) : JS.eq (target l r) 0 = Bool.eqb l r.
Proof.
  unfold JS.eq, target.
  destruct l, r; cbn; destruct (Req_dec_T _ 0); try reflexivity; lra.
Qed.

Lemma movePlayer_spec (w : World) :
  movePlayer w = Some (set_player (nextPlayer (keys w) (player w)) w).
Proof.
  unfold movePlayer, nextPlayer, JS.neq. rewrite !target_eq_0.
  destruct (Bool.eqb (Keys.left (keys w)) (Keys.right (keys w)));
    destruct (Bool.eqb (Keys.up (keys w)) (Keys.down (keys w)));
    cbv beta iota delta [negb andb];
    rewrite ?div_some by apply sqrt2_neq_0;
    reflexivity.
Qed.

Lemma steerAI_spec (w : World) :
  steerAI w = Some (set_ai (steered (ai w) (ball w)) w).
Proof.
  unfold steerAI, steered, JS.gt, JS.lt.
  destruct (Rlt_dec 0 _) as [Hd | Hd].
  - rewrite !div_some by lra. cbn [bind]. cbn.
    destruct (Rlt_dec 0 _); reflexivity.
  - destruct w; reflexivity.
Qed.

(** *** The shape of the two partial steps *)

Lemma movePlayer_shape (w : World) :
  exists p, movePlayer w = Some (set_player p w) /\
    GameObject.radius p = GameObject.radius (player w) /\
    GameObject.speed p = GameObject.speed (player w) /\
    GameObject.maxSpeed p = GameObject.maxSpeed (player w) /\
    GameObject.acceleration p = GameObject.acceleration (player w) /\
    GameObject.deceleration p = GameObject.deceleration (player w).
Proof.
  exists (nextPlayer (keys w) (player w)).
  split; [apply movePlayer_spec | repeat split].
Qed.

Lemma steerAI_shape (w : World) :
  exists a, steerAI w = Some (set_ai a w) /\
    GameObject.x a = GameObject.x (ai w) /\
    GameObject.y a = GameObject.y (ai w) /\
    GameObject.radius a = GameObject.radius (ai w) /\
    GameObject.speed a = GameObject.speed (ai w) /\
    GameObject.acceleration a = GameObject.acceleration (ai w).
Proof.
  unfold steerAI.
  set (dx := Ball.x (ball w) - GameObject.x (ai w)).
  set (dy := Ball.y (ball w) - GameObject.y (ai w)).
  destruct (JS.gt (sqrt (dx * dx + dy * dy)) 0) eqn:Hd.
  - apply lt_true in Hd.
    rewrite !div_some by lra. cbn [bind].
    eexists; split; [reflexivity |]. repeat split.
  - exists (ai w). split; [| repeat split].
    destruct w; reflexivity.
Qed.

Lemma integrate_total (w : World) : exists w', integrate w = Some w'.
Proof.
  unfold integrate.
  destruct (movePlayer_shape w) as (p & -> & _). cbn [bind].
  destruct (steerAI_shape (set_player p w)) as (a & -> & _). cbn [bind].
  eexists; reflexivity.
Qed.

(** Every frame returns: no step of [updateGame] divides by zero. *)
Lemma updateGame_total (env : Env) (w : World) :
  exists w', updateGame env w = Some w'.
Proof.
  unfold updateGame. destruct (isPaused w); [eexists; reflexivity |].
  destruct (integrate_total (chargeKick (isCharging w) (kickPower w) w))
    as (w1 & ->).
  eexists; reflexivity.
Qed.

(** *** What each step leaves alone *)

Lemma sameCells_trans (w1 w2 w3 : World) :
  sameCells w1 w2 -> sameCells w2 w3 -> sameCells w1 w3.
Proof.
  unfold sameCells. intros (?&?&?&?&?) (?&?&?&?&?).
  repeat split; congruence.
Qed.

Lemma chargeKick_frame (c : bool) (k : R) (w : World) :
  sameCells w (chargeKick c k w) /\
  player (chargeKick c k w) = player w /\ ai (chargeKick c k w) = ai w /\
  ball (chargeKick c k w) = ball w /\ score (chargeKick c k w) = score w /\
  powerUps (chargeKick c k w) = powerUps w /\
  played (chargeKick c k w) = played w.
Proof.
  unfold chargeKick.
  destruct (c && JS.lt k MAX_KICK_POWER); [repeat split |].
  destruct (negb c && JS.gt k 0); repeat split.
Qed.

Lemma moveAI_frame (w : World) :
  sameCells w (moveAI w) /\ player (moveAI w) = player w /\
  ball (moveAI w) = ball w /\ score (moveAI w) = score w /\
  powerUps (moveAI w) = powerUps w /\ kickPower (moveAI w) = kickPower w /\
  played (moveAI w) = played w /\
  GameObject.radius (ai (moveAI w)) = GameObject.radius (ai w).
Proof. repeat split. Qed.

Lemma moveBall_frame (w : World) :
  sameCells w (moveBall w) /\ player (moveBall w) = player w /\
  ai (moveBall w) = ai w /\ score (moveBall w) = score w /\
  powerUps (moveBall w) = powerUps w /\ kickPower (moveBall w) = kickPower w /\
  played (moveBall w) = played w.
Proof. repeat split. Qed.

Lemma bounceHorizontal_frame (w : World) :
  sameCells w (bounceHorizontal w) /\ player (bounceHorizontal w) = player w /\
  ai (bounceHorizontal w) = ai w /\ score (bounceHorizontal w) = score w /\
  powerUps (bounceHorizontal w) = powerUps w /\
  kickPower (bounceHorizontal w) = kickPower w.
Proof.
  unfold bounceHorizontal.
  destruct (JS.lt _ _ || JS.gt _ _); repeat split.
Qed.

Lemma bounceVertical_frame (w : World) :
  sameCells w (bounceVertical w) /\ player (bounceVertical w) = player w /\
  ai (bounceVertical w) = ai w /\ score (bounceVertical w) = score w /\
  powerUps (bounceVertical w) = powerUps w /\
  kickPower (bounceVertical w) = kickPower w.
Proof.
  unfold bounceVertical.
  destruct (JS.lt _ _ || JS.gt _ _); repeat split.
Qed.

Lemma playerBall_frame (k : R) (w : World) :
  sameCells w (playerBall k w) /\ player (playerBall k w) = player w /\
  ai (playerBall k w) = ai w /\ score (playerBall k w) = score w /\
  powerUps (playerBall k w) = powerUps w /\
  kickPower (playerBall k w) = kickPower w.
Proof.
  unfold playerBall.
  destruct (checkCollision _ _); [| repeat split].
  destruct (Keys.space _); repeat split.
Qed.

Lemma aiBall_frame (w : World) :
  sameCells w (aiBall w) /\ player (aiBall w) = player w /\
  ai (aiBall w) = ai w /\ score (aiBall w) = score w /\
  powerUps (aiBall w) = powerUps w /\ kickPower (aiBall w) = kickPower w.
Proof.
  unfold aiBall. destruct (checkCollision _ _); repeat split.
Qed.

Lemma goalCheck_frame (w : World) :
  sameCells w (goalCheck w) /\ player (goalCheck w) = player w /\
  ai (goalCheck w) = ai w /\ powerUps (goalCheck w) = powerUps w /\
  kickPower (goalCheck w) = kickPower w.
Proof.
  unfold goalCheck.
  destruct (JS.lt _ 0); [repeat split |].
  destruct (JS.gt _ _); repeat split.
Qed.

Lemma resolve_frame (k : R) (w : World) :
  sameCells w (resolve k w) /\ player (resolve k w) = player w /\
  ai (resolve k w) = ai w /\ powerUps (resolve k w) = powerUps w /\
  kickPower (resolve k w) = kickPower w.
Proof.
  unfold resolve.
  destruct (playerBall_frame k w) as (C1 & P1 & A1 & _ & U1 & K1).
  destruct (aiBall_frame (playerBall k w)) as (C2 & P2 & A2 & _ & U2 & K2).
  destruct (goalCheck_frame (aiBall (playerBall k w)))
    as (C3 & P3 & A3 & U3 & K3).
  split; [eauto using sameCells_trans |].
  repeat split; congruence.
Qed.

(** [integrate] moves the player as [movePlayer] alone does and writes
    neither the state cells nor the power-ups. *)
Lemma integrate_frame (w w1 : World) :
  integrate w = Some w1 ->
  sameCells w w1 /\ score w1 = score w /\ powerUps w1 = powerUps w /\
  kickPower w1 = kickPower w /\
  GameObject.radius (ai w1) = GameObject.radius (ai w) /\
  exists p, movePlayer w = Some (set_player p w) /\ player w1 = p.
Proof.
  unfold integrate.
  destruct (movePlayer_shape w) as (p & Hp & _). rewrite Hp. cbn [bind].
  destruct (steerAI_shape (set_player p w)) as (a & Ha & _ & _ & Hr & _).
  rewrite Ha. cbn [bind]. intros [= <-].
  set (w2 := set_ai a (set_player p w)).
  destruct (moveAI_frame w2) as (C1 & P1 & _ & S1 & U1 & K1 & _ & R1).
  destruct (moveBall_frame (moveAI w2)) as (C2 & P2 & A2 & S2 & U2 & K2 & _).
  destruct (bounceHorizontal_frame (moveBall (moveAI w2)))
    as (C3 & P3 & A3 & S3 & U3 & K3).
  destruct (bounceVertical_frame (bounceHorizontal (moveBall (moveAI w2))))
    as (C4 & P4 & A4 & S4 & U4 & K4).
  assert (C0 : sameCells w w2) by (repeat split).
  split; [eauto using sameCells_trans |].
  split; [rewrite S4, S3, S2, S1; reflexivity |].
  split; [rewrite U4, U3, U2, U1; reflexivity |].
  split; [rewrite K4, K3, K2, K1; reflexivity |].
  split; [rewrite A4, A3, A2, R1; exact Hr |].
  exists p. split; [reflexivity |].
  rewrite P4, P3, P2, P1. reflexivity.
Qed.

(** *** Power-ups *)

Lemma sameMotion_trans (p1 p2 p3 : GameObject.t) :
  sameMotion p1 p2 -> sameMotion p2 p3 -> sameMotion p1 p3.
Proof.
  unfold sameMotion. intros (?&?&?&?&?&?&?&?) (?&?&?&?&?&?&?&?).
  repeat split; congruence.
Qed.

Lemma keepPowerUp_spec (t : Z) (powerUp : PowerUp.t) (p : GameObject.t) :
  keepPowerUp t powerUp p =
  (negb (expired t powerUp),
   if expiredOf speed t powerUp
   then GameObject.set_maxSpeed (BASE_PLAYER_SPEED * SPRINT_MULTIPLIER) p
   else if expiredOf giant t powerUp
        then GameObject.set_radius PLAYER_RADIUS p
        else p).
Proof.
  unfold keepPowerUp, expiredOf, expired, JS.truthy.
  destruct (PowerUp.active powerUp); cbn; [| reflexivity].
  destruct (PowerUp.startTime powerUp) as [start |]; cbn; [| reflexivity].
  destruct (start =? 0)%Z; cbn; [reflexivity |].
  destruct (t - start >=? PowerUp.duration powerUp)%Z; cbn; [| reflexivity].
  destruct (PowerUp.type powerUp); reflexivity.
Qed.

Lemma filterPowerUps_spec (t : Z) (l : list PowerUp.t) (p : GameObject.t) :
  fst (filterPowerUps t l p) = filter (fun pu => negb (expired t pu)) l /\
  sameMotion p (snd (filterPowerUps t l p)) /\
  GameObject.maxSpeed (snd (filterPowerUps t l p)) =
    (if existsb (expiredOf speed t) l
     then BASE_PLAYER_SPEED * SPRINT_MULTIPLIER else GameObject.maxSpeed p) /\
  GameObject.radius (snd (filterPowerUps t l p)) =
    (if existsb (expiredOf giant t) l
     then PLAYER_RADIUS else GameObject.radius p).
Proof.
  revert p. induction l as [| pu l IH]; intros p.
  - cbn. repeat split.
  - cbn [filterPowerUps]. rewrite keepPowerUp_spec.
    set (p1 := if expiredOf speed t pu then _ else _).
    specialize (IH p1). destruct (filterPowerUps t l p1) as [rest p2].
    cbn [fst snd] in *. destruct IH as (IHl & IHm & IHs & IHr).
    assert (Hm : sameMotion p p1).
    { subst p1. destruct (expiredOf speed t pu); [repeat split |].
      destruct (expiredOf giant t pu); repeat split. }
    split; [| split; [eauto using sameMotion_trans |]].
    + cbn [filter]. destruct (negb (expired t pu)); cbn; congruence.
    + cbn [existsb]. rewrite IHs, IHr. subst p1.
      set (es := existsb (expiredOf speed t) l).
      set (eg := existsb (expiredOf giant t) l).
      unfold expiredOf.
      destruct (expired t pu), (PowerUp.type pu), es, eg; cbn;
        split; reflexivity.
Qed.

Lemma updatePowerUps_spec (t : Z) (w : World) :
  powerUps (updatePowerUps t w) =
    filter (fun pu => negb (expired t pu)) (powerUps w) /\
  sameMotion (player w) (player (updatePowerUps t w)) /\
  GameObject.maxSpeed (player (updatePowerUps t w)) =
    (if existsb (expiredOf speed t) (powerUps w)
     then BASE_PLAYER_SPEED * SPRINT_MULTIPLIER
     else GameObject.maxSpeed (player w)) /\
  GameObject.radius (player (updatePowerUps t w)) =
    (if existsb (expiredOf giant t) (powerUps w)
     then PLAYER_RADIUS else GameObject.radius (player w)).
Proof.
  unfold updatePowerUps.
  pose proof (filterPowerUps_spec t (powerUps w) (player w)) as H.
  destruct (filterPowerUps t (powerUps w) (player w)) as [kept p].
  exact H.
Qed.

Lemma updatePowerUps_frame (t : Z) (w : World) :
  sameCells w (updatePowerUps t w) /\ ai (updatePowerUps t w) = ai w /\
  ball (updatePowerUps t w) = ball w /\ score (updatePowerUps t w) = score w /\
  kickPower (updatePowerUps t w) = kickPower w /\
  played (updatePowerUps t w) = played w.
Proof.
  unfold updatePowerUps.
  destruct (filterPowerUps t (powerUps w) (player w)) as [kept p].
  repeat split.
Qed.

Lemma applyPowerUp_spec (t : Z) (pu : PowerUp.t) (w : World) :
  let w' := snd (applyPowerUp t pu w) in
  fst (applyPowerUp t pu w) = PowerUp.set_startTime (Some t) pu /\
  sameCells w w' /\ ai w' = ai w /\ ball w' = ball w /\ score w' = score w /\
  kickPower w' = kickPower w /\ powerUps w' = powerUps w /\
  sameMotion (player w) (player w') /\
  GameObject.maxSpeed (player w') =
    match PowerUp.type pu with
    | speed => GameObject.maxSpeed (player w) * 1.5
    | _ => GameObject.maxSpeed (player w)
    end /\
  GameObject.radius (player w') =
    match PowerUp.type pu with
    | giant => GameObject.radius (player w) * 1.5
    | _ => GameObject.radius (player w)
    end.
Proof.
  cbn. destruct (PowerUp.type pu); cbn; repeat split.
Qed.

(** The pick-up loop keeps the length of the list, moves nothing and can
    only raise the maximal speed and the radius of the player. *)
Lemma forEachPickUp_spec (t : Z) (l : list PowerUp.t) (w : World) :
  let r := forEachPickUp t l w in
  length (fst r) = length l /\
  sameCells w (snd r) /\ ai (snd r) = ai w /\ ball (snd r) = ball w /\
  score (snd r) = score w /\ kickPower (snd r) = kickPower w /\
  sameMotion (player w) (player (snd r)) /\
  (forall c, 0 <= c -> c <= GameObject.maxSpeed (player w) ->
             c <= GameObject.maxSpeed (player (snd r))) /\
  (forall c, 0 <= c -> c <= GameObject.radius (player w) ->
             c <= GameObject.radius (player (snd r))).
Proof.
  revert w. induction l as [| pu l IH]; intros w.
  - cbn. repeat split; auto.
  - cbn [forEachPickUp].
    set (step1 := if PowerUp.active pu && _ then _ else _).
    assert (H1 : sameCells w (snd step1) /\ ai (snd step1) = ai w /\
                 ball (snd step1) = ball w /\ score (snd step1) = score w /\
                 kickPower (snd step1) = kickPower w /\
                 sameMotion (player w) (player (snd step1)) /\
                 (forall c, 0 <= c -> c <= GameObject.maxSpeed (player w) ->
                    c <= GameObject.maxSpeed (player (snd step1))) /\
                 (forall c, 0 <= c -> c <= GameObject.radius (player w) ->
                    c <= GameObject.radius (player (snd step1)))).
    { subst step1.
      destruct (PowerUp.active pu && _); [| cbn; repeat split; auto].
      destruct (JS.lt _ _); [| cbn; repeat split; auto].
      destruct (applyPowerUp_spec t pu w)
        as (_ & C & A & B & S & K & _ & M & Hs & Hr).
      repeat split; try assumption; try apply C; try apply M.
      - intros c Hc Hle. rewrite Hs. destruct (PowerUp.type pu); lra.
      - intros c Hc Hle. rewrite Hr. destruct (PowerUp.type pu); lra. }
    destruct step1 as [pu1 w1]. cbn [snd] in H1.
    specialize (IH w1). destruct (forEachPickUp t l w1) as [rest w2].
    cbn [fst snd] in *.
    destruct H1 as (C1 & A1 & B1 & S1 & K1 & M1 & Hs1 & Hr1).
    destruct IH as (L2 & C2 & A2 & B2 & S2 & K2 & M2 & Hs2 & Hr2).
    split; [cbn; congruence |].
    split; [eauto using sameCells_trans |].
    split; [congruence |]. split; [congruence |]. split; [congruence |].
    split; [congruence |].
    split; [eauto using sameMotion_trans |].
    split; intros c Hc Hle; auto.
Qed.

Lemma pickUp_spec (t : Z) (w : World) :
  length (powerUps (pickUp t w)) = length (powerUps w) /\
  sameCells w (pickUp t w) /\ ai (pickUp t w) = ai w /\
  ball (pickUp t w) = ball w /\ score (pickUp t w) = score w /\
  kickPower (pickUp t w) = kickPower w /\
  sameMotion (player w) (player (pickUp t w)) /\
  (forall c, 0 <= c -> c <= GameObject.maxSpeed (player w) ->
             c <= GameObject.maxSpeed (player (pickUp t w))) /\
  (forall c, 0 <= c -> c <= GameObject.radius (player w) ->
             c <= GameObject.radius (player (pickUp t w))).
Proof.
  unfold pickUp.
  pose proof (forEachPickUp_spec t (powerUps w) w) as H. cbn zeta in H.
  destruct (forEachPickUp t (powerUps w) w) as [l w1]. exact H.
Qed.

Lemma spawnPowerUp_frame (env : Env) (n : nat) (w : World) :
  sameCells w (spawnPowerUp env n w) /\
  player (spawnPowerUp env n w) = player w /\
  ai (spawnPowerUp env n w) = ai w /\ ball (spawnPowerUp env n w) = ball w /\
  score (spawnPowerUp env n w) = score w /\
  kickPower (spawnPowerUp env n w) = kickPower w /\
  played (spawnPowerUp env n w) = played w.
Proof.
  unfold spawnPowerUp. destruct (JS.lt _ _ && _); repeat split.
Qed.

Lemma filter_length_le {A : Type} (f : A -> bool) (l : list A) :
  (length (filter f l) <= length l)%nat.
Proof.
  induction l as [| a l IH]; cbn; [lia |]. destruct (f a); cbn; lia.
Qed.

(** The power-up phase of a frame writes the player's radius and maximal
    speed and the list of power-ups, nothing else. *)
Lemma lifecycle_frame (env : Env) (n : nat) (w : World) :
  sameCells w (lifecycle env n w) /\ ai (lifecycle env n w) = ai w /\
  ball (lifecycle env n w) = ball w /\ score (lifecycle env n w) = score w /\
  kickPower (lifecycle env n w) = kickPower w /\
  sameMotion (player w) (player (lifecycle env n w)).
Proof.
  unfold lifecycle.
  destruct (pickUp_spec (now env) w) as (_ & C1 & A1 & B1 & S1 & K1 & M1 & _).
  destruct (updatePowerUps_frame (now env) (pickUp (now env) w))
    as (C2 & A2 & B2 & S2 & K2 & _).
  destruct (updatePowerUps_spec (now env) (pickUp (now env) w))
    as (_ & M2 & _).
  destruct (spawnPowerUp_frame env n (updatePowerUps (now env) (pickUp (now env) w)))
    as (C3 & P3 & A3 & B3 & S3 & K3 & _).
  split; [eauto using sameCells_trans |].
  split; [congruence |]. split; [congruence |]. split; [congruence |].
  split; [congruence |].
  rewrite P3. eauto using sameMotion_trans.
Qed.

(** ** Reset *)

(** C8: from any world, whatever its score, time, bodies or power-ups,
    [resetGame] yields score (0,0), 180 seconds left, no power-up, kick
    charge zero, the three bodies at their initial positions with zero
    velocities, and the paused flag set. *)
Theorem resetGame_restores_start (w : World) :
  let w' := resetGame w in
  score w' = Score.mk 0 0 /\
  timeLeft w' = 180%Z /\
  powerUps w' = [] /\
  kickPower w' = 0 /\
  (GameObject.x (player w') = GameObject.x initialPlayer /\
   GameObject.y (player w') = GameObject.y initialPlayer /\
   GameObject.vx (player w') = 0 /\ GameObject.vy (player w') = 0) /\
  (GameObject.x (ai w') = GameObject.x initialAi /\
   GameObject.y (ai w') = GameObject.y initialAi /\
   GameObject.vx (ai w') = 0 /\ GameObject.vy (ai w') = 0) /\
  (Ball.x (ball w') = Ball.x initialBall /\
   Ball.y (ball w') = Ball.y initialBall /\
   Ball.vx (ball w') = 0 /\ Ball.vy (ball w') = 0) /\
  isPaused w' = true.
Proof.
  cbn. repeat split.
Qed.

(** ** Goal detection *)

(** C10: when a goal is scored, the goal-detection step changes the ball's
    position and velocity and the counter of the scoring side; the ball's
    spin, rotation and radius, both bodies, the other counter, the
    power-ups and every other cell stay as they were. *)
Theorem goalCheck_frame_on_goal (w : World) :
  Ball.x (ball w) < 0 \/ Ball.x (ball w) > CANVAS_WIDTH ->
  let w' := goalCheck w in
  Ball.spin (ball w') = Ball.spin (ball w) /\
  Ball.rotation (ball w') = Ball.rotation (ball w) /\
  Ball.radius (ball w') = Ball.radius (ball w) /\
  player w' = player w /\ ai w' = ai w /\
  powerUps w' = powerUps w /\
  (Ball.x (ball w) < 0 ->
     Score.player (score w') = Score.player (score w) /\
     Score.ai (score w') = (Score.ai (score w) + 1)%Z) /\
  (Ball.x (ball w) > CANVAS_WIDTH ->
     Score.ai (score w') = Score.ai (score w) /\
     Score.player (score w') = (Score.player (score w) + 1)%Z) /\
  keys w' = keys w /\ timeLeft w' = timeLeft w /\ gameOver w' = gameOver w /\
  kickPower w' = kickPower w /\ isCharging w' = isCharging w /\
  isPaused w' = isPaused w.
Proof.
  intros Hgoal. unfold goalCheck, JS.gt, JS.lt, CANVAS_WIDTH in *.
  destruct (Rlt_dec (Ball.x (ball w)) 0) as [Hl | Hl].
  - cbn. repeat split; intros; try reflexivity; lra.
  - destruct (Rlt_dec 800 (Ball.x (ball w))) as [Hr | Hr].
    + cbn. repeat split; intros; try reflexivity; lra.
    + lra.
Qed.

Lemma goalCheck_frame_on_goal_witness :
  Ball.spin (ball (goalCheck ballLeftOfField)) = 0 /\
  player (goalCheck ballLeftOfField) = initialPlayer /\
  ai (goalCheck ballLeftOfField) = initialAi /\
  Score.ai (score (goalCheck ballLeftOfField)) = 1%Z.
Proof.
  assert (H : Ball.x (ball ballLeftOfField) < 0) by (cbn; lra).
  pose proof (goalCheck_frame_on_goal ballLeftOfField (or_introl H))
    as (Hs & _ & _ & Hp & Ha & _ & Hai & _).
  split; [exact Hs |]. split; [exact Hp |]. split; [exact Ha |].
  exact (proj2 (Hai H)).
Defined.

(** ** AI steering *)

(** C9: AI steering always returns: the two divisions by the AI-to-ball
    distance are made only when the distance is strictly positive, where
    they are defined; at distance zero the world, and so the AI's velocity,
    is returned unchanged. *)
Theorem steerAI_guards_division (w : World) :
  let dx := Ball.x (ball w) - GameObject.x (ai w) in
  let dy := Ball.y (ball w) - GameObject.y (ai w) in
  let dist := sqrt (dx * dx + dy * dy) in
  (exists w', steerAI w = Some w') /\
  (dist = 0 -> steerAI w = Some w) /\
  (dist <> 0 ->
     0 < dist /\
     JS.div dx dist = Some (dx / dist) /\ JS.div dy dist = Some (dy / dist) /\
     exists w', steerAI w = Some w' /\
       GameObject.vx (ai w') =
         GameObject.vx (ai w)
         + (dx / dist * GameObject.speed (ai w) - GameObject.vx (ai w))
           * GameObject.acceleration (ai w) /\
       GameObject.vy (ai w') =
         GameObject.vy (ai w)
         + (dy / dist * GameObject.speed (ai w) - GameObject.vy (ai w))
           * GameObject.acceleration (ai w)).
Proof.
  intros dx dy dist.
  assert (Hpos : 0 <= dist) by apply sqrt_pos.
  split; [| split].
  - destruct (steerAI_shape w) as (a & Ha & _). eauto.
  - intros H0. unfold steerAI. fold dx dy dist.
    replace (JS.gt dist 0) with false; [reflexivity |].
    symmetry. apply lt_false. lra.
  - intros Hne. assert (Hlt : 0 < dist) by lra.
    split; [exact Hlt |].
    split; [apply div_some; exact Hne |].
    split; [apply div_some; exact Hne |].
    unfold steerAI. fold dx dy dist.
    replace (JS.gt dist 0) with true by (symmetry; apply lt_true; exact Hlt).
    rewrite !div_some by exact Hne. cbn [bind].
    eexists; split; [reflexivity |]. cbn. split; reflexivity.
Qed.

Lemma steerAI_guards_division_witness :
  steerAI aiOnBall = Some aiOnBall /\
  GameObject.vx (ai aiOnBall) = 3.
Proof.
  split; [| reflexivity].
  apply (steerAI_guards_division aiOnBall).
  cbn. unfold CANVAS_WIDTH, CANVAS_HEIGHT.
  replace ((800 / 2 - 400) * (800 / 2 - 400)
           + (600 / 2 - 600 / 2) * (600 / 2 - 600 / 2)) with 0 by lra.
  apply sqrt_0.
Defined.

(** ** Expiry of power-ups *)

(** C6: a power-up of the list that is active and carries an activation
    time [start] (a clock reading, not zero) with [t - start >= duration]
    is dropped by [updatePowerUps], which keeps exactly the power-ups not
    expired; if it is a speed power-up the player's maximal speed is 7.5
    afterwards, if it is a giant one the radius is 20, whatever these
    attributes were before (however many power-ups had multiplied them). *)
Theorem updatePowerUps_resets_to_base
  (t : Z) (w : World) (pu : PowerUp.t) (start : Z) :
  In pu (powerUps w) ->
  PowerUp.active pu = true ->
  PowerUp.startTime pu = Some start -> start <> 0%Z ->
  (t - start >= PowerUp.duration pu)%Z ->
  let w' := updatePowerUps t w in
  ~ In pu (powerUps w') /\
  (forall q, In q (powerUps w') <-> In q (powerUps w) /\ expired t q = false) /\
  (PowerUp.type pu = speed -> GameObject.maxSpeed (player w') = 7.5) /\
  (PowerUp.type pu = giant -> GameObject.radius (player w') = 20).
Proof.
  intros Hin Hact Hst Hne Hel w'.
  destruct (updatePowerUps_spec t w) as (Hl & _ & Hs & Hr). fold w' in Hl, Hs, Hr.
  assert (Hexp : expired t pu = true).
  { unfold expired. rewrite Hact, Hst. cbn.
    apply andb_true_intro; split.
    - apply negb_true_iff, Z.eqb_neq; exact Hne.
    - apply Z.geb_le; lia. }
  assert (Hq : forall q, In q (powerUps w') <->
                         In q (powerUps w) /\ expired t q = false).
  { intros q. rewrite Hl, filter_In, negb_true_iff. reflexivity. }
  split; [| split; [exact Hq | split]].
  - intros Hc. apply Hq in Hc. destruct Hc as [_ Hc]. congruence.
  - intros Hty. rewrite Hs.
    replace (existsb (expiredOf speed t) (powerUps w)) with true.
    + unfold_consts; lra.
    + symmetry. apply existsb_exists. exists pu. split; [exact Hin |].
      unfold expiredOf. rewrite Hexp, Hty. reflexivity.
  - intros Hty. rewrite Hr.
    replace (existsb (expiredOf giant t) (powerUps w)) with true.
    + reflexivity.
    + symmetry. apply existsb_exists. exists pu. split; [exact Hin |].
      unfold expiredOf. rewrite Hexp, Hty. reflexivity.
Qed.

Lemma updatePowerUps_resets_to_base_witness :
  GameObject.maxSpeed (player (updatePowerUps 6000 twiceBoosted)) = 7.5.
Proof.
  refine (proj1 (proj2 (proj2
    (updatePowerUps_resets_to_base 6000 twiceBoosted
       (PowerUp.mk 100 100 speed true POWER_UP_DURATION (Some 1000%Z))
       1000 _ _ _ _ _))) _).
  - left; reflexivity.
  - reflexivity.
  - reflexivity.
  - lia.
  - cbn. unfold POWER_UP_DURATION. lia.
  - reflexivity.
Defined.

(** ** Invariants of the runs *)

Lemma updateGame_unfold (env : Env) (w w' : World) :
  updateGame env w = Some w' -> isPaused w = false ->
  exists w1,
    integrate (chargeKick (isCharging w) (kickPower w) w) = Some w1 /\
    w' = lifecycle env (length (powerUps w)) (resolve (kickPower w) w1).
Proof.
  unfold updateGame. intros H Hp. rewrite Hp in H.
  destruct (integrate _) as [w1 |]; cbn [bind] in H; [| discriminate].
  exists w1. split; [reflexivity | congruence].
Qed.

(** Before the spawn of a frame the list is no longer than at its start;
    the spawn is decided on the length at the start. *)
Lemma updateGame_spawn (env : Env) (w w' : World) :
  updateGame env w = Some w' -> isPaused w = false ->
  exists w2,
    w' = spawnPowerUp env (length (powerUps w)) w2 /\
    (length (powerUps w2) <= length (powerUps w))%nat.
Proof.
  intros H Hp. apply updateGame_unfold in H; [| exact Hp].
  destruct H as (w1 & Hi & ->).
  apply integrate_frame in Hi. destruct Hi as (_ & _ & Hu & _).
  destruct (chargeKick_frame (isCharging w) (kickPower w) w)
    as (_ & _ & _ & _ & _ & Hu0 & _).
  destruct (resolve_frame (kickPower w) w1) as (_ & _ & _ & Hu1 & _).
  unfold lifecycle. eexists; split; [reflexivity |].
  destruct (updatePowerUps_spec (now env) (pickUp (now env) (resolve (kickPower w) w1)))
    as (-> & _).
  eapply Nat.le_trans; [apply filter_length_le |].
  destruct (pickUp_spec (now env) (resolve (kickPower w) w1)) as (-> & _).
  rewrite Hu1, Hu, Hu0. apply Nat.le_refl.
Qed.

Lemma spawnPowerUp_cases (env : Env) (n : nat) (w : World) :
  spawnPowerUp env n w = w \/
  (n < 2)%nat /\ random_spawn env < 0.005 /\
  exists pu,
    powerUps (spawnPowerUp env n w) = powerUps w ++ [pu] /\
    PowerUp.x pu = random_x env * (CANVAS_WIDTH - 40) + 20 /\
    PowerUp.y pu = random_y env * (CANVAS_HEIGHT - 40) + 20 /\
    PowerUp.active pu = true /\
    PowerUp.duration pu = POWER_UP_DURATION /\
    PowerUp.startTime pu = None.
Proof.
  unfold spawnPowerUp.
  destruct (JS.lt (random_spawn env) 0.005) eqn:Hr; cbn [andb]; [| now left].
  destruct (n <? 2)%nat eqn:Hn; [| now left].
  right. apply lt_true in Hr. apply Nat.ltb_lt in Hn.
  split; [exact Hn |]. split; [exact Hr |].
  eexists; split; [reflexivity |]. repeat split.
Qed.

Lemma invariant_initial : invariant initialWorld.
Proof.
  unfold invariant; cbn; unfold_consts.
  repeat split; try lra; try lia.
Qed.

Lemma chargeKick_kickPower (c : bool) (w : World) :
  kickPower w = 0 \/ 0.5 <= kickPower w <= 20 ->
  kickPower (chargeKick c (kickPower w) w) = 0 \/
  0.5 <= kickPower (chargeKick c (kickPower w) w) <= 20.
Proof.
  intros H. unfold chargeKick, JS.gt, JS.lt, MAX_KICK_POWER, KICK_CHARGE_RATE.
  destruct c; cbn [andb negb].
  - destruct (Rlt_dec (kickPower w) 20); [| exact H].
    cbn. right. unfold Rmin. destruct (Rle_dec _ _); lra.
  - destruct (Rlt_dec 0 (kickPower w)); [| exact H].
    cbn. left; reflexivity.
Qed.

Lemma updateGame_invariant (env : Env) (w w' : World) :
  invariant w -> updateGame env w = Some w' -> invariant w'.
Proof.
  intros Inv H.
  destruct (isPaused w) eqn:Hp.
  { unfold updateGame in H. rewrite Hp in H. congruence. }
  destruct (updateGame_spawn env w w' H Hp) as (w2 & Hw2 & Hlen).
  destruct (updateGame_unfold env w w' H Hp) as (w1 & Hi & Hw').
  destruct Inv as (IL & IK & IA & ID & IS & IM & IR & IAR).
  set (w0 := chargeKick (isCharging w) (kickPower w) w) in *.
  destruct (chargeKick_frame (isCharging w) (kickPower w) w)
    as (_ & P0 & A0 & _ & _ & _ & _). fold w0 in P0, A0.
  destruct (integrate_frame w0 w1 Hi) as (_ & _ & _ & K1 & AR1 & p & Hmp & P1).
  destruct (movePlayer_shape w0) as (p' & Hmp' & Rp & Sp & Mp & Ap & Dp).
  rewrite Hmp in Hmp'. injection Hmp' as Hpp. subst p'.
  destruct (resolve_frame (kickPower w) w1) as (_ & P2 & A2 & _ & K2).
  set (w3 := resolve (kickPower w) w1) in *.
  destruct (lifecycle_frame env (length (powerUps w)) w3)
    as (_ & A4 & _ & _ & K4 & M4).
  rewrite <- Hw' in A4, K4, M4.
  destruct M4 as (_ & _ & _ & _ & S4 & Ac4 & D4 & _).
  assert (Hms : 7.5 <= GameObject.maxSpeed (player w') /\
                20 <= GameObject.radius (player w')).
  { rewrite Hw'. unfold lifecycle.
    destruct (spawnPowerUp_frame env (length (powerUps w))
                (updatePowerUps (now env) (pickUp (now env) w3)))
      as (_ & -> & _).
    destruct (updatePowerUps_spec (now env) (pickUp (now env) w3))
      as (_ & _ & -> & ->).
    destruct (pickUp_spec (now env) w3) as (_ & _ & _ & _ & _ & _ & _ & Hs & Hr).
    split.
    - destruct (existsb _ _); [unfold_consts; lra |].
      apply Hs; [lra |]. rewrite P2, P1, Mp, P0. exact IM.
    - destruct (existsb _ _); [unfold_consts; lra |].
      apply Hr; [lra |]. rewrite P2, P1, Rp, P0. exact IR. }
  unfold invariant. split; [| split; [| repeat split]].
  - rewrite Hw2.
    destruct (spawnPowerUp_cases env (length (powerUps w)) w2)
      as [-> | (Hn & _ & pu & -> & _)].
    + lia.
    + rewrite length_app. cbn. lia.
  - rewrite K4, K2, K1. apply chargeKick_kickPower. exact IK.
  - rewrite Ac4, P2, P1, Ap, P0. exact IA.
  - rewrite D4, P2, P1, Dp, P0. exact ID.
  - rewrite S4, P2, P1, Sp, P0. exact IS.
  - apply Hms.
  - apply Hms.
  - rewrite A4, A2, AR1, A0. exact IAR.
Qed.

Lemma step_invariant (ev : Event) (w w' : World) :
  invariant w -> step ev w = Some w' -> invariant w'.
Proof.
  intros Inv H. destruct ev; cbn in H.
  - eapply updateGame_invariant; eassumption.
  - injection H as <-. destruct k; cbn; try exact Inv;
      destruct (Keys.space (keys w)); exact Inv.
  - injection H as <-. destruct k; cbn; try exact Inv;
      destruct (Keys.space (keys w)); exact Inv.
  - injection H as <-. exact Inv.
  - injection H as <-.
    destruct Inv as (IL & IK & IA & ID & IS & IM & IR & IAR).
    unfold invariant; cbn. repeat split; try assumption; try lia.
    left; reflexivity.
  - injection H as <-. unfold timerTick.
    destruct (negb (isPaused w)); [| exact Inv].
    destruct (timeLeft w <=? 1)%Z; exact Inv.
Qed.

Lemma reachable_invariant (w : World) : reachable w -> invariant w.
Proof.
  induction 1 as [| ev w w' _ IH _ Hs].
  - exact invariant_initial.
  - eapply step_invariant; eassumption.
Qed.

(** ** Spawning *)

Lemma pickUp_powerUps (t : Z) (w : World) :
  powerUps (pickUp t w) = fst (forEachPickUp t (powerUps w) w).
Proof.
  unfold pickUp. destruct (forEachPickUp t (powerUps w) w) as [l w1].
  reflexivity.
Qed.

(** [spawnPowerUp] appends the power-up built from the draws exactly when
    the first draw is below 0.005 and the closed-over list is shorter than
    two, and leaves the list alone otherwise. *)
Lemma spawnPowerUp_powerUps (env : Env) (n : nat) (w : World) :
  (random_spawn env < 0.005 /\ (n < 2)%nat ->
   powerUps (spawnPowerUp env n w) = powerUps w ++ [spawned env]) /\
  (~ (random_spawn env < 0.005 /\ (n < 2)%nat) ->
   powerUps (spawnPowerUp env n w) = powerUps w).
Proof.
  unfold spawnPowerUp.
  destruct (JS.lt (random_spawn env) 0.005) eqn:Hr; cbn [andb].
  - apply lt_true in Hr. destruct (n <? 2)%nat eqn:Hn.
    + split; [reflexivity |]. apply Nat.ltb_lt in Hn. intros Hno.
      exfalso. apply Hno. split; assumption.
    + apply Nat.ltb_ge in Hn. split; [intros (_ & Hlt); lia | reflexivity].
  - apply lt_false in Hr. split; [intros (Hlt & _); lra | reflexivity].
Qed.

Lemma spawned_shape (env : Env) :
  validEnv env ->
  20 <= PowerUp.x (spawned env) < CANVAS_WIDTH - 20 /\
  20 <= PowerUp.y (spawned env) < CANVAS_HEIGHT - 20 /\
  PowerUp.active (spawned env) = true /\
  PowerUp.duration (spawned env) = POWER_UP_DURATION /\
  PowerUp.startTime (spawned env) = None.
Proof.
  intros (_ & _ & Hx & Hy & _). unfold spawned. cbn. unfold_consts.
  repeat split; nra.
Qed.

(** ** The angle of a vector *)

Lemma sqrt_one_plus_slope (x y c : R) :
  0 < c -> c * c = x * x ->
  sqrt (1 + (y / x)²) = sqrt (x * x + y * y) / c.
Proof.
  intros Hc Hcx.
  assert (Hx : x <> 0) by nra.
  assert (Hd : 0 <= sqrt (x * x + y * y)) by apply sqrt_pos.
  apply sqrt_lem_1.
  - unfold Rsqr. nra.
  - apply Rmult_le_pos; [exact Hd | left; apply Rinv_0_lt_compat; exact Hc].
  - unfold Rsqr.
    transitivity (sqrt (x * x + y * y) * sqrt (x * x + y * y) / (c * c)).
    + field. lra.
    + rewrite sqrt_sqrt by nra. rewrite Hcx. field. exact Hx.
Qed.

(** [Math.atan2(y, x)] is the angle whose cosine and sine are the
    coordinates of the unit vector along [(x, y)]. *)
Lemma atan2_cos_sin (y x : R) :
  x <> 0 \/ y <> 0 ->
  cos (JS.atan2 y x) = x / sqrt (x * x + y * y) /\
  sin (JS.atan2 y x) = y / sqrt (x * x + y * y).
Proof.
  intros Hne.
  assert (Hd : 0 < sqrt (x * x + y * y)).
  { apply sqrt_lt_R0. destruct Hne; nra. }
  unfold JS.atan2.
  destruct (Rlt_dec 0 x) as [Hx | Hx].
  - rewrite cos_atan, sin_atan.
    rewrite (sqrt_one_plus_slope x y x) by (try lra; reflexivity).
    split; field; lra.
  - destruct (Rlt_dec x 0) as [Hx' | Hx'].
    + assert (Hs : sqrt (1 + (y / x)²) = sqrt (x * x + y * y) / - x).
      { apply sqrt_one_plus_slope; [lra | ring]. }
      destruct (Rle_dec 0 y).
      * rewrite neg_cos, neg_sin, cos_atan, sin_atan, Hs.
        split; field; lra.
      * rewrite cos_minus, sin_minus, cos_PI, sin_PI, cos_atan, sin_atan, Hs.
        split; field; lra.
    + assert (x = 0) by lra. subst x.
      assert (Hy : y <> 0) by (destruct Hne; lra).
      destruct (Rlt_dec 0 y) as [Hy' | Hy'].
      * rewrite cos_PI2, sin_PI2.
        replace (0 * 0 + y * y) with (y * y) in * by ring.
        rewrite sqrt_square by lra. split; field; lra.
      * destruct (Rlt_dec y 0) as [Hy2 | Hy2]; [| lra].
        rewrite cos_neg, sin_neg, cos_PI2, sin_PI2.
        replace (0 * 0 + y * y) with (- y * - y) in * by ring.
        rewrite sqrt_square by lra. split; field; lra.
Qed.

Lemma atan2_0_0 : JS.atan2 0 0 = 0.
Proof.
  unfold JS.atan2. destruct (Rlt_dec 0 0); [lra | reflexivity].
Qed.

Lemma cos2_sin2_scaled (a k : R) :
  cos a * k * (cos a * k) + sin a * k * (sin a * k) = k * k.
Proof.
  pose proof (sin2_cos2 a) as H. unfold Rsqr in H. nra.
Qed.

(** A vector of length [k] along an angle. *)
Lemma magnitude_polar (a k : R) :
  0 <= k -> magnitude (cos a * k) (sin a * k) = k.
Proof.
  intros Hk. unfold magnitude. rewrite cos2_sin2_scaled.
  apply sqrt_square; exact Hk.
Qed.

(** ** The three bodies move independently *)

Lemma moveBall_spec (w : World) : ball (moveBall w) = slide (ball w).
Proof. reflexivity. Qed.

Lemma bounceHorizontal_spec (w : World) :
  ball (bounceHorizontal w) = reflectX (ball w).
Proof.
  unfold bounceHorizontal, reflectX.
  destruct (JS.lt _ _ || JS.gt _ _); reflexivity.
Qed.

Lemma bounceVertical_spec (w : World) :
  ball (bounceVertical w) = reflectY (ball w).
Proof.
  unfold bounceVertical, reflectY.
  destruct (JS.lt _ _ || JS.gt _ _); reflexivity.
Qed.

Lemma steerAI_reads (w v : World) :
  ai w = ai v -> ball w = ball v ->
  steerAI v = Some (set_ai (steered (ai w) (ball w)) v).
Proof.
  intros Ha Hb. rewrite Ha, Hb. apply steerAI_spec.
Qed.

(** The result of the motion phase, body by body. *)
Lemma integrate_spec (w w1 : World) :
  integrate w = Some w1 ->
  player w1 = nextPlayer (keys w) (player w) /\
  ai w1 = advanced (steered (ai w) (ball w)) /\
  ball w1 = nextBall (ball w).
Proof.
  unfold integrate. rewrite movePlayer_spec. cbn [bind].
  rewrite (steerAI_reads w) by reflexivity. cbn [bind].
  intros [= <-].
  set (w2 := set_ai _ _).
  destruct (bounceVertical_frame (bounceHorizontal (moveBall (moveAI w2))))
    as (_ & P4 & A4 & _).
  destruct (bounceHorizontal_frame (moveBall (moveAI w2))) as (_ & P3 & A3 & _).
  rewrite P4, P3, A4, A3.
  rewrite bounceVertical_spec, bounceHorizontal_spec, moveBall_spec.
  repeat split.
Qed.

Lemma afterMotion_spec (w w1 : World) :
  afterMotion w = Some w1 ->
  player w1 = nextPlayer (keys w) (player w) /\
  ai w1 = advanced (steered (ai w) (ball w)) /\
  ball w1 = nextBall (ball w) /\
  keys w1 = keys w /\ score w1 = score w /\ powerUps w1 = powerUps w.
Proof.
  unfold afterMotion. intros H.
  destruct (integrate_spec _ _ H) as (P & A & B).
  destruct (integrate_frame _ _ H) as (C & S & U & _).
  destruct (chargeKick_frame (isCharging w) (kickPower w) w)
    as (C0 & P0 & A0 & B0 & S0 & U0 & _).
  destruct C as (K & _). destruct C0 as (K0 & _).
  rewrite P, A, B, K, S, U, K0, P0, A0, B0, S0, U0. repeat split.
Qed.

Lemma reflect_cases (b : Ball.t) :
  (Ball.vx (reflectX b) = Ball.vx b \/ Ball.vx (reflectX b) = Ball.vx b * -0.8) /\
  Ball.vy (reflectX b) = Ball.vy b /\ Ball.radius (reflectX b) = Ball.radius b /\
  (Ball.vy (reflectY b) = Ball.vy b \/ Ball.vy (reflectY b) = Ball.vy b * -0.8) /\
  Ball.vx (reflectY b) = Ball.vx b /\ Ball.radius (reflectY b) = Ball.radius b /\
  Ball.x (reflectY b) = Ball.x b.
Proof.
  unfold reflectX, reflectY.
  destruct (JS.lt (Ball.x b) _ || JS.gt (Ball.x b) _),
           (JS.lt (Ball.y b) _ || JS.gt (Ball.y b) _);
    cbn [Ball.x Ball.vx Ball.vy Ball.radius]; auto 10.
Qed.

(** Friction and reflection can only shrink each velocity component. *)
Lemma nextBall_slows (b : Ball.t) :
  Ball.radius (nextBall b) = Ball.radius b /\
  Ball.vx (nextBall b) * Ball.vx (nextBall b) <= 0.9604 * (Ball.vx b * Ball.vx b) /\
  Ball.vy (nextBall b) * Ball.vy (nextBall b) <= 0.9604 * (Ball.vy b * Ball.vy b).
Proof.
  unfold nextBall.
  destruct (reflect_cases (slide b)) as (Hx & Hy & Hr & _).
  destruct (reflect_cases (reflectX (slide b))) as (_ & _ & _ & Hy' & Hx' & Hr' & _).
  rewrite Hr', Hr, Hx', Hy in *.
  assert (Hsx : Ball.vx (slide b) = Ball.vx b * 0.98) by reflexivity.
  assert (Hsy : Ball.vy (slide b) = Ball.vy b * 0.98) by reflexivity.
  split; [reflexivity |].
  split.
  - destruct Hx as [-> | ->]; rewrite Hsx; nra.
  - destruct Hy' as [-> | ->]; rewrite Hsy; nra.
Qed.

(** After reflection the ball is inside the side walls. *)
Lemma nextBall_inside (b : Ball.t) :
  Ball.radius b <= CANVAS_WIDTH / 2 ->
  Ball.radius b <= Ball.x (nextBall b) <= CANVAS_WIDTH - Ball.radius b.
Proof.
  intros Hr. unfold nextBall.
  destruct (reflect_cases (reflectX (slide b))) as (_ & _ & _ & _ & _ & _ & ->).
  unfold reflectX, JS.gt, JS.lt.
  change (Ball.radius (slide b)) with (Ball.radius b).
  unfold CANVAS_WIDTH in *.
  destruct (Rlt_dec (Ball.x (slide b)) (Ball.radius b));
    cbn [orb Ball.x]; [lra |].
  destruct (Rlt_dec (800 - Ball.radius b) (Ball.x (slide b)));
    cbn [orb Ball.x]; lra.
Qed.

(** ** Evaluation on concrete worlds *)

Ltac fields :=
  cbv beta iota zeta delta
    [player ai ball keys score timeLeft gameOver powerUps kickPower
     isCharging isPaused played
     GameObject.x GameObject.y GameObject.vx GameObject.vy GameObject.radius
     GameObject.speed GameObject.maxSpeed GameObject.acceleration
     GameObject.deceleration GameObject.direction
     Ball.x Ball.y Ball.vx Ball.vy Ball.radius Ball.spin Ball.rotation
     PowerUp.x PowerUp.y PowerUp.type PowerUp.active PowerUp.duration
     PowerUp.startTime
     Keys.up Keys.down Keys.left Keys.right Keys.space Keys.shift
     Score.player Score.ai
     now random_spawn random_x random_y random_type
     Bool.eqb negb andb orb fst snd].

Ltac unfold_setters :=
  unfold GameObject.set_x, GameObject.set_y, GameObject.set_vx,
    GameObject.set_vy, GameObject.set_radius, GameObject.set_maxSpeed,
    GameObject.set_direction, Ball.set_x, Ball.set_y, Ball.set_vx,
    Ball.set_vy, Ball.set_spin, Ball.set_rotation, PowerUp.set_startTime in *.

(** Settles the comparisons of the goal that linear arithmetic decides. *)
Ltac decide_lt :=
  repeat match goal with
         | |- context [JS.lt ?a ?b] =>
             first [ replace (JS.lt a b) with true
                       by (symmetry; apply lt_true; lra)
                   | replace (JS.lt a b) with false
                       by (symmetry; apply lt_false; lra) ]
         | |- context [Rlt_dec ?a ?b] =>
             destruct (Rlt_dec a b); [try (exfalso; lra) | try (exfalso; lra)]
         end.

Ltac rmaxmin := unfold Rmax, Rmin; repeat destruct (Rle_dec _ _); try lra.

(** Two bodies whose centres are further apart along x than the sum of
    the radii do not overlap. *)
Lemma far_apart (o : GameObject.t) (b : Ball.t) :
  GameObject.radius o + Ball.radius b <= GameObject.x o - Ball.x b \/
  GameObject.radius o + Ball.radius b <= Ball.x b - GameObject.x o ->
  checkCollision o b = false.
Proof.
  intros H. unfold checkCollision. apply lt_false.
  set (dx := GameObject.x o - Ball.x b).
  set (dy := GameObject.y o - Ball.y b).
  set (s := GameObject.radius o + Ball.radius b) in *.
  destruct (Rle_dec 0 s) as [Hs | Hs].
  - apply le_sqrt; [exact Hs |]. subst dx. destruct H; nra.
  - pose proof (sqrt_pos (dx * dx + dy * dy)). lra.
Qed.

(** Two bodies on one horizontal line closer than the sum of the radii
    overlap. *)
Lemma close_on_a_line (o : GameObject.t) (b : Ball.t) :
  GameObject.y o = Ball.y b ->
  Rabs (GameObject.x o - Ball.x b) < GameObject.radius o + Ball.radius b ->
  checkCollision o b = true.
Proof.
  intros Hy Hx. unfold checkCollision. apply lt_true. rewrite Hy.
  replace ((GameObject.x o - Ball.x b) * (GameObject.x o - Ball.x b)
           + (Ball.y b - Ball.y b) * (Ball.y b - Ball.y b))
    with (Rsqr (GameObject.x o - Ball.x b)) by (unfold Rsqr; ring).
  rewrite sqrt_Rsqr_abs. exact Hx.
Qed.

Lemma resolve_no_contact (k : R) (w : World) :
  checkCollision (player w) (ball w) = false ->
  checkCollision (ai w) (ball w) = false ->
  resolve k w = goalCheck w.
Proof.
  intros Hp Ha. unfold resolve, playerBall. rewrite Hp.
  unfold aiBall. rewrite Ha. reflexivity.
Qed.

Lemma goalCheck_velocity (w : World) :
  (Ball.vx (ball (goalCheck w)) = Ball.vx (ball w) /\
   Ball.vy (ball (goalCheck w)) = Ball.vy (ball w)) \/
  (Ball.vx (ball (goalCheck w)) = 0 /\ Ball.vy (ball (goalCheck w)) = 0).
Proof.
  unfold goalCheck. destruct (JS.lt _ 0); [right; split; reflexivity |].
  destruct (JS.gt _ _); [right | left]; split; reflexivity.
Qed.

Lemma goalCheck_inside (w : World) :
  0 <= Ball.x (ball w) <= CANVAS_WIDTH -> goalCheck w = w.
Proof.
  intros H. unfold goalCheck, JS.gt. decide_lt; reflexivity.
Qed.

(** ** Friction *)

Lemma FRICTION_FLOOR_bounds : 0 < FRICTION_FLOOR < 1.
Proof.
  unfold FRICTION_FLOOR.
  assert (H : 2 ^ 5 <= 2 ^ 1074) by (apply Rle_pow; [lra | lia]).
  assert (H5 : 2 ^ 5 = 32) by (cbn [pow]; lra).
  rewrite H5 in H. set (p := 2 ^ 1074) in *.
  split.
  - apply Rdiv_lt_0_compat; lra.
  - apply Rmult_lt_reg_r with p; [lra |]. unfold Rdiv.
    rewrite Rmult_assoc, Rinv_l by lra. lra.
Qed.

Lemma above_floor (v : R) : FRICTION_FLOOR <= Rabs v -> v <> 0.
Proof.
  intros H E. subst v. rewrite Rabs_R0 in H.
  pose proof FRICTION_FLOOR_bounds. lra.
Qed.

(** C3 (as the code has it): in a frame of a running match in which
    neither the player nor the AI overlaps the ball after the motion
    phase, the speed of the ball after the frame is strictly below its
    speed before, provided one component of its velocity has a magnitude
    of at least 25 * 2^-1074.  Friction multiplies each component by 0.98
    and a reflection by a further -0.8; on smaller components the binary64
    products return their operand, so the bound cannot be dropped. *)
Theorem ball_slows_without_contact (env : Env) (w w1 w' : World) :
  isPaused w = false ->
  FRICTION_FLOOR <= Rabs (Ball.vx (ball w)) \/
  FRICTION_FLOOR <= Rabs (Ball.vy (ball w)) ->
  afterMotion w = Some w1 ->
  checkCollision (player w1) (ball w1) = false ->
  checkCollision (ai w1) (ball w1) = false ->
  updateGame env w = Some w' ->
  magnitude (Ball.vx (ball w')) (Ball.vy (ball w'))
  < magnitude (Ball.vx (ball w)) (Ball.vy (ball w)).
Proof.
  intros Hp Hf Hm Hcp Hca H.
  assert (Hv : Ball.vx (ball w) <> 0 \/ Ball.vy (ball w) <> 0)
    by (destruct Hf; [left | right]; apply above_floor; assumption).
  destruct (updateGame_unfold env w w' H Hp) as (w1' & Hi & ->).
  unfold afterMotion in Hm. rewrite Hm in Hi. injection Hi as <-.
  destruct (lifecycle_frame env (length (powerUps w)) (resolve (kickPower w) w1))
    as (_ & _ & -> & _).
  rewrite resolve_no_contact by assumption.
  destruct (afterMotion_spec w w1 Hm) as (_ & _ & Hb & _).
  destruct (nextBall_slows (ball w)) as (_ & Hx & Hy).
  rewrite <- Hb in Hx, Hy.
  unfold magnitude. apply sqrt_lt_1_alt.
  destruct (goalCheck_velocity w1) as [(-> & ->) | (-> & ->)];
    split; destruct Hv; nra.
Qed.

(** The claim C3 fails as stated, for every state with a non-zero
    velocity: in binary64 the product of the least positive number
    2^-1074 and 0.98 rounds back to 2^-1074, so the ball creeping at that
    velocity is returned by the update of lines 416-420 as it was; every
    velocity up to 24 * 2^-1074 is kept in the same way, 25 * 2^-1074 is
    the least that shrinks, and the factor -0.8 of a reflection keeps the
    magnitude 2^-1074 as well. *)
Lemma friction_keeps_subnormal_velocity :
  Binary64.moveBall Binary64.creeping = Binary64.creeping /\
  PrimFloat.mul (Binary64.ulps 24) Binary64.BASE_FRICTION = Binary64.ulps 24 /\
  PrimFloat.mul (Binary64.ulps 25) Binary64.BASE_FRICTION = Binary64.ulps 24 /\
  Binary64.reflect (Binary64.reflect (Binary64.ulps 1)) = Binary64.ulps 1.
Proof. vm_compute. repeat split. Qed.

(** *** A ball driven across the left goal line *)

Lemma idle_player :
  nextPlayer initialKeys initialPlayer = GameObject.mk 200 300 0 0 20 5 7.5 0.5 0.8 1.
Proof.
  unfold nextPlayer, target, initialKeys, initialPlayer. fields. unfold_consts.
  f_equal; rmaxmin; lra.
Qed.

Lemma ai_chases_left (b : Ball.t) :
  Ball.y b = 300 -> Ball.x b < 600 ->
  advanced (steered initialAi b) =
  GameObject.mk 598.4 300 (-1.6) 0 20 4 4 0.4 0.8 (-1).
Proof.
  destruct b as [bx bY bvx bvy br bs brot]. cbn [Ball.x Ball.y].
  intros -> Hx. unfold steered, initialAi. fields. unfold_consts.
  assert (Hd : sqrt ((bx - 800 / 4 * 3) * (bx - 800 / 4 * 3)
                     + (300 - 600 / 2) * (300 - 600 / 2)) = 600 - bx)
    by (apply sqrt_lem_1; nra).
  rewrite Hd.
  replace ((bx - 800 / 4 * 3) / (600 - bx)) with (-1) by (field; lra).
  replace ((300 - 600 / 2) / (600 - bx)) with 0 by (field; lra).
  destruct (Rlt_dec 0 (600 - bx)); [| lra].
  unfold advanced. fields. unfold_consts.
  destruct (Rlt_dec 0 _); [lra |].
  f_equal; rmaxmin; lra.
Qed.

Lemma ballDrivenLeft_ball :
  nextBall (ball ballDrivenLeft) = Ball.mk 12 300 12.544 0 12 0 0.
Proof.
  unfold nextBall, ballDrivenLeft, slide. fields.
  unfold reflectX, JS.gt. fields. unfold_consts. decide_lt. fields.
  unfold reflectY, JS.gt. fields. unfold_consts. decide_lt. fields.
  f_equal; lra.
Qed.

(** C1 (the code departs from the claim): a ball driven to x = -1 by the
    position update is put back on the left wall at x = 12 with its
    horizontal velocity reflected; the goal test that follows reads x = 12,
    so no counter changes and the ball is not moved to the centre. *)
Theorem ball_driven_past_goal_line_bounces :
  exists w',
    updateGame quietEnv ballDrivenLeft = Some w' /\
    Ball.x (ball ballDrivenLeft) + Ball.vx (ball ballDrivenLeft) = -1 /\
    ball w' = Ball.mk 12 300 12.544 0 12 0 0 /\
    score w' = score ballDrivenLeft.
Proof.
  destruct (updateGame_total quietEnv ballDrivenLeft) as (w' & H).
  exists w'. split; [exact H |]. split; [cbn; lra |].
  destruct (updateGame_unfold _ _ _ H eq_refl) as (w1 & Hm & ->).
  destruct (afterMotion_spec _ _ Hm) as (P & A & B & _ & S & _).
  change (nextPlayer _ _) with (nextPlayer initialKeys initialPlayer) in P.
  rewrite idle_player in P.
  change (ai ballDrivenLeft) with initialAi in A.
  rewrite ai_chases_left in A by (cbn; lra).
  rewrite ballDrivenLeft_ball in B.
  destruct (lifecycle_frame quietEnv (length (powerUps ballDrivenLeft))
              (resolve (kickPower ballDrivenLeft) w1))
    as (_ & _ & -> & -> & _).
  rewrite resolve_no_contact.
  - rewrite goalCheck_inside; [split; [exact B | exact S] |].
    rewrite B. unfold CANVAS_WIDTH. cbn [Ball.x]. lra.
  - apply far_apart. rewrite P, B. fields. lra.
  - apply far_apart. rewrite A, B. fields. lra.
Qed.

Lemma ball_slows_without_contact_witness :
  exists w',
    updateGame quietEnv ballDrivenLeft = Some w' /\
    magnitude (Ball.vx (ball w')) (Ball.vy (ball w'))
    < magnitude (Ball.vx (ball ballDrivenLeft)) (Ball.vy (ball ballDrivenLeft)).
Proof.
  destruct (updateGame_total quietEnv ballDrivenLeft) as (w' & H).
  destruct (integrate_total
              (chargeKick (isCharging ballDrivenLeft)
                          (kickPower ballDrivenLeft) ballDrivenLeft))
    as (w1 & Hm).
  exists w'. split; [exact H |].
  destruct (afterMotion_spec _ _ Hm) as (P & A & B & _).
  change (nextPlayer _ _) with (nextPlayer initialKeys initialPlayer) in P.
  rewrite idle_player in P.
  change (ai ballDrivenLeft) with initialAi in A.
  rewrite ai_chases_left in A by (cbn; lra).
  rewrite ballDrivenLeft_ball in B.
  apply (ball_slows_without_contact quietEnv ballDrivenLeft w1 w').
  - reflexivity.
  - left. cbn [ballDrivenLeft ball Ball.vx].
    pose proof FRICTION_FLOOR_bounds. rewrite Rabs_left by lra. lra.
  - exact Hm.
  - apply far_apart. rewrite P, B. fields. lra.
  - apply far_apart. rewrite A, B. fields. lra.
  - exact H.
Defined.

(** ** Goals are scored by a push only *)

Lemma resolve_ball_radius (k : R) (w : World) :
  Ball.radius (ball (resolve k w)) = Ball.radius (ball w).
Proof.
  unfold resolve, goalCheck, aiBall, playerBall.
  destruct (checkCollision (player w) (ball w));
    [destruct (Keys.space (keys w)) |];
    cbn [ai ball set_ball play];
    destruct (checkCollision _ _); cbn [ai ball set_ball play];
    destruct (JS.lt _ 0); try reflexivity; destruct (JS.gt _ _); reflexivity.
Qed.

Lemma reachable_ball_radius (w : World) :
  reachable w -> Ball.radius (ball w) = BALL_RADIUS.
Proof.
  induction 1 as [| ev w w' _ IH _ Hs]; [reflexivity |].
  destruct ev; cbn in Hs.
  - destruct (isPaused w) eqn:Hp.
    { unfold updateGame in Hs. rewrite Hp in Hs. congruence. }
    destruct (updateGame_unfold env w w' Hs Hp) as (w1 & Hm & ->).
    destruct (lifecycle_frame env (length (powerUps w)) (resolve (kickPower w) w1))
      as (_ & _ & -> & _).
    rewrite resolve_ball_radius.
    destruct (afterMotion_spec w w1 Hm) as (_ & _ & -> & _).
    destruct (nextBall_slows (ball w)) as (-> & _). exact IH.
  - injection Hs as <-. destruct k; cbn; try exact IH;
      destruct (Keys.space (keys w)); exact IH.
  - injection Hs as <-. destruct k; cbn; try exact IH;
      destruct (Keys.space (keys w)); exact IH.
  - injection Hs as <-. exact IH.
  - injection Hs as <-. exact IH.
  - injection Hs as <-. unfold timerTick.
    destruct (negb (isPaused w)); [| exact IH].
    destruct (timeLeft w <=? 1)%Z; exact IH.
Qed.

(** In a run, a frame in which neither body overlaps the ball after the
    motion phase changes no counter, wherever the ball was driven: the
    reflection has put it back between the side walls before the goal test
    reads its position. *)
Lemma no_goal_without_contact (env : Env) (w w1 w' : World) :
  reachable w -> isPaused w = false ->
  afterMotion w = Some w1 ->
  checkCollision (player w1) (ball w1) = false ->
  checkCollision (ai w1) (ball w1) = false ->
  updateGame env w = Some w' ->
  score w' = score w /\ ball w' = nextBall (ball w) /\
  BALL_RADIUS <= Ball.x (ball w') <= CANVAS_WIDTH - BALL_RADIUS.
Proof.
  intros Hr Hp Hm Hcp Hca H.
  pose proof (reachable_ball_radius w Hr) as Rad.
  destruct (updateGame_unfold env w w' H Hp) as (w1' & Hi & ->).
  unfold afterMotion in Hm. rewrite Hm in Hi. injection Hi as <-.
  destruct (lifecycle_frame env (length (powerUps w)) (resolve (kickPower w) w1))
    as (_ & _ & -> & -> & _).
  rewrite resolve_no_contact by assumption.
  destruct (afterMotion_spec w w1 Hm) as (_ & _ & B & _ & S & _).
  pose proof (nextBall_inside (ball w)) as Hin.
  rewrite Rad in Hin. unfold_consts.
  assert (Hx : 12 <= Ball.x (ball w1) <= 800 - 12) by (rewrite B; apply Hin; lra).
  rewrite goalCheck_inside by (unfold CANVAS_WIDTH; lra).
  split; [exact S |]. split; [exact B | exact Hx].
Qed.

Lemma playerBall_dribble (k : R) (w : World) :
  checkCollision (player w) (ball w) = true ->
  Keys.space (keys w) = false ->
  let p := player w in
  let b := ball w in
  let angle := JS.atan2 (Ball.y b - GameObject.y p) (Ball.x b - GameObject.x p) in
  let overlap := GameObject.radius p + Ball.radius b
                 - sqrt ((Ball.x b - GameObject.x p) ^ 2
                         + (Ball.y b - GameObject.y p) ^ 2) in
  ball (playerBall k w) =
    Ball.mk (Ball.x b + cos angle * overlap) (Ball.y b + sin angle * overlap)
            ((Ball.vx b + GameObject.vx p) * 0.5)
            ((Ball.vy b + GameObject.vy p) * 0.5)
            (Ball.radius b) (Ball.spin b) (Ball.rotation b).
Proof.
  intros Hc Hs. unfold playerBall. rewrite Hc, Hs. reflexivity.
Qed.

(** Reflection and goal in one frame: the ball is reflected off the left
    wall (put at x = 12, velocity reversed), the overlapping player then
    pushes it out of the overlap to x = -12, and the goal test counts a goal
    for the AI and moves the ball to the centre. *)
Lemma squeezed_ball_bounces_and_scores :
  exists w1 w',
    afterMotion ballSqueezed = Some w1 /\
    Ball.x (ball ballSqueezed) + Ball.vx (ball ballSqueezed)
      < Ball.radius (ball ballSqueezed) /\
    ball w1 = Ball.mk 12 300 (-2 * 0.98 * -0.8) 0 12 0 0 /\
    Ball.x (ball (playerBall 0 w1)) = -12 /\
    updateGame quietEnv ballSqueezed = Some w' /\
    score w' = Score.mk 0 1 /\
    ball w' = Ball.mk 400 300 0 0 12 0 0.
Proof.
  destruct (updateGame_total quietEnv ballSqueezed) as (w' & H).
  destruct (updateGame_unfold _ _ _ H eq_refl) as (w1 & Hm & Hw').
  destruct (afterMotion_spec _ _ Hm) as (P & A & B & K & S & _).
  assert (P1 : player w1 = standing 20 20 7.5).
  { rewrite P. unfold nextPlayer, target, ballSqueezed, initialKeys, standing.
    fields. unfold_consts. f_equal; rmaxmin; lra. }
  change (ai ballSqueezed) with initialAi in A.
  rewrite ai_chases_left in A by (cbn; lra).
  assert (B1 : ball w1 = Ball.mk 12 300 (-2 * 0.98 * -0.8) 0 12 0 0).
  { rewrite B. unfold nextBall, ballSqueezed, slide. fields.
    unfold reflectX, JS.gt. fields. unfold_consts. decide_lt. fields.
    unfold reflectY, JS.gt. fields. unfold_consts. decide_lt. fields.
    f_equal; lra. }
  assert (Hc : checkCollision (player w1) (ball w1) = true).
  { apply close_on_a_line; rewrite P1, B1; unfold standing; fields; [lra |].
    unfold Rabs. destruct (Rcase_abs _); lra. }
  assert (Hs : Keys.space (keys w1) = false) by (rewrite K; reflexivity).
  assert (Hd : sqrt ((12 - 20) * (12 - 20) + (300 - 300) * (300 - 300)) = 8)
    by (apply sqrt_lem_1; lra).
  assert (B2 : ball (playerBall 0 w1) =
               Ball.mk (-12) 300 ((-2 * 0.98 * -0.8 + 0) * 0.5) ((0 + 0) * 0.5)
                       12 0 0).
  { rewrite (playerBall_dribble _ _ Hc Hs). rewrite P1, B1.
    unfold standing. fields.
    destruct (atan2_cos_sin (300 - 300) (12 - 20)) as (-> & ->); [left; lra |].
    replace ((12 - 20) ^ 2 + (300 - 300) ^ 2)
      with ((12 - 20) * (12 - 20) + (300 - 300) * (300 - 300)) by ring.
    rewrite Hd. f_equal; field. }
  exists w1, w'. split; [exact Hm |]. split; [cbn; unfold BALL_RADIUS; lra |].
  split; [exact B1 |]. split; [rewrite B2; reflexivity |]. split; [exact H |].
  rewrite Hw'.
  destruct (lifecycle_frame quietEnv (length (powerUps ballSqueezed))
              (resolve (kickPower ballSqueezed) w1))
    as (_ & _ & -> & -> & _).
  unfold resolve. change (kickPower ballSqueezed) with 0.
  set (w2 := playerBall 0 w1) in *.
  destruct (playerBall_frame 0 w1) as (_ & _ & A2 & S2 & _). fold w2 in A2, S2.
  assert (Ha : checkCollision (ai w2) (ball w2) = false).
  { apply far_apart. rewrite A2, A, B2. fields. lra. }
  unfold aiBall. rewrite Ha.
  unfold goalCheck. rewrite B2. cbn [Ball.x].
  replace (JS.lt (-12) 0) with true by (symmetry; apply lt_true; lra).
  cbn [score ball setScore play set_ball Score.player Score.ai].
  rewrite S2, S. split; [reflexivity |].
  unfold Ball.set_x, Ball.set_y, Ball.set_vx, Ball.set_vy. fields.
  unfold_consts. f_equal; lra.
Qed.

(** ** Kicking *)

Lemma or_else_cases (k d : R) :
  (k = 0 -> JS.or_else k d = d) /\ (k <> 0 -> JS.or_else k d = k).
Proof.
  unfold JS.or_else.
  destruct (Req_dec_T k 0); split; intros; try reflexivity; easy.
Qed.

Lemma playerBall_kick (k : R) (w : World) :
  checkCollision (player w) (ball w) = true ->
  Keys.space (keys w) = true ->
  let angle := JS.atan2 (Ball.y (ball w) - GameObject.y (player w))
                        (Ball.x (ball w) - GameObject.x (player w)) in
  ball (playerBall k w) =
    Ball.mk (Ball.x (ball w)) (Ball.y (ball w))
            (cos angle * JS.or_else k 10) (sin angle * JS.or_else k 10)
            (Ball.radius (ball w))
            (GameObject.vx (player w) * cos (angle + PI / 2) * 0.1)
            (Ball.rotation (ball w)).
Proof.
  intros Hc Hs. unfold playerBall. rewrite Hc, Hs. reflexivity.
Qed.

(** C2 (as the code has it): when the player overlaps the ball and the
    kick button is held, the ball keeps its position and its velocity is
    replaced by the vector of magnitude [power] along the direction from
    the player to the ball, where [power] is the closed-over [kickPower]
    if that is not zero and 10 if it is; in a run [power] lies between 0.5
    (one frame of charge) and 20, so it is below 10 for a charge of less
    than 10. *)
Theorem kick_sets_velocity (w0 w : World) :
  reachable w0 ->
  checkCollision (player w) (ball w) = true ->
  Keys.space (keys w) = true ->
  let power := JS.or_else (kickPower w0) 10 in
  let dx := Ball.x (ball w) - GameObject.x (player w) in
  let dy := Ball.y (ball w) - GameObject.y (player w) in
  let b' := ball (playerBall (kickPower w0) w) in
  (kickPower w0 = 0 -> power = 10) /\
  (kickPower w0 <> 0 -> power = kickPower w0) /\
  0.5 <= power <= 20 /\
  magnitude (Ball.vx b') (Ball.vy b') = power /\
  (dx <> 0 \/ dy <> 0 ->
     Ball.vx b' = dx / sqrt (dx * dx + dy * dy) * power /\
     Ball.vy b' = dy / sqrt (dx * dx + dy * dy) * power) /\
  Ball.x b' = Ball.x (ball w) /\ Ball.y b' = Ball.y (ball w).
Proof.
  intros Hr Hc Hs power dx dy b'.
  destruct (reachable_invariant w0 Hr) as (_ & Hk & _).
  destruct (or_else_cases (kickPower w0) 10) as (H0 & H1).
  fold power in H0, H1.
  assert (Hp : 0.5 <= power <= 20).
  { destruct (Req_dec_T (kickPower w0) 0) as [E | E].
    - rewrite (H0 E). lra.
    - rewrite (H1 E). destruct Hk; [contradiction | assumption]. }
  subst b'. rewrite (playerBall_kick _ _ Hc Hs).
  fold dx dy power. cbn [Ball.vx Ball.vy Ball.x Ball.y].
  split; [exact H0 |]. split; [exact H1 |]. split; [exact Hp |].
  split; [apply magnitude_polar; lra |].
  split; [| split; reflexivity].
  intros Hne. destruct (atan2_cos_sin dy dx Hne) as (-> & ->).
  split; reflexivity.
Qed.

Lemma atTheBall_contact (charge : R) :
  checkCollision (player (atTheBall charge)) (ball (atTheBall charge)) = true.
Proof.
  apply close_on_a_line.
  - unfold atTheBall, initialPlayer. fields. unfold_consts. lra.
  - unfold atTheBall, initialPlayer. fields. unfold_consts.
    unfold Rabs. destruct (Rcase_abs _); lra.
Qed.

Lemma kick_sets_velocity_witness :
  magnitude (Ball.vx (ball (playerBall (kickPower initialWorld) (atTheBall 0))))
            (Ball.vy (ball (playerBall (kickPower initialWorld) (atTheBall 0))))
  = 10.
Proof.
  pose proof (kick_sets_velocity initialWorld (atTheBall 0) reachable_initial
                (atTheBall_contact 0) eq_refl) as (H0 & _ & _ & Hm & _).
  rewrite Hm. apply H0. reflexivity.
Defined.

Lemma atTheBall_ball (charge : R) :
  nextBall (ball (atTheBall charge)) = Ball.mk 220 300 0 0 12 0 0.
Proof.
  unfold nextBall, atTheBall, slide. fields.
  unfold reflectX, JS.gt. fields. unfold_consts. decide_lt. fields.
  unfold reflectY, JS.gt. fields. unfold_consts. decide_lt. fields.
  f_equal; lra.
Qed.

(** The claim C2 fails as stated: after one frame of charge the closed-over
    [kickPower] is 0.5, and a kick in contact gives the ball a velocity of
    magnitude 0.5, below the fall-back of 10. *)
Lemma kick_below_fallback_power :
  exists w1 w',
    afterMotion (atTheBall 0.5) = Some w1 /\
    checkCollision (player w1) (ball w1) = true /\
    Keys.space (keys w1) = true /\
    updateGame quietEnv (atTheBall 0.5) = Some w' /\
    magnitude (Ball.vx (ball w')) (Ball.vy (ball w')) = 0.5 /\
    ~ 10 <= magnitude (Ball.vx (ball w')) (Ball.vy (ball w')).
Proof.
  destruct (updateGame_total quietEnv (atTheBall 0.5)) as (w' & H).
  destruct (updateGame_unfold _ _ _ H eq_refl) as (w1 & Hm & Hw').
  destruct (afterMotion_spec _ _ Hm) as (P & A & B & K & _).
  change (nextPlayer _ _) with (nextPlayer initialKeys initialPlayer) in P.
  rewrite idle_player in P.
  change (ai (atTheBall 0.5)) with initialAi in A.
  rewrite ai_chases_left in A by (cbn; lra).
  rewrite atTheBall_ball in B.
  assert (Hc : checkCollision (player w1) (ball w1) = true).
  { apply close_on_a_line; rewrite P, B; fields; [lra |].
    unfold Rabs. destruct (Rcase_abs _); lra. }
  assert (Hs : Keys.space (keys w1) = true) by (rewrite K; reflexivity).
  assert (Hmag : magnitude (Ball.vx (ball w')) (Ball.vy (ball w')) = 0.5).
  { rewrite Hw'.
    destruct (lifecycle_frame quietEnv (length (powerUps (atTheBall 0.5)))
                (resolve (kickPower (atTheBall 0.5)) w1))
      as (_ & _ & -> & _).
    unfold resolve.
    set (w2 := playerBall (kickPower (atTheBall 0.5)) w1).
    assert (B2 : ball w2 =
                 Ball.mk 220 300
                   (cos (JS.atan2 (300 - 300) (220 - 200)) * 0.5)
                   (sin (JS.atan2 (300 - 300) (220 - 200)) * 0.5)
                   12 (0 * cos (JS.atan2 (300 - 300) (220 - 200) + PI / 2) * 0.1)
                   0).
    { subst w2. rewrite (playerBall_kick _ _ Hc Hs). rewrite P, B.
      change (kickPower (atTheBall 0.5)) with 0.5.
      destruct (or_else_cases 0.5 10) as (_ & ->); [| lra]. reflexivity. }
    destruct (playerBall_frame (kickPower (atTheBall 0.5)) w1)
      as (_ & _ & A2 & _). fold w2 in A2.
    assert (Ha : checkCollision (ai w2) (ball w2) = false).
    { apply far_apart. rewrite A2, A, B2. fields. lra. }
    unfold aiBall. rewrite Ha.
    rewrite goalCheck_inside
      by (rewrite B2; unfold CANVAS_WIDTH; cbn [Ball.x]; lra).
    rewrite B2. cbn [Ball.vx Ball.vy]. apply magnitude_polar. lra. }
  exists w1, w'. repeat split; try assumption.
  rewrite Hmag. lra.
Qed.

(** ** The player and the power-ups, followed through a frame *)

Lemma forEachPickUp_reads (t : Z) (l : list PowerUp.t) (w v : World) :
  player w = player v ->
  fst (forEachPickUp t l w) = fst (forEachPickUp t l v) /\
  player (snd (forEachPickUp t l w)) = player (snd (forEachPickUp t l v)).
Proof.
  revert w v. induction l as [| pu l IH]; intros w v Hp.
  - split; [reflexivity | exact Hp].
  - cbn [forEachPickUp]. rewrite Hp.
    destruct (PowerUp.active pu && negb (JS.truthy (PowerUp.startTime pu))).
    + destruct (JS.lt _ _).
      * assert (H1 : player (snd (applyPowerUp t pu w))
                     = player (snd (applyPowerUp t pu v)))
          by (cbn; rewrite Hp; reflexivity).
        change (applyPowerUp t pu w)
          with (PowerUp.set_startTime (Some t) pu, snd (applyPowerUp t pu w)).
        change (applyPowerUp t pu v)
          with (PowerUp.set_startTime (Some t) pu, snd (applyPowerUp t pu v)).
        destruct (IH _ _ H1) as (IH1 & IH2).
        destruct (forEachPickUp t l (snd (applyPowerUp t pu w))) as [r1 w1].
        destruct (forEachPickUp t l (snd (applyPowerUp t pu v))) as [r2 v1].
        cbn [fst snd] in *. subst r2. split; [reflexivity | exact IH2].
      * destruct (IH _ _ Hp) as (IH1 & IH2).
        destruct (forEachPickUp t l w) as [r1 w1].
        destruct (forEachPickUp t l v) as [r2 v1].
        cbn [fst snd] in *. subst r2. split; [reflexivity | exact IH2].
    + destruct (IH _ _ Hp) as (IH1 & IH2).
      destruct (forEachPickUp t l w) as [r1 w1].
      destruct (forEachPickUp t l v) as [r2 v1].
      cbn [fst snd] in *. subst r2. split; [reflexivity | exact IH2].
Qed.

Lemma lifecycle_reads (env : Env) (n : nat) (w : World) :
  (player (lifecycle env n w), powerUps (lifecycle env n w)) =
  lifecycleView env n (player w) (powerUps w).
Proof.
  unfold lifecycleView.
  set (v := setPowerUps (powerUps w) (set_player (player w) initialWorld)).
  assert (Hp : player w = player v) by reflexivity.
  assert (Hu : powerUps w = powerUps v) by reflexivity.
  unfold lifecycle.
  assert (H1 : player (pickUp (now env) w) = player (pickUp (now env) v) /\
               powerUps (pickUp (now env) w) = powerUps (pickUp (now env) v)).
  { unfold pickUp. rewrite <- Hu.
    destruct (forEachPickUp_reads (now env) (powerUps w) w v Hp) as (F & S).
    destruct (forEachPickUp (now env) (powerUps w) w) as [l1 w1].
    destruct (forEachPickUp (now env) (powerUps w) v) as [l2 v1].
    cbn [fst snd] in *. subst l2. split; [exact S | reflexivity]. }
  destruct H1 as (P1 & U1).
  set (w1 := pickUp (now env) w) in *. set (v1 := pickUp (now env) v) in *.
  assert (H2 : player (updatePowerUps (now env) w1)
               = player (updatePowerUps (now env) v1) /\
               powerUps (updatePowerUps (now env) w1)
               = powerUps (updatePowerUps (now env) v1)).
  { unfold updatePowerUps. rewrite P1, U1.
    destruct (filterPowerUps (now env) (powerUps v1) (player v1)) as [k p].
    split; reflexivity. }
  destruct H2 as (P2 & U2).
  set (w2 := updatePowerUps (now env) w1) in *.
  set (v2 := updatePowerUps (now env) v1) in *.
  unfold spawnPowerUp. destruct (JS.lt _ _ && (n <? 2)%nat).
  - cbn [player powerUps setPowerUps]. rewrite P2, U2. reflexivity.
  - rewrite P2, U2. reflexivity.
Qed.

(** A frame of a running match, seen from the player and the power-ups. *)
Lemma frame_view (env : Env) (w w' : World) :
  updateGame env w = Some w' -> isPaused w = false ->
  (player w', powerUps w') =
    lifecycleView env (length (powerUps w))
      (nextPlayer (keys w) (player w)) (powerUps w) /\
  keys w' = keys w /\ isPaused w' = false.
Proof.
  intros H Hp.
  destruct (updateGame_unfold env w w' H Hp) as (w1 & Hm & ->).
  destruct (afterMotion_spec w w1 Hm) as (P & _ & _ & K & _ & U).
  destruct (integrate_frame _ _ Hm) as ((_ & _ & _ & _ & Pa) & _).
  destruct (chargeKick_frame (isCharging w) (kickPower w) w)
    as ((_ & _ & _ & _ & Pa0) & _).
  destruct (resolve_frame (kickPower w) w1) as ((K2 & _ & _ & _ & Pa2) & P2 & _ & U2 & _).
  destruct (lifecycle_frame env (length (powerUps w)) (resolve (kickPower w) w1))
    as ((K3 & _ & _ & _ & Pa3) & _).
  rewrite lifecycle_reads, P2, U2, P, U.
  split; [reflexivity |]. split; congruence.
Qed.

Lemma reachable_frame (env : Env) (w : World) :
  reachable w -> validEnv env ->
  exists w', reachable w' /\ updateGame env w = Some w'.
Proof.
  intros Hr He. destruct (updateGame_total env w) as (w' & H).
  exists w'. split; [| exact H].
  apply (reachable_step (Frame env) w w' Hr He H).
Qed.

Lemma reachable_event (ev : Event) (w : World) :
  reachable w -> validEvent ev ->
  forall w', step ev w = Some w' -> reachable w'.
Proof.
  intros Hr He w' H. exact (reachable_step ev w w' Hr He H).
Qed.

Ltac lifecycle_eval :=
  cbn [forEachPickUp filterPowerUps keepPowerUp applyPowerUp
       player powerUps set_player setPowerUps play initialWorld fst snd
       PowerUp.x PowerUp.y PowerUp.type PowerUp.active PowerUp.duration
       PowerUp.startTime PowerUp.set_startTime
       JS.truthy negb andb orb length app].

Lemma lifecycleView_none (env : Env) (n : nat) (p : GameObject.t) :
  quiet env -> lifecycleView env n p [] = (p, []).
Proof.
  intros Hq. unfold lifecycleView, lifecycle, pickUp, updatePowerUps, spawnPowerUp.
  lifecycle_eval.
  replace (JS.lt (random_spawn env) 0.005) with false
    by (symmetry; apply lt_false; exact Hq).
  reflexivity.
Qed.

Lemma lifecycleView_spawn (env : Env) (p : GameObject.t) :
  random_spawn env < 0.005 ->
  lifecycleView env 0 p [] =
  (p, [PowerUp.mk (random_x env * (CANVAS_WIDTH - 40) + 20)
                  (random_y env * (CANVAS_HEIGHT - 40) + 20)
                  (nth (Z.to_nat (Zfloor (random_type env * INR (length types))))
                       types sticky)
                  true POWER_UP_DURATION None]).
Proof.
  intros Hs. unfold lifecycleView, lifecycle, pickUp, updatePowerUps, spawnPowerUp.
  lifecycle_eval.
  replace (JS.lt (random_spawn env) 0.005) with true
    by (symmetry; apply lt_true; exact Hs).
  reflexivity.
Qed.

Lemma lifecycleView_pick (env : Env) (p : GameObject.t) (pu : PowerUp.t) :
  quiet env -> (0 < now env)%Z ->
  PowerUp.active pu = true -> PowerUp.startTime pu = None ->
  (0 < PowerUp.duration pu)%Z ->
  sqrt ((GameObject.x p - PowerUp.x pu) * (GameObject.x p - PowerUp.x pu)
        + (GameObject.y p - PowerUp.y pu) * (GameObject.y p - PowerUp.y pu))
  < GameObject.radius p + 10 ->
  lifecycleView env 1 p [pu] =
  (boosted (PowerUp.type pu) p, [PowerUp.set_startTime (Some (now env)) pu]).
Proof.
  intros Hq Hn Ha Hs Hd Hdist.
  assert (He : expired (now env) (PowerUp.set_startTime (Some (now env)) pu)
               = false).
  { unfold expired. cbn [PowerUp.set_startTime PowerUp.active PowerUp.startTime
                         PowerUp.duration].
    replace (now env - now env >=? PowerUp.duration pu)%Z with false
      by (symmetry; rewrite Z.geb_leb; apply Z.leb_gt; lia).
    rewrite andb_false_r. apply andb_false_r. }
  unfold lifecycleView, lifecycle, pickUp, updatePowerUps, spawnPowerUp.
  lifecycle_eval. rewrite Ha, Hs. lifecycle_eval.
  replace (JS.lt _ (GameObject.radius p + 10)) with true
    by (symmetry; apply lt_true; exact Hdist).
  lifecycle_eval. rewrite keepPowerUp_spec. unfold expiredOf. rewrite He.
  lifecycle_eval.
  replace (JS.lt (random_spawn env) 0.005) with false
    by (symmetry; apply lt_false; exact Hq).
  reflexivity.
Qed.

Lemma lifecycleView_hold (env : Env) (p : GameObject.t) (pu : PowerUp.t)
  (start : Z) :
  quiet env ->
  PowerUp.active pu = true -> PowerUp.startTime pu = Some start ->
  start <> 0%Z -> (now env - start < PowerUp.duration pu)%Z ->
  lifecycleView env 1 p [pu] = (p, [pu]).
Proof.
  intros Hq Ha Hs Hne Hd.
  assert (He : expired (now env) pu = false).
  { unfold expired. rewrite Ha, Hs.
    replace (now env - start >=? PowerUp.duration pu)%Z with false
      by (symmetry; rewrite Z.geb_leb; apply Z.leb_gt; lia).
    rewrite andb_false_r. reflexivity. }
  unfold lifecycleView, lifecycle, pickUp, updatePowerUps, spawnPowerUp.
  lifecycle_eval. rewrite Ha, Hs. lifecycle_eval.
  replace (start =? 0)%Z with false by (symmetry; apply Z.eqb_neq; exact Hne).
  lifecycle_eval. rewrite keepPowerUp_spec. unfold expiredOf. rewrite He.
  lifecycle_eval.
  replace (JS.lt (random_spawn env) 0.005) with false
    by (symmetry; apply lt_false; exact Hq).
  reflexivity.
Qed.

Lemma lifecycleView_expire (env : Env) (p : GameObject.t) (pu : PowerUp.t)
  (start : Z) :
  quiet env ->
  PowerUp.active pu = true -> PowerUp.startTime pu = Some start ->
  start <> 0%Z -> (now env - start >= PowerUp.duration pu)%Z ->
  lifecycleView env 1 p [pu] = (reverted (PowerUp.type pu) p, []).
Proof.
  intros Hq Ha Hs Hne Hd.
  assert (He : expired (now env) pu = true).
  { unfold expired. rewrite Ha, Hs.
    replace (now env - start >=? PowerUp.duration pu)%Z with true
      by (symmetry; apply Z.geb_le; lia).
    replace (start =? 0)%Z with false by (symmetry; apply Z.eqb_neq; exact Hne).
    reflexivity. }
  unfold lifecycleView, lifecycle, pickUp, updatePowerUps, spawnPowerUp.
  lifecycle_eval. rewrite Ha, Hs. lifecycle_eval.
  replace (start =? 0)%Z with false by (symmetry; apply Z.eqb_neq; exact Hne).
  lifecycle_eval. rewrite keepPowerUp_spec. unfold expiredOf. rewrite He.
  lifecycle_eval.
  replace (JS.lt (random_spawn env) 0.005) with false
    by (symmetry; apply lt_false; exact Hq).
  unfold reverted. destruct (PowerUp.type pu); reflexivity.
Qed.

(** ** The speed of the player *)

Lemma target_sq (l r : bool) :
  target l r * target l r = if Bool.eqb l r then 0 else 1.
Proof. unfold target. destruct l, r; cbn [Bool.eqb]; lra. Qed.

(** Blending a velocity half-way towards a target within a bound, then
    damping each component, stays within the bound. *)
Lemma blend_bound (vx vy gx gy d1 d2 M vx2 vy2 : R) :
  vx * vx + vy * vy <= M * M ->
  gx * gx + gy * gy <= M * M ->
  0 <= d1 <= 1 -> 0 <= d2 <= 1 ->
  vx2 = (vx + (gx - vx) * 0.5) * d1 ->
  vy2 = (vy + (gy - vy) * 0.5) * d2 ->
  vx2 * vx2 + vy2 * vy2 <= M * M.
Proof.
  intros Hv Hg H1 H2 -> ->.
  set (a := vx + (gx - vx) * 0.5). set (b := vy + (gy - vy) * 0.5).
  assert (Ha : a * a + b * b <= M * M).
  { subst a b.
    pose proof (Rle_0_sqr (vx - gx)) as Sx.
    pose proof (Rle_0_sqr (vy - gy)) as Sy. unfold Rsqr in Sx, Sy. nra. }
  assert (Ha1 : a * d1 * (a * d1) <= a * a).
  { assert (0 <= a * a) by nra. assert (d1 * d1 <= 1) by nra. nra. }
  assert (Hb1 : b * d2 * (b * d2) <= b * b).
  { assert (0 <= b * b) by nra. assert (d2 * d2 <= 1) by nra. nra. }
  lra.
Qed.

Lemma nextPlayer_bound (k : Keys.t) (p : GameObject.t) (M : R) :
  GameObject.acceleration p = 0.5 ->
  0 <= GameObject.deceleration p <= 1 ->
  0 <= GameObject.speed p <= M -> 0 <= GameObject.maxSpeed p <= M ->
  GameObject.vx p * GameObject.vx p + GameObject.vy p * GameObject.vy p
    <= M * M ->
  GameObject.vx (nextPlayer k p) * GameObject.vx (nextPlayer k p)
  + GameObject.vy (nextPlayer k p) * GameObject.vy (nextPlayer k p) <= M * M.
Proof.
  intros Ha Hd Hs Hm Hv.
  unfold nextPlayer. cbn [GameObject.vx GameObject.vy]. rewrite Ha.
  set (cs := if Keys.shift k then GameObject.maxSpeed p else GameObject.speed p).
  assert (Hcs : 0 <= cs <= M) by (subst cs; destruct (Keys.shift k); lra).
  assert (Hcs2 : cs * cs <= M * M) by nra.
  pose proof (target_sq (Keys.left k) (Keys.right k)) as Tx.
  pose proof (target_sq (Keys.up k) (Keys.down k)) as Ty.
  set (tx := target (Keys.left k) (Keys.right k)) in *.
  set (ty := target (Keys.up k) (Keys.down k)) in *.
  assert (Hi : / sqrt 2 * / sqrt 2 = / 2).
  { rewrite <- Rinv_mult. rewrite sqrt_sqrt by lra. reflexivity. }
  assert (Hg : forall c, tx * c * (tx * c) + ty * c * (ty * c)
                         = (tx * tx + ty * ty) * (c * c)) by (intros; ring).
  destruct (Bool.eqb (Keys.left k) (Keys.right k)),
           (Bool.eqb (Keys.up k) (Keys.down k));
    cbn [negb andb].
  - apply (blend_bound (GameObject.vx p) (GameObject.vy p) (tx * cs) (ty * cs)
             (GameObject.deceleration p) (GameObject.deceleration p));
      try reflexivity; try assumption.
    rewrite Hg, Tx, Ty. nra.
  - apply (blend_bound (GameObject.vx p) (GameObject.vy p) (tx * cs) (ty * cs)
             (GameObject.deceleration p) 1);
      try assumption; try lra; try ring.
    rewrite Hg, Tx, Ty. nra.
  - apply (blend_bound (GameObject.vx p) (GameObject.vy p) (tx * cs) (ty * cs)
             1 (GameObject.deceleration p));
      try assumption; try lra; try ring.
    rewrite Hg, Tx, Ty. nra.
  - apply (blend_bound (GameObject.vx p) (GameObject.vy p)
             (tx * cs / sqrt 2) (ty * cs / sqrt 2) 1 1);
      try assumption; try lra; try ring.
    unfold Rdiv.
    replace (tx * cs * / sqrt 2 * (tx * cs * / sqrt 2)
             + ty * cs * / sqrt 2 * (ty * cs * / sqrt 2))
      with ((tx * tx + ty * ty) * (cs * cs) * (/ sqrt 2 * / sqrt 2)) by ring.
    rewrite Tx, Ty, Hi. lra.
Qed.

Lemma magnitude_le (vx vy M : R) :
  0 <= M -> (magnitude vx vy <= M <-> vx * vx + vy * vy <= M * M).
Proof.
  intros HM. unfold magnitude.
  assert (H0 : 0 <= vx * vx + vy * vy) by nra.
  split; intros H.
  - rewrite <- (sqrt_sqrt _ H0).
    pose proof (sqrt_pos (vx * vx + vy * vy)). nra.
  - rewrite <- (sqrt_square M HM). apply sqrt_le_1; nra.
Qed.

(** C5 (as the code has it): the motion step has no speed clamp; it blends
    the velocity towards a target of magnitude at most [maxSpeed].  In a
    run, the speed after the step is at most the larger of the speed before
    it and [maxSpeed], so a speed within [maxSpeed] stays within it; the
    step leaves [maxSpeed] as it is. *)
Theorem movePlayer_speed_bound (w w1 : World) :
  reachable w -> movePlayer w = Some w1 ->
  let before := magnitude (GameObject.vx (player w)) (GameObject.vy (player w)) in
  let after := magnitude (GameObject.vx (player w1)) (GameObject.vy (player w1)) in
  GameObject.maxSpeed (player w1) = GameObject.maxSpeed (player w) /\
  after <= Rmax before (GameObject.maxSpeed (player w)) /\
  (before <= GameObject.maxSpeed (player w) ->
   after <= GameObject.maxSpeed (player w1)).
Proof.
  intros Hr Hm before after.
  destruct (reachable_invariant w Hr) as (_ & _ & IA & ID & IS & IM & _).
  rewrite movePlayer_spec in Hm. injection Hm as <-.
  assert (Hb0 : 0 <= before) by apply sqrt_pos.
  assert (Hgen : forall M, 7.5 <= M -> GameObject.maxSpeed (player w) <= M ->
                           before <= M -> after <= M).
  { intros M HM Hmax Hb. subst before after.
    apply magnitude_le; [lra |]. cbn [player set_player].
    apply nextPlayer_bound; try lra.
    apply magnitude_le; [lra | exact Hb]. }
  split; [reflexivity |]. split.
  - apply Hgen.
    + eapply Rle_trans; [exact IM | apply Rmax_r].
    + apply Rmax_r.
    + apply Rmax_l.
  - intros Hb. cbn [player set_player].
    apply Hgen; [exact IM | apply Rle_refl | exact Hb].
Qed.

Lemma movePlayer_speed_bound_witness :
  exists w1, movePlayer initialWorld = Some w1 /\
    magnitude (GameObject.vx (player w1)) (GameObject.vy (player w1))
    <= GameObject.maxSpeed (player w1).
Proof.
  exists (set_player (nextPlayer (keys initialWorld) (player initialWorld))
                     initialWorld).
  split; [apply movePlayer_spec |].
  apply (movePlayer_speed_bound initialWorld _ reachable_initial
           (movePlayer_spec initialWorld)).
  unfold magnitude. cbn. unfold_consts.
  replace (0 * 0 + 0 * 0) with 0 by ring. rewrite sqrt_0. lra.
Defined.

(** *** A run through the pick-up and the expiry of a speed power-up *)

Lemma validEnv_spawnEnv (t : Z) (draw : R) :
  (0 < t)%Z -> 0 <= draw < 1 -> validEnv (spawnEnv t draw).
Proof.
  intros Ht Hd. unfold validEnv, spawnEnv. cbn. repeat split; try lra; lia.
Qed.

Lemma validEnv_quietAt (t : Z) : (0 < t)%Z -> validEnv (quietAt t).
Proof.
  intros Ht. unfold validEnv, quietAt. cbn. repeat split; try lra; lia.
Qed.

Lemma quiet_quietAt (t : Z) : quiet (quietAt t).
Proof. unfold quiet, quietAt. cbn. lra. Qed.

Lemma draw_speed :
  nth (Z.to_nat (Zfloor (0 * INR (length types)))) types sticky = speed.
Proof.
  replace (0 * INR (length types)) with (IZR 0) by ring.
  rewrite ZfloorZ. reflexivity.
Qed.

Lemma draw_giant :
  nth (Z.to_nat (Zfloor (0.9 * INR (length types)))) types sticky = giant.
Proof.
  replace (Zfloor (0.9 * INR (length types))) with 2%Z; [reflexivity |].
  symmetry. apply Zfloor_eq. cbn. lra.
Qed.

(** Without input the player put at (200, 300) by a reset stays there,
    or is pushed to x = radius by the clamp if its radius exceeds 200. *)
Lemma standing_settles (r m : R) :
  r <= 300 ->
  nextPlayer initialKeys (standing 200 r m) = standing (Rmax r 200) r m /\
  nextPlayer initialKeys (standing (Rmax r 200) r m) = standing (Rmax r 200) r m.
Proof.
  intros Hr. unfold nextPlayer, target, initialKeys, standing. fields.
  unfold_consts. split; f_equal; rmaxmin; lra.
Qed.

Lemma running_on (x vx m : R) :
  20 <= x + (vx + (m - vx) * 0.5) <= 780 ->
  nextPlayer keysRightShift (running x vx m) =
  running (x + (vx + (m - vx) * 0.5)) (vx + (m - vx) * 0.5) m.
Proof.
  intros Hx. unfold nextPlayer, target, keysRightShift, running. fields.
  unfold_consts. f_equal; rmaxmin; lra.
Qed.

Lemma spawnedAt200_near (ty : PowerUpType) (r m : R) :
  0 <= r ->
  let p := standing (Rmax r 200) r m in
  sqrt ((GameObject.x p - PowerUp.x (spawnedAt200 ty))
        * (GameObject.x p - PowerUp.x (spawnedAt200 ty))
        + (GameObject.y p - PowerUp.y (spawnedAt200 ty))
          * (GameObject.y p - PowerUp.y (spawnedAt200 ty)))
  < GameObject.radius p + 10.
Proof.
  intros Hr. unfold standing, spawnedAt200. fields. unfold_consts.
  assert (Hx : 0 <= Rmax r 200 - 200 <= r) by (rmaxmin; lra).
  set (x := Rmax r 200) in *.
  apply sqrt_lt_bound; nra.
Qed.

Lemma lt_sqrt (c s : R) : 0 <= c -> c * c < s -> c < sqrt s.
Proof.
  intros Hc Hs. rewrite <- (sqrt_square c Hc). apply sqrt_lt_1; nra.
Qed.

Lemma situation_frame (env : Env) (p p' : GameObject.t)
  (l l' : list PowerUp.t) (k : Keys.t) (w : World) :
  situation p l k w -> validEnv env ->
  lifecycleView env (length l) (nextPlayer k p) l = (p', l') ->
  exists w', situation p' l' k w'.
Proof.
  intros (Hr & Hp & Hl & Hk & Hq) He Hv.
  destruct (reachable_frame env w Hr He) as (w' & Hr' & H).
  destruct (frame_view env w w' H Hq) as (V & K & Q).
  rewrite Hp, Hl, Hk, Hv in V. injection V as P L.
  exists w'. repeat split; try assumption. congruence.
Qed.

Lemma situation_keyDown (key : Key) (p : GameObject.t) (l : list PowerUp.t)
  (k : Keys.t) (w : World) :
  situation p l k w -> key <> Escape ->
  situation (player (handleKeyDown key w)) l (keys (handleKeyDown key w))
            (handleKeyDown key w).
Proof.
  intros (Hr & Hp & Hl & Hk & Hq) Hkey.
  split; [apply (reachable_event (KeyDown key) w Hr I); reflexivity |].
  split; [reflexivity |]. split; [| split; [reflexivity |]].
  - destruct key; cbn; try exact Hl; destruct (Keys.space (keys w)); exact Hl.
  - destruct key; cbn; try exact Hq; try contradiction;
      destruct (Keys.space (keys w)); exact Hq.
Qed.

Lemma situation_unpaused :
  situation initialPlayer [] initialKeys (clickPause initialWorld).
Proof.
  split; [| repeat split].
  apply (reachable_event ClickPause initialWorld reachable_initial I).
  reflexivity.
Qed.

(** After a spawn at (200, 300) at time [t] and its pick-up, one frame
    (16 ms) later, by the player standing there, the match is running with
    the player boosted. *)
Lemma situation_picked (t : Z) (ty : PowerUpType) (draw : R) (r m : R)
  (w : World) :
  (0 < t)%Z -> 0 <= draw < 1 ->
  nth (Z.to_nat (Zfloor (draw * INR (length types)))) types sticky = ty ->
  0 <= r <= 300 ->
  situation (standing 200 r m) [] initialKeys w ->
  exists w',
    situation (boosted ty (standing (Rmax r 200) r m))
              [PowerUp.set_startTime (Some (t + 16)%Z) (spawnedAt200 ty)]
              initialKeys w'.
Proof.
  intros Ht Hd Hty Hr S.
  destruct (standing_settles r m) as (N1 & N2); [lra |].
  destruct (situation_frame (spawnEnv t draw) _ (standing (Rmax r 200) r m)
              _ [spawnedAt200 ty] _ _ S) as (w1 & S1).
  { apply validEnv_spawnEnv; [lia | exact Hd]. }
  { rewrite N1. cbn [length].
    rewrite lifecycleView_spawn by (cbn; lra).
    cbn [random_x random_y random_type spawnEnv]. rewrite Hty. reflexivity. }
  apply (situation_frame (quietAt (t + 16)) _ _ _ _ _ _ S1).
  { apply validEnv_quietAt; lia. }
  rewrite N2. cbn [length].
  apply (lifecycleView_pick (quietAt (t + 16)) (standing (Rmax r 200) r m)
           (spawnedAt200 ty)).
  - apply quiet_quietAt.
  - cbn; lia.
  - reflexivity.
  - reflexivity.
  - cbn. unfold POWER_UP_DURATION. lia.
  - apply spawnedAt200_near. lra.
Qed.

(** C7: in every world of a run at most two power-ups are in the list.
    A frame of a running match leaves in the list the power-ups of its
    start, as the pick-up loop stamped them, that have not expired, and
    appends one new power-up exactly when the first draw is below 0.005
    and the list held fewer than two power-ups at the start of the frame;
    otherwise it appends nothing.  The new power-up lies inside the field,
    20 away from each edge, is active, has the full duration and no
    activation time.  A frame of a paused match leaves the list as it
    is. *)
Theorem powerUps_capped_at_two (w : World) :
  reachable w ->
  (length (powerUps w) <= 2)%nat /\
  forall env w', validEnv env -> updateGame env w = Some w' ->
    (length (powerUps w') <= 2)%nat /\
    (isPaused w = true -> powerUps w' = powerUps w) /\
    (20 <= PowerUp.x (spawned env) < CANVAS_WIDTH - 20 /\
     20 <= PowerUp.y (spawned env) < CANVAS_HEIGHT - 20 /\
     PowerUp.active (spawned env) = true /\
     PowerUp.duration (spawned env) = POWER_UP_DURATION /\
     PowerUp.startTime (spawned env) = None) /\
    (isPaused w = false ->
     exists w1,
       afterMotion w = Some w1 /\
       let picked := fst (forEachPickUp (now env) (powerUps w) w1) in
       let kept := filter (fun pu => negb (expired (now env) pu)) picked in
       length picked = length (powerUps w) /\
       (spawns env w -> powerUps w' = kept ++ [spawned env]) /\
       (~ spawns env w -> powerUps w' = kept)).
Proof.
  intros Hr. pose proof (reachable_invariant w Hr) as Inv.
  split; [apply Inv |].
  intros env w' Henv H.
  split; [apply (updateGame_invariant env w w' Inv H) |].
  split.
  { intros Hp. unfold updateGame in H. rewrite Hp in H. injection H as <-.
    reflexivity. }
  split; [apply spawned_shape, Henv |].
  intros Hp.
  destruct (updateGame_unfold env w w' H Hp) as (w1 & Hm & ->).
  exists w1. split; [exact Hm |]. intros picked kept.
  destruct (afterMotion_spec w w1 Hm) as (_ & _ & _ & _ & _ & U1).
  destruct (resolve_frame (kickPower w) w1) as (_ & P3 & _ & U3 & _).
  set (w3 := resolve (kickPower w) w1) in *.
  assert (Hpick : powerUps (pickUp (now env) w3) = picked).
  { rewrite pickUp_powerUps, U3, U1. subst picked.
    apply (forEachPickUp_reads (now env) (powerUps w) w3 w1 P3). }
  assert (Hkept : powerUps (updatePowerUps (now env) (pickUp (now env) w3)) = kept).
  { destruct (updatePowerUps_spec (now env) (pickUp (now env) w3)) as (-> & _).
    rewrite Hpick. reflexivity. }
  split.
  { subst picked.
    destruct (forEachPickUp_spec (now env) (powerUps w) w1) as (L & _). exact L. }
  unfold lifecycle, spawns.
  destruct (spawnPowerUp_powerUps env (length (powerUps w))
              (updatePowerUps (now env) (pickUp (now env) w3))) as (Hs & Hn).
  rewrite Hkept in Hs, Hn. split; assumption.
Qed.

Lemma spawned_spawnEnv : spawned (spawnEnv 1000 0) = spawnedAt200 speed.
Proof.
  unfold spawned, spawnedAt200.
  cbn [random_x random_y random_type spawnEnv]. rewrite draw_speed.
  reflexivity.
Qed.

(** A frame that spawns: the first frame of a match just started, with
    the draws of [spawnEnv]; the list goes from empty to the one power-up
    built from the draws. *)
Lemma powerUps_capped_at_two_witness :
  exists w',
    updateGame (spawnEnv 1000 0) (clickPause initialWorld) = Some w' /\
    (length (powerUps w') <= 2)%nat /\
    powerUps w' = [spawnedAt200 speed].
Proof.
  destruct (updateGame_total (spawnEnv 1000 0) (clickPause initialWorld))
    as (w' & H).
  exists w'. split; [exact H |].
  destruct situation_unpaused as (Hr & _).
  destruct (powerUps_capped_at_two (clickPause initialWorld) Hr) as (_ & Hf).
  destruct (Hf (spawnEnv 1000 0) w'
              (validEnv_spawnEnv 1000 0 eq_refl ltac:(lra)) H)
    as (Hlen & _ & _ & Hframe).
  split; [exact Hlen |].
  destruct (Hframe eq_refl) as (w1 & _ & _ & Hs & _).
  rewrite Hs.
  - rewrite spawned_spawnEnv. reflexivity.
  - split; [cbn; lra | cbn; lia].
Defined.

(** The claim C5 fails as stated: a run in which a speed power-up expires
    while the player sprints leaves the player faster than its maximal
    speed, and the next motion step still does. *)
Lemma speed_above_maxSpeed_after_expiry :
  exists w w1,
    reachable w /\ movePlayer w = Some w1 /\
    GameObject.maxSpeed (player w1)
    < magnitude (GameObject.vx (player w1)) (GameObject.vy (player w1)).
Proof.
  destruct (situation_frame (quietAt 1) _ (standing 200 20 7.5) _ [] _ _
              situation_unpaused) as (w1 & S1).
  { apply validEnv_quietAt; lia. }
  { rewrite idle_player. apply lifecycleView_none, quiet_quietAt. }
  destruct (situation_picked 1000 speed 0 20 7.5 w1) as (w2 & S2);
    [lia | lra | apply draw_speed | lra | exact S1 |].
  pose proof (situation_keyDown ArrowRight _ _ _ _ S2) as S3.
  pose proof (situation_keyDown Shift _ _ _ _ (S3 ltac:(discriminate))) as S4.
  specialize (S4 ltac:(discriminate)).
  destruct S2 as (_ & P2 & _ & K2 & _).
  assert (S5 : situation (running 200 0 (7.5 * 1.5))
                 [PowerUp.set_startTime (Some 1016%Z) (spawnedAt200 speed)]
                 keysRightShift
                 (handleKeyDown Shift (handleKeyDown ArrowRight w2))).
  { destruct S4 as (R4 & _ & L4 & _ & Q4).
    split; [exact R4 |].
    split; [cbn; rewrite P2; unfold boosted, standing, running;
            rmaxmin; reflexivity |].
    split; [exact L4 |].
    split; [cbn; rewrite K2; reflexivity | exact Q4]. }
  clear S3 S4.
  destruct (situation_frame (quietAt 1032) _
              (running (200 + (0 + (7.5 * 1.5 - 0) * 0.5))
                       (0 + (7.5 * 1.5 - 0) * 0.5) (7.5 * 1.5))
              _ [PowerUp.set_startTime (Some 1016%Z) (spawnedAt200 speed)]
              _ _ S5) as (w6 & S6).
  { apply validEnv_quietAt; lia. }
  { rewrite running_on by lra. cbn [length].
    apply (lifecycleView_hold _ _ _ 1016%Z);
      [apply quiet_quietAt | reflexivity | reflexivity | lia |].
    cbn. unfold POWER_UP_DURATION. lia. }
  destruct (situation_frame (quietAt 6016) _
              (running (200 + (0 + (7.5 * 1.5 - 0) * 0.5)
                        + (0 + (7.5 * 1.5 - 0) * 0.5
                           + (7.5 * 1.5 - (0 + (7.5 * 1.5 - 0) * 0.5)) * 0.5))
                       (0 + (7.5 * 1.5 - 0) * 0.5
                        + (7.5 * 1.5 - (0 + (7.5 * 1.5 - 0) * 0.5)) * 0.5)
                       (BASE_PLAYER_SPEED * SPRINT_MULTIPLIER))
              _ [] _ _ S6) as (w7 & S7).
  { apply validEnv_quietAt; lia. }
  { rewrite running_on by lra. cbn [length].
    rewrite (lifecycleView_expire _ _ _ 1016%Z);
      [reflexivity | apply quiet_quietAt | reflexivity | reflexivity | lia |].
    cbn. unfold POWER_UP_DURATION. lia. }
  destruct S7 as (R7 & P7 & _ & K7 & _).
  exists w7. eexists. split; [exact R7 |].
  split; [apply movePlayer_spec |].
  cbn [player set_player]. rewrite P7, K7. unfold_consts.
  rewrite running_on by lra.
  unfold running, magnitude. cbn [GameObject.maxSpeed GameObject.vx GameObject.vy].
  apply lt_sqrt; lra.
Qed.

(** ** The clamp *)

Lemma clamp_bounds (r d v : R) :
  r <= Rmax r (Rmin (d - r) v) /\
  (r <= d / 2 -> Rmax r (Rmin (d - r) v) <= d - r).
Proof. split; [| intros H]; rmaxmin; lra. Qed.

Lemma steered_radius (a : GameObject.t) (b : Ball.t) :
  GameObject.radius (steered a b) = GameObject.radius a.
Proof. unfold steered. destruct (Rlt_dec 0 _); reflexivity. Qed.

(** What the clamps give on every run: after the motion phase the AI lies
    within [radius, width - radius] and [radius, height - radius]; the
    player is never left of [radius] nor above [radius], and is within
    [width - radius] and [height - radius] as long as its radius does not
    exceed half the width, respectively half the height, of the field
    ([Math.max] is applied last, so a larger radius wins over the far
    bound). *)
Lemma clamp_keeps_bodies_in_field (w w1 : World) :
  reachable w -> afterMotion w = Some w1 ->
  let p := player w1 in
  let a := ai w1 in
  (GameObject.radius p <= GameObject.x p /\
   GameObject.radius p <= GameObject.y p /\
   (GameObject.radius p <= CANVAS_WIDTH / 2 ->
    GameObject.x p <= CANVAS_WIDTH - GameObject.radius p) /\
   (GameObject.radius p <= CANVAS_HEIGHT / 2 ->
    GameObject.y p <= CANVAS_HEIGHT - GameObject.radius p)) /\
  (GameObject.radius a <= GameObject.x a <= CANVAS_WIDTH - GameObject.radius a /\
   GameObject.radius a <= GameObject.y a <= CANVAS_HEIGHT - GameObject.radius a).
Proof.
  intros Hr Hm p a.
  destruct (reachable_invariant w Hr) as (_ & _ & _ & _ & _ & _ & _ & IAR).
  destruct (afterMotion_spec w w1 Hm) as (P & A & _).
  subst p a. rewrite P, A. split.
  - unfold nextPlayer. cbn [GameObject.x GameObject.y GameObject.radius].
    repeat split; apply clamp_bounds.
  - unfold advanced. cbn [GameObject.x GameObject.y GameObject.radius].
    rewrite steered_radius, IAR. unfold_consts.
    repeat split; apply clamp_bounds; lra.
Qed.

(** *** Runs without a reset *)

Lemma resetFree_reachable (w : World) : resetFree w -> reachable w.
Proof.
  induction 1 as [| ev w w' _ IH Hv _ Hs]; [apply reachable_initial |].
  exact (reachable_step ev w w' IH Hv Hs).
Qed.

Lemma giantsOn_cons (pu : PowerUp.t) (l : list PowerUp.t) :
  giantsOn (pu :: l) = ((if giantOn pu then 1 else 0) + giantsOn l)%nat.
Proof. unfold giantsOn. cbn [filter]. destruct (giantOn pu); reflexivity. Qed.

Lemma giantOn_unstamped (pu : PowerUp.t) :
  PowerUp.startTime pu = None -> giantOn pu = false.
Proof. intros H. unfold giantOn. rewrite H. destruct (PowerUp.type pu); reflexivity. Qed.

Lemma giantsOn_le_length (l : list PowerUp.t) : (giantsOn l <= length l)%nat.
Proof. apply filter_length_le. Qed.

(** The pick-up loop multiplies the radius by 1.5 once for each giant
    power-up it stamps. *)
Lemma forEachPickUp_giants (t : Z) (l : list PowerUp.t) (w : World) (c : R) :
  t <> 0%Z -> 0 <= c ->
  GameObject.radius (player w) <= c * 1.5 ^ giantsOn l ->
  GameObject.radius (player (snd (forEachPickUp t l w)))
  <= c * 1.5 ^ giantsOn (fst (forEachPickUp t l w)).
Proof.
  intros Ht. revert w c. induction l as [| pu l IH]; intros w c Hc Hr.
  - exact Hr.
  - cbn [forEachPickUp].
    rewrite giantsOn_cons, pow_add in Hr.
    assert (Hpow : 0 < 1.5 ^ giantsOn l) by (apply pow_lt; lra).
    set (step1 := if PowerUp.active pu && _ then _ else _).
    assert (H1 : GameObject.radius (player (snd step1))
                 <= c * 1.5 ^ (if giantOn (fst step1) then 1 else 0)
                    * 1.5 ^ giantsOn l).
    { subst step1.
      destruct (PowerUp.active pu && negb (JS.truthy (PowerUp.startTime pu)))
        eqn:Hu; [| cbn [fst snd]; lra].
      destruct (JS.lt _ _); [| cbn [fst snd]; lra].
      apply andb_true_iff in Hu. destruct Hu as (_ & Hu).
      apply negb_true_iff in Hu.
      destruct (applyPowerUp_spec t pu w) as (-> & _ & _ & _ & _ & _ & _ & _ & _ & ->).
      unfold giantOn in *. cbn [PowerUp.type PowerUp.startTime PowerUp.set_startTime].
      rewrite Hu in Hr.
      replace (JS.truthy (Some t)) with true
        by (symmetry; cbn; apply negb_true_iff, Z.eqb_neq; exact Ht).
      destruct (PowerUp.type pu); cbn [pow] in *; nra. }
    destruct step1 as [pu1 w1]. cbn [fst snd] in H1.
    assert (Hc' : 0 <= c * 1.5 ^ (if giantOn pu1 then 1 else 0)).
    { apply Rmult_le_pos; [exact Hc | left; apply pow_lt; lra]. }
    specialize (IH w1 _ Hc' H1).
    destruct (forEachPickUp t l w1) as [rest w2]. cbn [fst snd] in *.
    rewrite giantsOn_cons, pow_add. lra.
Qed.

Lemma giantsOn_filter (t : Z) (l : list PowerUp.t) :
  existsb (expiredOf giant t) l = false ->
  giantsOn (filter (fun pu => negb (expired t pu)) l) = giantsOn l.
Proof.
  induction l as [| pu l IH]; [reflexivity |].
  cbn [existsb filter]. intros H. apply orb_false_iff in H.
  destruct H as (Hpu & Hl). specialize (IH Hl).
  destruct (expired t pu) eqn:He; cbn [negb].
  - rewrite giantsOn_cons, IH.
    unfold expiredOf in Hpu. rewrite He in Hpu. cbn [andb] in Hpu.
    unfold giantOn. destruct (PowerUp.type pu); try discriminate; reflexivity.
  - rewrite !giantsOn_cons, IH. reflexivity.
Qed.

Lemma giantsOn_app (l l' : list PowerUp.t) :
  giantsOn (l ++ l') = (giantsOn l + giantsOn l')%nat.
Proof. unfold giantsOn. rewrite filter_app, length_app. reflexivity. Qed.

Lemma lifecycle_radiusAccounted (env : Env) (n : nat) (w : World) :
  (0 < now env)%Z -> radiusAccounted w -> radiusAccounted (lifecycle env n w).
Proof.
  intros Ht Hr. unfold radiusAccounted, lifecycle in *.
  set (w1 := pickUp (now env) w).
  assert (H1 : GameObject.radius (player w1)
               <= PLAYER_RADIUS * 1.5 ^ giantsOn (powerUps w1)).
  { subst w1. unfold pickUp.
    pose proof (forEachPickUp_giants (now env) (powerUps w) w PLAYER_RADIUS) as F.
    destruct (forEachPickUp (now env) (powerUps w) w) as [l v].
    cbn [fst snd] in F. cbn [player powerUps setPowerUps].
    apply F; [lia | unfold PLAYER_RADIUS; lra | exact Hr]. }
  set (w2 := updatePowerUps (now env) w1).
  assert (H2 : GameObject.radius (player w2)
               <= PLAYER_RADIUS * 1.5 ^ giantsOn (powerUps w2)).
  { subst w2. destruct (updatePowerUps_spec (now env) w1) as (-> & _ & _ & ->).
    destruct (existsb (expiredOf giant (now env)) (powerUps w1)) eqn:He.
    - assert (1 <= 1.5 ^ giantsOn
                      (filter (fun pu => negb (expired (now env) pu)) (powerUps w1)))
        by (apply pow_R1_Rle; lra).
      unfold PLAYER_RADIUS. nra.
    - rewrite giantsOn_filter by exact He. exact H1. }
  unfold spawnPowerUp. destruct (JS.lt _ _ && _); [| exact H2].
  cbn [player powerUps setPowerUps]. rewrite giantsOn_app.
  rewrite giantsOn_cons, giantOn_unstamped by reflexivity.
  rewrite Nat.add_0_r. exact H2.
Qed.

Lemma updateGame_radiusAccounted (env : Env) (w w' : World) :
  (0 < now env)%Z -> radiusAccounted w -> updateGame env w = Some w' ->
  radiusAccounted w'.
Proof.
  intros Ht Hr H. destruct (isPaused w) eqn:Hp.
  { unfold updateGame in H. rewrite Hp in H. injection H as <-. exact Hr. }
  destruct (updateGame_unfold env w w' H Hp) as (w1 & Hm & ->).
  apply lifecycle_radiusAccounted; [exact Ht |].
  destruct (afterMotion_spec w w1 Hm) as (P & _ & _ & _ & _ & U).
  destruct (resolve_frame (kickPower w) w1) as (_ & P2 & _ & U2 & _).
  unfold radiusAccounted in *. rewrite P2, U2, P, U. exact Hr.
Qed.

Lemma resetFree_radiusAccounted (w : World) : resetFree w -> radiusAccounted w.
Proof.
  induction 1 as [| ev w w' _ IH Hv Hne Hs].
  - unfold radiusAccounted. cbn. lra.
  - destruct ev; cbn in Hs.
    + apply (updateGame_radiusAccounted env w w'); [apply Hv | exact IH | exact Hs].
    + injection Hs as <-. destruct k; cbn; try exact IH;
        destruct (Keys.space (keys w)); exact IH.
    + injection Hs as <-. destruct k; cbn; try exact IH;
        destruct (Keys.space (keys w)); exact IH.
    + injection Hs as <-. exact IH.
    + contradiction.
    + injection Hs as <-. unfold timerTick.
      destruct (negb (isPaused w)); [| exact IH].
      destruct (timeLeft w <=? 1)%Z; exact IH.
Qed.

(** Without a reset the radius of the player never exceeds 45: at most
    two power-ups are in the list, and an expiry puts the radius back. *)
Lemma resetFree_radius (w : World) :
  resetFree w -> 20 <= GameObject.radius (player w) <= 45.
Proof.
  intros Hf. pose proof (resetFree_radiusAccounted w Hf) as Ha.
  destruct (reachable_invariant w (resetFree_reachable w Hf))
    as (Hl & _ & _ & _ & _ & _ & Hr & _).
  split; [exact Hr |]. unfold radiusAccounted, PLAYER_RADIUS in Ha.
  pose proof (giantsOn_le_length (powerUps w)) as Hg.
  assert (Hp : 1.5 ^ giantsOn (powerUps w) <= 1.5 ^ 2)
    by (apply Rle_pow; [lra | lia]).
  cbn [pow] in Hp. lra.
Qed.

(** On the runs without a reset the clamps keep both bodies inside the
    field on both axes. *)
Lemma clamp_without_reset (w w1 : World) :
  resetFree w -> afterMotion w = Some w1 ->
  let p := player w1 in
  let a := ai w1 in
  GameObject.radius p <= 45 /\
  GameObject.radius p <= GameObject.x p <= CANVAS_WIDTH - GameObject.radius p /\
  GameObject.radius p <= GameObject.y p <= CANVAS_HEIGHT - GameObject.radius p /\
  GameObject.radius a <= GameObject.x a <= CANVAS_WIDTH - GameObject.radius a /\
  GameObject.radius a <= GameObject.y a <= CANVAS_HEIGHT - GameObject.radius a.
Proof.
  intros Hf Hm p a.
  destruct (resetFree_radius w Hf) as (_ & Hr).
  destruct (reachable_invariant w (resetFree_reachable w Hf))
    as (_ & _ & _ & _ & _ & _ & _ & IAR).
  destruct (afterMotion_spec w w1 Hm) as (P & A & _).
  subst p a. rewrite P, A.
  unfold nextPlayer, advanced.
  cbn [GameObject.x GameObject.y GameObject.radius].
  rewrite steered_radius, IAR. unfold_consts.
  split; [exact Hr |].
  repeat split; apply clamp_bounds; lra.
Qed.

(** *** A run that stacks giant power-ups across resets *)

Lemma handleKeyUp_player (k : Key) (w : World) :
  player (handleKeyUp k w) = player w.
Proof.
  destruct k; try reflexivity. cbn. destruct (Keys.space (keys w)); reflexivity.
Qed.

Lemma releaseAll_spec (w : World) :
  reachable w ->
  reachable (releaseAll w) /\ keys (releaseAll w) = initialKeys /\
  player (releaseAll w) = player w.
Proof.
  intros Hr. unfold releaseAll. cbn [fold_left].
  split; [| split].
  - repeat (eapply (reachable_event (KeyUp _)); [| exact I | reflexivity]).
    exact Hr.
  - cbn. destruct (Keys.space (keys w)); reflexivity.
  - rewrite !handleKeyUp_player. reflexivity.
Qed.

Lemma restart_spec (v : World) :
  player (clickPause (resetGame v)) =
    GameObject.set_direction 1
      (GameObject.set_vy 0
         (GameObject.set_vx 0
            (GameObject.set_y (CANVAS_HEIGHT / 2)
               (GameObject.set_x (CANVAS_WIDTH / 4) (player v))))) /\
  powerUps (clickPause (resetGame v)) = [] /\
  keys (clickPause (resetGame v)) = keys v /\
  isPaused (clickPause (resetGame v)) = false.
Proof. repeat split. Qed.

(** Releasing the keys, resetting and resuming leaves the player standing
    at (200, 300) with the radius and maximal speed it had. *)
Lemma situation_restarted (w : World) :
  reachable w ->
  situation (standing 200 (GameObject.radius (player w))
                      (GameObject.maxSpeed (player w)))
            [] initialKeys (clickPause (resetGame (releaseAll w))).
Proof.
  intros Hr.
  destruct (reachable_invariant w Hr) as (_ & _ & IA & ID & IS & _).
  destruct (releaseAll_spec w Hr) as (Ra & Ka & Pa).
  destruct (restart_spec (releaseAll w)) as (P & U & K & Q).
  unfold situation. rewrite P, U, K, Q, Pa, Ka.
  split; [| split; [| repeat split]].
  - eapply (reachable_event ClickPause); [| exact I | reflexivity].
    eapply (reachable_event ClickReset); [| exact I | reflexivity].
    exact Ra.
  - destruct (player w) as [x y vx vy r s m a d dir].
    cbn [GameObject.acceleration GameObject.deceleration GameObject.speed]
      in IA, ID, IS.
    subst a d s. unfold standing. unfold_consts. unfold_setters. fields.
    f_equal; lra.
Qed.

Lemma giant_cycle (t : Z) (w : World) (r : R) :
  (0 < t)%Z ->
  reachable w -> GameObject.radius (player w) = r -> r <= 300 ->
  exists w', reachable w' /\ GameObject.radius (player w') = r * 1.5.
Proof.
  intros Ht Hr Er Hle.
  destruct (reachable_invariant w Hr) as (_ & _ & _ & _ & _ & _ & IR & _).
  pose proof (situation_restarted w Hr) as S. rewrite Er in S.
  destruct (situation_picked t giant 0.9 r _ _ Ht ltac:(lra) draw_giant
              ltac:(lra) S) as (w' & R' & P' & _).
  exists w'. split; [exact R' |]. rewrite P'. reflexivity.
Qed.

(** C4 (the code departs from the claim): [resetGame] empties the list of
    power-ups but leaves the radius of the player as the giant power-ups
    made it, so the expiry that would put it back to 20 never comes.  In
    the run that picks up seven giant power-ups, each after a reset, the
    radius is 20 * 1.5^7 = 341.71875; the clamp of the next frame then
    puts the player at y = 341.71875, beyond [height - radius] =
    258.28125.  On the runs without a reset the radius stays within 45 and
    the claim holds ([clamp_without_reset]). *)
Theorem player_outside_after_giants :
  exists w w1,
    reachable w /\ afterMotion w = Some w1 /\
    GameObject.radius (player w1) = 341.71875 /\
    GameObject.y (player w1) = 341.71875 /\
    ~ GameObject.y (player w1) <= CANVAS_HEIGHT - GameObject.radius (player w1).
Proof.
  destruct (giant_cycle 1000 initialWorld 20 eq_refl reachable_initial)
    as (w1 & R1 & E1); [reflexivity | lra |].
  destruct (giant_cycle 2000 w1 _ eq_refl R1 E1) as (w2 & R2 & E2); [lra |].
  destruct (giant_cycle 3000 w2 _ eq_refl R2 E2) as (w3 & R3 & E3); [lra |].
  destruct (giant_cycle 4000 w3 _ eq_refl R3 E3) as (w4 & R4 & E4); [lra |].
  destruct (giant_cycle 5000 w4 _ eq_refl R4 E4) as (w5 & R5 & E5); [lra |].
  destruct (giant_cycle 6000 w5 _ eq_refl R5 E5) as (w6 & R6 & E6); [lra |].
  destruct (giant_cycle 7000 w6 _ eq_refl R6 E6) as (w7 & R7 & E7); [lra |].
  destruct (integrate_total
              (chargeKick (isCharging w7) (kickPower w7) w7)) as (w8 & Hm).
  exists w7, w8. split; [exact R7 |]. split; [exact Hm |].
  destruct (afterMotion_spec _ _ Hm) as (P & _).
  rewrite P. unfold nextPlayer. cbn [GameObject.y GameObject.radius].
  rewrite E7. unfold CANVAS_HEIGHT.
  split; [lra |].
  match goal with
  | |- Rmax ?r (Rmin ?d ?v) = _ /\ _ =>
      assert (Hy : Rmax r (Rmin d v) = 341.71875)
        by (unfold Rmax, Rmin; repeat destruct (Rle_dec _ _); lra)
  end.
  rewrite Hy. split; [reflexivity | lra].
Qed.

(** ** What a frame leaves alone *)

Lemma updateGame_cells (env : Env) (w w' : World) :
  updateGame env w = Some w' -> sameCells w w'.
Proof.
  intros H. destruct (isPaused w) eqn:Hp.
  { unfold updateGame in H. rewrite Hp in H. injection H as <-. repeat split. }
  destruct (updateGame_unfold env w w' H Hp) as (w1 & Hi & ->).
  destruct (chargeKick_frame (isCharging w) (kickPower w) w) as (C0 & _).
  destruct (integrate_frame _ _ Hi) as (C1 & _).
  destruct (resolve_frame (kickPower w) w1) as (C2 & _).
  destruct (lifecycle_frame env (length (powerUps w)) (resolve (kickPower w) w1))
    as (C3 & _).
  eauto using sameCells_trans.
Qed.

Lemma goalCheck_score (w : World) :
  (Score.player (score w) <= Score.player (score (goalCheck w)))%Z /\
  (Score.ai (score w) <= Score.ai (score (goalCheck w)))%Z.
Proof.
  unfold goalCheck. destruct (JS.lt _ 0); [cbn; lia |].
  destruct (JS.gt _ _); cbn; lia.
Qed.

Lemma updateGame_score (env : Env) (w w' : World) :
  updateGame env w = Some w' ->
  (Score.player (score w) <= Score.player (score w'))%Z /\
  (Score.ai (score w) <= Score.ai (score w'))%Z.
Proof.
  intros H. destruct (isPaused w) eqn:Hp.
  { unfold updateGame in H. rewrite Hp in H. injection H as <-. lia. }
  destruct (updateGame_unfold env w w' H Hp) as (w1 & Hi & ->).
  destruct (chargeKick_frame (isCharging w) (kickPower w) w)
    as (_ & _ & _ & _ & S0 & _).
  destruct (integrate_frame _ _ Hi) as (_ & S1 & _).
  destruct (lifecycle_frame env (length (powerUps w)) (resolve (kickPower w) w1))
    as (_ & _ & _ & -> & _).
  unfold resolve.
  destruct (playerBall_frame (kickPower w) w1) as (_ & _ & _ & S2 & _).
  destruct (aiBall_frame (playerBall (kickPower w) w1)) as (_ & _ & _ & S3 & _).
  pose proof (goalCheck_score (aiBall (playerBall (kickPower w) w1))) as G.
  rewrite S3, S2, S1, S0 in G. exact G.
Qed.

(** ** The clock *)

Lemma timerTick_paused (w : World) : isPaused (timerTick w) = isPaused w.
Proof.
  unfold timerTick. destruct (negb (isPaused w)); [| reflexivity].
  destruct (timeLeft w <=? 1)%Z; reflexivity.
Qed.

Lemma iter_timerTick_paused (n : nat) (w : World) :
  isPaused (Nat.iter n timerTick w) = isPaused w.
Proof.
  induction n as [| n IH]; [reflexivity |].
  change (Nat.iter (S n) timerTick w) with (timerTick (Nat.iter n timerTick w)).
  rewrite timerTick_paused. exact IH.
Qed.

(** X1: [n] ticks of the interval in a running match count the clock down by
    [n], stopping at 0; the match is over from the tick that finds the clock
    at 1 or below. *)
Theorem timerTick_counts_down (n : nat) (w : World) :
  isPaused w = false -> (0 <= timeLeft w)%Z ->
  timeLeft (Nat.iter n timerTick w) = Z.max 0 (timeLeft w - Z.of_nat n) /\
  gameOver (Nat.iter n timerTick w) =
    (gameOver w || ((0 <? n)%nat && (timeLeft w <=? Z.of_nat n)%Z)).
Proof.
  intros Hp Ht. induction n as [| n (IHt & IHg)].
  - cbn. split; [lia |]. rewrite orb_false_r. reflexivity.
  - change (Nat.iter (S n) timerTick w) with (timerTick (Nat.iter n timerTick w)).
    set (v := Nat.iter n timerTick w) in *.
    assert (Hv : isPaused v = false)
      by (subst v; rewrite iter_timerTick_paused; exact Hp).
    unfold timerTick. rewrite Hv. cbn [negb].
    destruct (timeLeft v <=? 1)%Z eqn:Hle.
    + apply Z.leb_le in Hle. cbn. split; [lia |].
      replace (timeLeft w <=? Z.pos (Pos.of_succ_nat n))%Z with true
        by (symmetry; apply Z.leb_le; lia).
      symmetry; apply orb_true_r.
    + apply Z.leb_gt in Hle. cbn. split; [lia |].
      rewrite IHg.
      replace (timeLeft w <=? Z.of_nat n)%Z with false
        by (symmetry; apply Z.leb_gt; lia).
      replace (timeLeft w <=? Z.pos (Pos.of_succ_nat n))%Z with false
        by (symmetry; apply Z.leb_gt; lia).
      rewrite !andb_false_r. reflexivity.
Qed.

Lemma timerTick_counts_down_witness :
  timeLeft (Nat.iter 180 timerTick (clickPause initialWorld)) = 0%Z /\
  gameOver (Nat.iter 180 timerTick (clickPause initialWorld)) = true.
Proof.
  destruct (timerTick_counts_down 180 (clickPause initialWorld)) as (Ht & Hg).
  - reflexivity.
  - cbn. lia.
  - rewrite Ht, Hg. split; reflexivity.
Defined.

(** X2: In every world of a run the clock reads between 0 and 180 seconds, and
    the match is over only with the clock at 0. *)
Theorem clock_within_match (w : World) :
  reachable w ->
  (0 <= timeLeft w <= 180)%Z /\ (gameOver w = true -> timeLeft w = 0%Z).
Proof.
  induction 1 as [| ev w w' _ IH _ Hs]; [cbn; split; [lia | discriminate] |].
  destruct ev; cbn in Hs.
  - destruct (updateGame_cells env w w' Hs) as (_ & -> & -> & _). exact IH.
  - injection Hs as <-. destruct k; cbn; try exact IH;
      destruct (Keys.space (keys w)); exact IH.
  - injection Hs as <-. destruct k; cbn; try exact IH;
      destruct (Keys.space (keys w)); exact IH.
  - injection Hs as <-. exact IH.
  - injection Hs as <-. cbn. split; [lia | discriminate].
  - injection Hs as <-. unfold timerTick.
    destruct (negb (isPaused w)); [| exact IH].
    destruct (timeLeft w <=? 1)%Z eqn:Hle; cbn.
    + split; [lia | reflexivity].
    + apply Z.leb_gt in Hle. split; [lia |]. intros G. apply IH in G. lia.
Qed.

Lemma clock_within_match_witness : (0 <= timeLeft initialWorld <= 180)%Z.
Proof. apply (clock_within_match initialWorld reachable_initial). Defined.

(** X3: Only the reset button turns anything back: any other callback leaves
    the clock where it was or lower, keeps a finished match finished and
    lowers neither counter of the score. *)
Theorem only_reset_rewinds (ev : Event) (w w' : World) :
  ev <> ClickReset -> (0 <= timeLeft w)%Z -> step ev w = Some w' ->
  (timeLeft w' <= timeLeft w)%Z /\
  (gameOver w = true -> gameOver w' = true) /\
  (Score.player (score w) <= Score.player (score w'))%Z /\
  (Score.ai (score w) <= Score.ai (score w'))%Z.
Proof.
  intros Hev Ht Hs. destruct ev; cbn in Hs.
  - destruct (updateGame_cells env w w' Hs) as (_ & -> & -> & _).
    destruct (updateGame_score env w w' Hs) as (Sp & Sa).
    repeat split; auto; lia.
  - injection Hs as <-. destruct k; cbn; repeat split; auto; try lia;
      destruct (Keys.space (keys w)); cbn; auto; lia.
  - injection Hs as <-. destruct k; cbn; repeat split; auto; try lia;
      destruct (Keys.space (keys w)); cbn; auto; lia.
  - injection Hs as <-. cbn. repeat split; auto; lia.
  - contradiction.
  - injection Hs as <-. unfold timerTick.
    destruct (negb (isPaused w)); [| repeat split; auto; lia].
    destruct (timeLeft w <=? 1)%Z eqn:Hle; cbn.
    + repeat split; auto; lia.
    + repeat split; auto; lia.
Qed.

Lemma only_reset_rewinds_witness :
  (timeLeft (timerTick (clickPause initialWorld)) <= 180)%Z.
Proof.
  apply (only_reset_rewinds Interval (clickPause initialWorld)
           (timerTick (clickPause initialWorld))).
  - discriminate.
  - cbn. lia.
  - reflexivity.
Defined.

(** ** Pause *)

(** X4: A paused world is frozen: no sequence of frames and timer ticks
    changes anything in it. *)
Theorem paused_world_is_frozen (evs : list Event) (w : World) :
  isPaused w = true -> forallb timed evs = true -> run evs w = Some w.
Proof.
  intros Hp. induction evs as [| ev evs IH]; [reflexivity |].
  cbn [forallb run]. intros H. apply andb_true_iff in H. destruct H as (He & Hr).
  destruct ev; try discriminate; cbn [step].
  - unfold updateGame. rewrite Hp. cbn [bind]. apply IH, Hr.
  - unfold timerTick. rewrite Hp. cbn [negb bind]. apply IH, Hr.
Qed.

Lemma paused_world_is_frozen_witness :
  run [Frame quietEnv; Interval; Frame quietEnv] initialWorld = Some initialWorld.
Proof.
  apply (paused_world_is_frozen [Frame quietEnv; Interval; Frame quietEnv]
           initialWorld); reflexivity.
Defined.

(** ** The kick button *)

(** X5: In every world of a run, the charge is building only while the kick
    button is held. *)
Theorem charging_needs_space (w : World) :
  reachable w -> isCharging w = true -> Keys.space (keys w) = true.
Proof.
  induction 1 as [| ev w w' _ IH _ Hs]; [discriminate |].
  destruct ev; cbn in Hs.
  - destruct (updateGame_cells env w w' Hs) as (-> & _ & _ & -> & _). exact IH.
  - injection Hs as <-. destruct k; cbn; try exact IH; try reflexivity.
  - injection Hs as <-. destruct k; cbn; try exact IH; try discriminate.
  - injection Hs as <-. exact IH.
  - injection Hs as <-. cbn. discriminate.
  - injection Hs as <-. unfold timerTick.
    destruct (negb (isPaused w)); [| exact IH].
    destruct (timeLeft w <=? 1)%Z; exact IH.
Qed.

Lemma charging_needs_space_witness :
  Keys.space (keys (handleKeyDown Space initialWorld)) = true.
Proof.
  apply (charging_needs_space (handleKeyDown Space initialWorld)).
  - apply (reachable_step (KeyDown Space) initialWorld); 
      [apply reachable_initial | exact I | reflexivity].
  - reflexivity.
Defined.

(** X6: A reset while the kick button is held leaves the button held and the
    charge off; the repeated key-down events of the held key then do not
    start a charge: the button has to be released and pressed again. *)
Theorem reset_while_space_held (w : World) :
  Keys.space (keys w) = true ->
  let w' := handleKeyDown Space (resetGame w) in
  Keys.space (keys w') = true /\ isCharging w' = false /\ kickPower w' = 0.
Proof.
  intros Hs w'.
  assert (Hk : keys (resetGame w) = keys w) by reflexivity.
  assert (Hc : isCharging (resetGame w) = false) by reflexivity.
  assert (Hp : kickPower (resetGame w) = 0) by reflexivity.
  subst w'. revert Hk Hc Hp. generalize (resetGame w) as v. intros v Hk Hc Hp.
  unfold handleKeyDown. rewrite Hk, Hs. cbn [negb].
  repeat split; assumption.
Qed.

Lemma reset_while_space_held_witness :
  isCharging (handleKeyDown Space (resetGame (handleKeyDown Space initialWorld)))
  = false.
Proof.
  apply (reset_while_space_held (handleKeyDown Space initialWorld)).
  reflexivity.
Defined.

(** ** The charge of the kick *)

Lemma updateGame_kickPower (env : Env) (w w' : World) :
  isPaused w = false -> updateGame env w = Some w' ->
  kickPower w' = kickPower (chargeKick (isCharging w) (kickPower w) w).
Proof.
  intros Hp H.
  destruct (updateGame_unfold env w w' H Hp) as (w1 & Hi & ->).
  destruct (integrate_frame _ _ Hi) as (_ & _ & _ & K1 & _).
  destruct (resolve_frame (kickPower w) w1) as (_ & _ & _ & _ & K2).
  destruct (lifecycle_frame env (length (powerUps w)) (resolve (kickPower w) w1))
    as (_ & _ & _ & _ & K3 & _).
  congruence.
Qed.

Lemma chargeKick_charging (w : World) :
  kickPower w <= MAX_KICK_POWER ->
  kickPower (chargeKick true (kickPower w) w)
  = Rmin (kickPower w + KICK_CHARGE_RATE) MAX_KICK_POWER.
Proof.
  intros Hk. unfold chargeKick, JS.gt, JS.lt. unfold_consts. cbn [andb negb].
  destruct (Rlt_dec (kickPower w) 20); [reflexivity |].
  unfold Rmin. destruct (Rle_dec _ _); lra.
Qed.

(** X7: While the kick button is held in a running match the charge grows by
    0.5 with every frame until it reaches 20, where it stays: after [n]
    frames it is [min (kickPower + 0.5 n, 20)], so a full charge takes 40
    frames. *)
Theorem kickPower_charges (envs : list Env) (w : World) :
  isPaused w = false -> isCharging w = true ->
  kickPower w <= MAX_KICK_POWER ->
  exists w',
    run (map Frame envs) w = Some w' /\
    kickPower w' =
      Rmin (kickPower w + KICK_CHARGE_RATE * INR (length envs)) MAX_KICK_POWER.
Proof.
  revert w. induction envs as [| env envs IH]; intros w Hp Hc Hk.
  - exists w. split; [reflexivity |]. cbn [length INR].
    unfold Rmin. destruct (Rle_dec _ _); lra.
  - destruct (updateGame_total env w) as (w1 & H1).
    destruct (updateGame_cells env w w1 H1) as (_ & _ & _ & C1 & P1).
    pose proof (updateGame_kickPower env w w1 Hp H1) as K1.
    rewrite Hc, chargeKick_charging in K1 by exact Hk.
    destruct (IH w1) as (w' & Hrun & K').
    + congruence.
    + congruence.
    + rewrite K1. apply Rmin_r.
    + exists w'. cbn [map run step]. rewrite H1. cbn [bind].
      split; [exact Hrun |]. rewrite K', K1.
      change (length (env :: envs)) with (S (length envs)). rewrite S_INR.
      pose proof (pos_INR (length envs)) as Hn.
      unfold_consts. unfold Rmin. repeat destruct (Rle_dec _ _); lra.
Qed.

Lemma kickPower_charges_witness :
  exists w',
    run (map Frame [quietEnv; quietEnv; quietEnv])
        (handleKeyDown Space (clickPause initialWorld)) = Some w' /\
    kickPower w' = 1.5.
Proof.
  destruct (kickPower_charges [quietEnv; quietEnv; quietEnv]
              (handleKeyDown Space (clickPause initialWorld)))
    as (w' & Hrun & K).
  - reflexivity.
  - reflexivity.
  - cbn. unfold MAX_KICK_POWER. lra.
  - exists w'. split; [exact Hrun |]. rewrite K. cbn. unfold_consts.
    unfold Rmin. destruct (Rle_dec _ _); lra.
Defined.

(** X8: The charge does not outlive the key: the first frame of a running
    match that finds the kick button released puts the charge back to 0. *)
Theorem kickPower_discharges (env : Env) (w : World) :
  isPaused w = false -> isCharging w = false -> 0 <= kickPower w ->
  exists w', updateGame env w = Some w' /\ kickPower w' = 0.
Proof.
  intros Hp Hc Hk. destruct (updateGame_total env w) as (w' & H).
  exists w'. split; [exact H |].
  rewrite (updateGame_kickPower env w w' Hp H), Hc.
  unfold chargeKick, JS.gt, JS.lt. cbn [andb negb].
  destruct (Rlt_dec 0 (kickPower w)); [reflexivity | lra].
Qed.

Lemma kickPower_discharges_witness :
  exists w',
    updateGame quietEnv (handleKeyUp Space (atTheBall 7)) = Some w' /\
    kickPower w' = 0.
Proof.
  apply (kickPower_discharges quietEnv (handleKeyUp Space (atTheBall 7))).
  - reflexivity.
  - reflexivity.
  - cbn. lra.
Defined.

(** ** The AI's kick *)

(** X9: Whatever the player did to the ball in a frame, a kick of any power
    or a dribble, an AI that overlaps the ball afterwards replaces the
    ball's velocity: the ball leaves at speed 12 along the line from the
    AI to the ball (to the right if the centres coincide), from where it
    is. *)
Theorem ai_kick_overrides (k : R) (w : World) :
  checkCollision (ai (playerBall k w)) (ball (playerBall k w)) = true ->
  let b := ball (playerBall k w) in
  let b' := ball (aiBall (playerBall k w)) in
  let dx := Ball.x b - GameObject.x (ai w) in
  let dy := Ball.y b - GameObject.y (ai w) in
  magnitude (Ball.vx b') (Ball.vy b') = 12 /\
  Ball.x b' = Ball.x b /\ Ball.y b' = Ball.y b /\
  (dx <> 0 \/ dy <> 0 ->
   Ball.vx b' = dx / sqrt (dx * dx + dy * dy) * 12 /\
   Ball.vy b' = dy / sqrt (dx * dx + dy * dy) * 12) /\
  (dx = 0 /\ dy = 0 -> Ball.vx b' = 12 /\ Ball.vy b' = 0).
Proof.
  intros Hc b b' dx dy.
  destruct (playerBall_frame k w) as (_ & _ & A & _).
  subst b' dx dy b. unfold aiBall. rewrite Hc.
  cbn [ball set_ball play Ball.vx Ball.vy Ball.x Ball.y Ball.set_vx Ball.set_vy].
  rewrite A.
  split; [apply magnitude_polar; lra |].
  split; [reflexivity |]. split; [reflexivity |]. split.
  - intros Hne. destruct (atan2_cos_sin _ _ Hne) as (-> & ->).
    split; reflexivity.
  - intros (-> & ->). rewrite atan2_0_0, cos_0, sin_0. split; lra.
Qed.

Lemma ai_kick_overrides_witness :
  magnitude (Ball.vx (ball (aiBall (playerBall 0 aiOnBall))))
            (Ball.vy (ball (aiBall (playerBall 0 aiOnBall)))) = 12.
Proof.
  apply (ai_kick_overrides 0 aiOnBall).
  assert (Hp : playerBall 0 aiOnBall = aiOnBall).
  { unfold playerBall. rewrite far_apart; [reflexivity |].
    right. cbn. unfold_consts. lra. }
  rewrite Hp. apply close_on_a_line.
  - cbn. unfold_consts. lra.
  - cbn. unfold_consts. unfold Rabs. destruct (Rcase_abs _); lra.
Defined.

(** ** The dribble *)

Lemma unit_vector (dx dy : R) :
  dx <> 0 \/ dy <> 0 ->
  let d := sqrt (dx * dx + dy * dy) in
  0 < d /\ dx = dx / d * d /\ dy = dy / d * d /\
  dx / d * (dx / d) + dy / d * (dy / d) = 1.
Proof.
  intros Hne d.
  assert (Hs : 0 < dx * dx + dy * dy) by (destruct Hne; nra).
  assert (Hd : 0 < d) by (apply sqrt_lt_R0; exact Hs).
  assert (Hdd : d * d = dx * dx + dy * dy) by (apply sqrt_sqrt; lra).
  split; [exact Hd |].
  split; [field; lra |]. split; [field; lra |].
  replace (dx / d * (dx / d) + dy / d * (dy / d))
    with ((dx * dx + dy * dy) / (d * d)) by (field; lra).
  rewrite Hdd. field. lra.
Qed.

(** X10: A dribble ends the overlap: the push along the line from the player
    to the ball (to the right if the centres coincide) leaves the ball at
    a distance of the two radii from the player, so that the two just
    touch; its velocity becomes the mean of its own and the player's. *)
Theorem dribble_separates (k : R) (w : World) :
  checkCollision (player w) (ball w) = true ->
  Keys.space (keys w) = false ->
  let p := player w in
  let b' := ball (playerBall k w) in
  sqrt ((Ball.x b' - GameObject.x p) * (Ball.x b' - GameObject.x p)
        + (Ball.y b' - GameObject.y p) * (Ball.y b' - GameObject.y p))
  = GameObject.radius p + Ball.radius b' /\
  Ball.vx b' = (Ball.vx (ball w) + GameObject.vx p) * 0.5 /\
  Ball.vy b' = (Ball.vy (ball w) + GameObject.vy p) * 0.5.
Proof.
  intros Hc Hs p b'. subst p b'.
  rewrite (playerBall_dribble k w Hc Hs).
  cbn [Ball.x Ball.y Ball.vx Ball.vy Ball.radius].
  unfold checkCollision in *. apply lt_true in Hc.
  cbn [Ball.x Ball.y Ball.radius].
  destruct (player w) as [px py pvx pvy pr ps pm pa pd pdir].
  destruct (ball w) as [bx bY bvx bvy br bs brot].
  cbn [GameObject.x GameObject.y GameObject.vx GameObject.vy GameObject.radius
       Ball.x Ball.y Ball.vx Ball.vy Ball.radius] in *.
  set (dx := bx - px) in *. set (dy := bY - py) in *.
  set (s := pr + br) in *.
  replace ((px - bx) * (px - bx) + (py - bY) * (py - bY))
    with (dx * dx + dy * dy) in Hc by (subst dx dy; ring).
  replace (dx ^ 2 + dy ^ 2) with (dx * dx + dy * dy) by ring.
  assert (Hbx : bx = px + dx) by (subst dx; ring).
  assert (HbY : bY = py + dy) by (subst dy; ring).
  clearbody dx dy s. subst bx bY.
  assert (Hs0 : 0 <= sqrt (dx * dx + dy * dy)) by apply sqrt_pos.
  set (a := JS.atan2 dy dx).
  set (d := sqrt (dx * dx + dy * dy)) in *.
  assert (Hdist :
    sqrt ((px + dx + cos a * (s - d) - px) * (px + dx + cos a * (s - d) - px)
          + (py + dy + sin a * (s - d) - py) * (py + dy + sin a * (s - d) - py))
    = s).
  { apply sqrt_lem_1;
      [apply Rplus_le_le_0_compat; apply Rle_0_sqr | lra |].
    destruct (Req_dec_T dx 0) as [Ex | Ex]; [destruct (Req_dec_T dy 0) as [Ey | Ey] |].
    - subst a d. subst dx dy. rewrite atan2_0_0, cos_0, sin_0.
      replace (0 * 0 + 0 * 0) with 0 by ring. rewrite sqrt_0. ring.
    - destruct (atan2_cos_sin dy dx) as (Hcos & Hsin); [right; exact Ey |].
      destruct (unit_vector dx dy) as (Hd & Hx & Hy & Hu); [right; exact Ey |].
      fold a in Hcos, Hsin. fold d in Hcos, Hsin, Hd, Hx, Hy, Hu.
      rewrite Hcos, Hsin.
      set (u := dx / d) in *. set (v := dy / d) in *.
      replace (px + dx + u * (s - d) - px) with (u * s) by lra.
      replace (py + dy + v * (s - d) - py) with (v * s) by lra.
      nra.
    - destruct (atan2_cos_sin dy dx) as (Hcos & Hsin); [left; exact Ex |].
      destruct (unit_vector dx dy) as (Hd & Hx & Hy & Hu); [left; exact Ex |].
      fold a in Hcos, Hsin. fold d in Hcos, Hsin, Hd, Hx, Hy, Hu.
      rewrite Hcos, Hsin.
      set (u := dx / d) in *. set (v := dy / d) in *.
      replace (px + dx + u * (s - d) - px) with (u * s) by lra.
      replace (py + dy + v * (s - d) - py) with (v * s) by lra.
      nra. }
  split; [exact Hdist |]. split; reflexivity.
Qed.

Lemma dribble_separates_witness :
  Ball.vx (ball (playerBall 0 ballSqueezed))
  = (Ball.vx (ball ballSqueezed) + GameObject.vx (player ballSqueezed)) * 0.5.
Proof.
  apply (dribble_separates 0 ballSqueezed).
  - apply close_on_a_line.
    + unfold ballSqueezed, standing. fields. lra.
    + unfold ballSqueezed, standing. fields. unfold_consts.
      unfold Rabs. destruct (Rcase_abs _); lra.
  - reflexivity.
Defined.

(** ** The type of a new power-up *)



(** ** The power-ups of a run *)

Lemma forEachPickUp_wellFormed (t : Z) (l : list PowerUp.t) (w : World) :
  (0 < t)%Z -> Forall wellFormed l ->
  Forall wellFormed (fst (forEachPickUp t l w)).
Proof.
  intros Ht. revert w. induction l as [| pu l IH]; intros w Hl.
  - constructor.
  - inversion Hl as [| ? ? Hpu Hrest]; subst.
    cbn [forEachPickUp].
    set (step1 := if PowerUp.active pu && _ then _ else _).
    assert (H1 : wellFormed (fst step1)).
    { subst step1. destruct (PowerUp.active pu && _); [| exact Hpu].
      destruct (JS.lt _ _); [| exact Hpu].
      destruct (applyPowerUp_spec t pu w) as (-> & _).
      destruct Hpu as (Ha & Hd & Hx & Hy & _).
      repeat split; try assumption; try apply Hx; try apply Hy.
      right. exists t. split; [reflexivity | exact Ht]. }
    destruct step1 as [pu1 w1]. cbn [fst] in H1.
    specialize (IH w1 Hrest).
    destruct (forEachPickUp t l w1) as [rest w2]. cbn [fst] in *.
    constructor; assumption.
Qed.

Lemma lifecycle_wellFormed (env : Env) (n : nat) (w : World) :
  validEnv env -> Forall wellFormed (powerUps w) ->
  Forall wellFormed (powerUps (lifecycle env n w)).
Proof.
  intros Henv Hl. unfold lifecycle.
  assert (H1 : Forall wellFormed (powerUps (pickUp (now env) w))).
  { rewrite pickUp_powerUps. apply forEachPickUp_wellFormed; [apply Henv | exact Hl]. }
  assert (H2 : Forall wellFormed
                 (powerUps (updatePowerUps (now env) (pickUp (now env) w)))).
  { destruct (updatePowerUps_spec (now env) (pickUp (now env) w)) as (-> & _).
    apply Forall_forall. intros pu Hin. apply filter_In in Hin.
    rewrite Forall_forall in H1. apply H1, Hin. }
  set (w2 := updatePowerUps (now env) (pickUp (now env) w)) in *.
  unfold spawnPowerUp.
  destruct (JS.lt _ _ && _); [| exact H2].
  cbn [powerUps setPowerUps]. apply Forall_app. split; [exact H2 |].
  constructor; [| constructor].
  destruct (spawned_shape env Henv) as (Hx & Hy & Ha & Hd & Hs).
  change (wellFormed (spawned env)).
  repeat split; try assumption; try apply Hx; try apply Hy.
  left. exact Hs.
Qed.

(** X12: Every power-up in the list of a run is active, lasts 5000 ms and lies
    inside the field, 20 away from each edge; its activation time, if it
    has one, is a positive clock reading, so the test [!startTime] of the
    code means exactly: not picked up yet. *)
Theorem powerUps_well_formed (w : World) :
  reachable w -> Forall wellFormed (powerUps w).
Proof.
  induction 1 as [| ev w w' _ IH Hv Hs]; [constructor |].
  destruct ev; cbn in Hs.
  - destruct (isPaused w) eqn:Hp.
    { unfold updateGame in Hs. rewrite Hp in Hs. injection Hs as <-. exact IH. }
    destruct (updateGame_unfold env w w' Hs Hp) as (w1 & Hm & ->).
    apply lifecycle_wellFormed; [exact Hv |].
    destruct (afterMotion_spec w w1 Hm) as (_ & _ & _ & _ & _ & U).
    destruct (resolve_frame (kickPower w) w1) as (_ & _ & _ & U2 & _).
    rewrite U2, U. exact IH.
  - injection Hs as <-. destruct k; cbn; try exact IH;
      destruct (Keys.space (keys w)); exact IH.
  - injection Hs as <-. destruct k; cbn; try exact IH;
      destruct (Keys.space (keys w)); exact IH.
  - injection Hs as <-. exact IH.
  - injection Hs as <-. constructor.
  - injection Hs as <-. unfold timerTick.
    destruct (negb (isPaused w)); [| exact IH].
    destruct (timeLeft w <=? 1)%Z; exact IH.
Qed.

Lemma powerUps_well_formed_witness :
  exists w',
    updateGame (spawnEnv 1000 0) (clickPause initialWorld) = Some w' /\
    Forall wellFormed (powerUps w').
Proof.
  destruct situation_unpaused as (Hr & _).
  destruct (reachable_frame (spawnEnv 1000 0) (clickPause initialWorld) Hr)
    as (w' & Hr' & H).
  - apply validEnv_spawnEnv; [reflexivity | lra].
  - exists w'. split; [exact H |]. apply (powerUps_well_formed w' Hr').
Defined.

(** ** Power-ups that are not picked up *)

Lemma not_expired_unstamped (t : Z) (pu : PowerUp.t) :
  JS.truthy (PowerUp.startTime pu) = false -> expired t pu = false.
Proof.
  unfold expired, JS.truthy. intros H.
  destruct (PowerUp.startTime pu) as [start |]; [| apply andb_false_r].
  apply negb_false_iff in H. rewrite H. cbn. apply andb_false_r.
Qed.

Lemma not_expired_just_stamped (t : Z) (pu : PowerUp.t) :
  (0 < PowerUp.duration pu)%Z ->
  expired t (PowerUp.set_startTime (Some t) pu) = false.
Proof.
  intros Hd. unfold expired.
  cbn [PowerUp.set_startTime PowerUp.active PowerUp.startTime PowerUp.duration].
  replace (t - t >=? PowerUp.duration pu)%Z with false
    by (symmetry; rewrite Z.geb_leb; apply Z.leb_gt; lia).
  rewrite andb_false_r. apply andb_false_r.
Qed.

Lemma forEachPickUp_In (t : Z) (l : list PowerUp.t) (w : World)
  (pu : PowerUp.t) :
  In pu l ->
  In pu (fst (forEachPickUp t l w)) \/
  In (PowerUp.set_startTime (Some t) pu) (fst (forEachPickUp t l w)).
Proof.
  revert w. induction l as [| pu0 l IH]; intros w Hin; [contradiction |].
  cbn [forEachPickUp].
  set (step1 := if PowerUp.active pu0 && _ then _ else _).
  assert (H1 : fst step1 = pu0 \/ fst step1 = PowerUp.set_startTime (Some t) pu0).
  { subst step1. destruct (PowerUp.active pu0 && _); [| now left].
    destruct (JS.lt _ _); [| now left].
    right. apply (applyPowerUp_spec t pu0 w). }
  destruct step1 as [pu1 w1]. cbn [fst] in H1.
  specialize (IH w1).
  destruct (forEachPickUp t l w1) as [rest w2]. cbn [fst] in *.
  destruct Hin as [-> | Hin].
  - destruct H1 as [-> | ->]; [left | right]; left; reflexivity.
  - destruct (IH Hin); [left | right]; right; assumption.
Qed.

(** X13: A power-up nobody picked up never times out: a frame of a running
    match keeps every power-up that has no activation time, as it is or
    stamped with the clock of this frame if the player reaches it; the
    5000 ms only start with the pick-up.  With the cap of two, two
    power-ups out of the player's way end all spawning until a reset. *)
Theorem unpicked_powerUp_stays (env : Env) (w w' : World) (pu : PowerUp.t) :
  isPaused w = false -> updateGame env w = Some w' ->
  In pu (powerUps w) ->
  JS.truthy (PowerUp.startTime pu) = false ->
  (0 < PowerUp.duration pu)%Z ->
  In pu (powerUps w') \/
  In (PowerUp.set_startTime (Some (now env)) pu) (powerUps w').
Proof.
  intros Hp H Hin Hs Hd.
  destruct (updateGame_unfold env w w' H Hp) as (w1 & Hm & ->).
  destruct (afterMotion_spec w w1 Hm) as (_ & _ & _ & _ & _ & U).
  destruct (resolve_frame (kickPower w) w1) as (_ & _ & _ & U2 & _).
  set (w3 := resolve (kickPower w) w1) in *.
  assert (Hin3 : In pu (powerUps w3)) by (rewrite U2, U; exact Hin).
  unfold lifecycle.
  set (w4 := pickUp (now env) w3).
  assert (H4 : In pu (powerUps w4) \/
               In (PowerUp.set_startTime (Some (now env)) pu) (powerUps w4)).
  { subst w4. rewrite pickUp_powerUps. apply forEachPickUp_In, Hin3. }
  set (w5 := updatePowerUps (now env) w4).
  assert (H5 : In pu (powerUps w5) \/
               In (PowerUp.set_startTime (Some (now env)) pu) (powerUps w5)).
  { subst w5. destruct (updatePowerUps_spec (now env) w4) as (-> & _).
    destruct H4 as [H4 | H4]; [left | right]; apply filter_In;
      (split; [exact H4 |]).
    - rewrite not_expired_unstamped by exact Hs. reflexivity.
    - rewrite not_expired_just_stamped by exact Hd. reflexivity. }
  unfold spawnPowerUp. destruct (JS.lt _ _ && _); [| exact H5].
  cbn [powerUps setPowerUps].
  destruct H5 as [H5 | H5]; [left | right]; apply in_or_app; left; exact H5.
Qed.

Lemma unpicked_powerUp_stays_witness :
  exists w',
    updateGame quietEnv
      (setPowerUps [PowerUp.mk 700 100 giant true POWER_UP_DURATION None]
                   ballDrivenLeft) = Some w' /\
    (In (PowerUp.mk 700 100 giant true POWER_UP_DURATION None) (powerUps w') \/
     In (PowerUp.set_startTime (Some (now quietEnv))
           (PowerUp.mk 700 100 giant true POWER_UP_DURATION None))
        (powerUps w')).
Proof.
  destruct (updateGame_total quietEnv
              (setPowerUps [PowerUp.mk 700 100 giant true POWER_UP_DURATION None]
                           ballDrivenLeft)) as (w' & H).
  exists w'. split; [exact H |].
  apply (unpicked_powerUp_stays quietEnv
           (setPowerUps [PowerUp.mk 700 100 giant true POWER_UP_DURATION None]
                        ballDrivenLeft) w').
  - reflexivity.
  - exact H.
  - left. reflexivity.
  - reflexivity.
  - reflexivity.
Defined.

(** ** The sticky power-up *)

Lemma forEachPickUp_sticky (t : Z) (l : list PowerUp.t) (w : World) :
  (forall pu, In pu l -> PowerUp.type pu = sticky) ->
  player (snd (forEachPickUp t l w)) = player w /\
  (forall pu, In pu (fst (forEachPickUp t l w)) -> PowerUp.type pu = sticky).
Proof.
  revert w. induction l as [| pu0 l IH]; intros w Hl.
  - split; [reflexivity | intros pu []].
  - cbn [forEachPickUp].
    assert (H0 : PowerUp.type pu0 = sticky) by (apply Hl; left; reflexivity).
    set (step1 := if PowerUp.active pu0 && _ then _ else _).
    assert (H1 : player (snd step1) = player w /\ PowerUp.type (fst step1) = sticky).
    { subst step1. destruct (PowerUp.active pu0 && _); [| split; [reflexivity | exact H0]].
      destruct (JS.lt _ _); [| split; [reflexivity | exact H0]].
      unfold applyPowerUp. rewrite H0. cbn. split; [reflexivity | exact H0]. }
    destruct step1 as [pu1 w1]. cbn [fst snd] in H1. destruct H1 as (P1 & T1).
    destruct (IH w1) as (P2 & T2); [intros pu Hin; apply Hl; right; exact Hin |].
    destruct (forEachPickUp t l w1) as [rest w2]. cbn [fst snd] in *.
    split; [congruence |].
    intros pu [<- | Hin]; [exact T1 | apply T2, Hin].
Qed.

Lemma filterPowerUps_sticky (t : Z) (l : list PowerUp.t) (p : GameObject.t) :
  (forall pu, In pu l -> PowerUp.type pu = sticky) ->
  snd (filterPowerUps t l p) = p.
Proof.
  revert p. induction l as [| pu0 l IH]; intros p Hl; [reflexivity |].
  cbn [filterPowerUps].
  assert (H0 : PowerUp.type pu0 = sticky) by (apply Hl; left; reflexivity).
  assert (H1 : snd (keepPowerUp t pu0 p) = p).
  { unfold keepPowerUp. rewrite H0.
    destruct (negb _ || negb _); [reflexivity |].
    destruct (PowerUp.startTime pu0); [| reflexivity].
    destruct (_ >=? _)%Z; reflexivity. }
  destruct (keepPowerUp t pu0 p) as [keep p1]. cbn [snd] in H1. subst p1.
  specialize (IH p). destruct (filterPowerUps t l p) as [rest p2].
  cbn [snd] in *. apply IH. intros pu Hin. apply Hl. right. exact Hin.
Qed.

(** X14: The sticky power-up does nothing: in a frame of a running match
    whose power-ups are all sticky, picked up or not, expiring or not,
    the player leaves the frame exactly as the motion phase left it; only
    the list, the activation times and the signal log record the
    pick-up. *)
Theorem sticky_has_no_effect (env : Env) (w w' : World) :
  isPaused w = false -> updateGame env w = Some w' ->
  (forall pu, In pu (powerUps w) -> PowerUp.type pu = sticky) ->
  exists w1, afterMotion w = Some w1 /\ player w' = player w1.
Proof.
  intros Hp H Hall.
  destruct (updateGame_unfold env w w' H Hp) as (w1 & Hm & ->).
  exists w1. split; [exact Hm |].
  destruct (afterMotion_spec w w1 Hm) as (_ & _ & _ & _ & _ & U).
  destruct (resolve_frame (kickPower w) w1) as (_ & P2 & _ & U2 & _).
  set (w3 := resolve (kickPower w) w1) in *.
  assert (Hall3 : forall pu, In pu (powerUps w3) -> PowerUp.type pu = sticky)
    by (rewrite U2, U; exact Hall).
  unfold lifecycle.
  destruct (spawnPowerUp_frame env (length (powerUps w))
              (updatePowerUps (now env) (pickUp (now env) w3))) as (_ & -> & _).
  destruct (forEachPickUp_sticky (now env) (powerUps w3) w3 Hall3) as (P4 & T4).
  unfold updatePowerUps, pickUp.
  destruct (forEachPickUp (now env) (powerUps w3) w3) as [l4 w4].
  cbn [fst snd] in P4, T4. cbn [player powerUps setPowerUps].
  pose proof (filterPowerUps_sticky (now env) l4 (player w4) T4) as F.
  destruct (filterPowerUps (now env) l4 (player w4)) as [kept p5].
  cbn [snd] in F. cbn [player setPowerUps set_player]. congruence.
Qed.

Lemma sticky_has_no_effect_witness :
  exists w' w1,
    updateGame (quietAt 9000)
      (setPowerUps [PowerUp.mk 200 300 sticky true POWER_UP_DURATION (Some 1000%Z);
                    PowerUp.mk 210 300 sticky true POWER_UP_DURATION None]
                   ballDrivenLeft) = Some w' /\
    afterMotion
      (setPowerUps [PowerUp.mk 200 300 sticky true POWER_UP_DURATION (Some 1000%Z);
                    PowerUp.mk 210 300 sticky true POWER_UP_DURATION None]
                   ballDrivenLeft) = Some w1 /\
    player w' = player w1.
Proof.
  destruct (updateGame_total (quietAt 9000)
      (setPowerUps [PowerUp.mk 200 300 sticky true POWER_UP_DURATION (Some 1000%Z);
                    PowerUp.mk 210 300 sticky true POWER_UP_DURATION None]
                   ballDrivenLeft)) as (w' & H).
  destruct (sticky_has_no_effect (quietAt 9000)
      (setPowerUps [PowerUp.mk 200 300 sticky true POWER_UP_DURATION (Some 1000%Z);
                    PowerUp.mk 210 300 sticky true POWER_UP_DURATION None]
                   ballDrivenLeft) w') as (w1 & Hm & P).
  - reflexivity.
  - exact H.
  - intros pu [<- | [<- | []]]; reflexivity.
  - exists w', w1. repeat split; assumption.
Defined.

(** ** The speed of the AI *)

Lemma steered_frame (a : GameObject.t) (b : Ball.t) :
  GameObject.speed (steered a b) = GameObject.speed a /\
  GameObject.maxSpeed (steered a b) = GameObject.maxSpeed a /\
  GameObject.acceleration (steered a b) = GameObject.acceleration a /\
  GameObject.deceleration (steered a b) = GameObject.deceleration a.
Proof. unfold steered. destruct (Rlt_dec 0 _); repeat split. Qed.

(** Steering blends the velocity of the AI towards a vector of length
    [speed]; with the acceleration 0.4 a velocity within [speed] stays
    within it. *)
Lemma steered_bound (a : GameObject.t) (b : Ball.t) :
  GameObject.speed a = AI_SPEED -> GameObject.acceleration a = 0.4 ->
  GameObject.vx a * GameObject.vx a + GameObject.vy a * GameObject.vy a
    <= AI_SPEED * AI_SPEED ->
  GameObject.vx (steered a b) * GameObject.vx (steered a b)
  + GameObject.vy (steered a b) * GameObject.vy (steered a b)
    <= AI_SPEED * AI_SPEED.
Proof.
  intros Hs Ha Hv. unfold steered.
  set (dx := Ball.x b - GameObject.x a). set (dy := Ball.y b - GameObject.y a).
  destruct (Rlt_dec 0 (sqrt (dx * dx + dy * dy))) as [Hd | Hd]; [| exact Hv].
  cbn [GameObject.vx GameObject.vy]. rewrite Hs, Ha. unfold AI_SPEED in *.
  assert (Hne : dx <> 0 \/ dy <> 0).
  { destruct (Req_dec_T dx 0) as [Ex | Ex]; [| now left].
    destruct (Req_dec_T dy 0) as [Ey | Ey]; [| now right].
    exfalso. rewrite Ex, Ey in Hd.
    replace (0 * 0 + 0 * 0) with 0 in Hd by ring. rewrite sqrt_0 in Hd. lra. }
  destruct (unit_vector dx dy Hne) as (_ & _ & _ & Hu).
  set (u := dx / sqrt (dx * dx + dy * dy)) in *.
  set (v := dy / sqrt (dx * dx + dy * dy)) in *.
  set (vx := GameObject.vx a) in *. set (vy := GameObject.vy a) in *.
  pose proof (Rle_0_sqr (vx - u * 4)) as Sx.
  pose proof (Rle_0_sqr (vy - v * 4)) as Sy. unfold Rsqr in Sx, Sy.
  nra.
Qed.

Lemma reachable_ai (w : World) :
  reachable w ->
  GameObject.speed (ai w) = AI_SPEED /\ GameObject.acceleration (ai w) = 0.4 /\
  GameObject.vx (ai w) * GameObject.vx (ai w)
  + GameObject.vy (ai w) * GameObject.vy (ai w) <= AI_SPEED * AI_SPEED.
Proof.
  induction 1 as [| ev w w' _ IH _ Hs].
  - cbn. unfold AI_SPEED. repeat split; lra.
  - destruct ev; cbn in Hs.
    + destruct (isPaused w) eqn:Hp.
      { unfold updateGame in Hs. rewrite Hp in Hs. injection Hs as <-. exact IH. }
      destruct (updateGame_unfold env w w' Hs Hp) as (w1 & Hm & ->).
      destruct (afterMotion_spec w w1 Hm) as (_ & A & _).
      destruct (resolve_frame (kickPower w) w1) as (_ & _ & A2 & _).
      destruct (lifecycle_frame env (length (powerUps w)) (resolve (kickPower w) w1))
        as (_ & -> & _).
      rewrite A2, A. destruct IH as (Is & Ia & Iv).
      destruct (steered_frame (ai w) (ball w)) as (Fs & _ & Fa & _).
      unfold advanced.
      cbn [GameObject.speed GameObject.acceleration GameObject.vx GameObject.vy].
      rewrite Fs, Fa. repeat split; try assumption.
      apply steered_bound; assumption.
    + injection Hs as <-. destruct k; cbn; try exact IH;
        destruct (Keys.space (keys w)); exact IH.
    + injection Hs as <-. destruct k; cbn; try exact IH;
        destruct (Keys.space (keys w)); exact IH.
    + injection Hs as <-. exact IH.
    + injection Hs as <-. destruct IH as (Is & Ia & Iv).
      cbn. unfold AI_SPEED in *. repeat split; try assumption. lra.
    + injection Hs as <-. unfold timerTick.
      destruct (negb (isPaused w)); [| exact IH].
      destruct (timeLeft w <=? 1)%Z; exact IH.
Qed.

(** X15: In every world of a run the AI moves no faster than [AI_SPEED]: its
    speed never exceeds 4 pixels per frame, wherever the ball is. *)
Theorem ai_speed_bounded (w : World) :
  reachable w ->
  magnitude (GameObject.vx (ai w)) (GameObject.vy (ai w)) <= AI_SPEED.
Proof.
  intros Hr. destruct (reachable_ai w Hr) as (_ & _ & Hv).
  apply magnitude_le; [unfold AI_SPEED; lra | exact Hv].
Qed.

Lemma ai_speed_bounded_witness :
  exists w',
    updateGame quietEnv (clickPause initialWorld) = Some w' /\
    magnitude (GameObject.vx (ai w')) (GameObject.vy (ai w')) <= AI_SPEED.
Proof.
  destruct situation_unpaused as (Hr & _).
  destruct (reachable_frame quietEnv (clickPause initialWorld) Hr)
    as (w' & Hr' & H).
  - unfold validEnv, quietEnv. cbn. repeat split; try lra; lia.
  - exists w'. split; [exact H |]. apply (ai_speed_bounded w' Hr').
Defined.

(** ** The ball and the goal lines *)

Lemma goalCheck_range (w : World) :
  0 <= Ball.x (ball (goalCheck w)) <= CANVAS_WIDTH.
Proof.
  unfold goalCheck, JS.gt, JS.lt, CANVAS_WIDTH.
  destruct (Rlt_dec (Ball.x (ball w)) 0); [cbn; lra |].
  destruct (Rlt_dec 800 (Ball.x (ball w))); [cbn; lra | lra].
Qed.

(** X16: Between two callbacks of a run the ball is never beyond a goal line:
    its x lies in [0, 800]; a frame that pushes it further ends with the
    ball back at the centre. *)
Theorem ball_between_goal_lines (w : World) :
  reachable w -> 0 <= Ball.x (ball w) <= CANVAS_WIDTH.
Proof.
  induction 1 as [| ev w w' _ IH _ Hs].
  - cbn. unfold CANVAS_WIDTH. lra.
  - destruct ev; cbn in Hs.
    + destruct (isPaused w) eqn:Hp.
      { unfold updateGame in Hs. rewrite Hp in Hs. injection Hs as <-. exact IH. }
      destruct (updateGame_unfold env w w' Hs Hp) as (w1 & Hm & ->).
      destruct (lifecycle_frame env (length (powerUps w)) (resolve (kickPower w) w1))
        as (_ & _ & -> & _).
      apply goalCheck_range.
    + injection Hs as <-. destruct k; cbn; try exact IH;
        destruct (Keys.space (keys w)); exact IH.
    + injection Hs as <-. destruct k; cbn; try exact IH;
        destruct (Keys.space (keys w)); exact IH.
    + injection Hs as <-. exact IH.
    + injection Hs as <-. cbn. unfold CANVAS_WIDTH. lra.
    + injection Hs as <-. unfold timerTick.
      destruct (negb (isPaused w)); [| exact IH].
      destruct (timeLeft w <=? 1)%Z; exact IH.
Qed.

Lemma ball_between_goal_lines_witness :
  exists w',
    updateGame quietEnv (clickPause initialWorld) = Some w' /\
    0 <= Ball.x (ball w') <= CANVAS_WIDTH.
Proof.
  destruct situation_unpaused as (Hr & _).
  destruct (reachable_frame quietEnv (clickPause initialWorld) Hr)
    as (w' & Hr' & H).
  - unfold validEnv, quietEnv. cbn. repeat split; try lra; lia.
  - exists w'. split; [exact H |]. apply (ball_between_goal_lines w' Hr').
Defined.

(** ** Goals and their signal *)

Lemma goalSounds_app (l l' : list Sound) :
  goalSounds (l ++ l') = (goalSounds l + goalSounds l')%nat.
Proof. unfold goalSounds. rewrite filter_app, length_app. reflexivity. Qed.

Lemma goalSounds_play (s : Sound) (w : World) :
  goalSounds (played (play s w))
  = (goalSounds (played w) + if isGoal s then 1 else 0)%nat.
Proof.
  cbn [played play]. rewrite goalSounds_app. unfold goalSounds at 2.
  cbn [filter]. destruct (isGoal s); reflexivity.
Qed.

Lemma integrate_goalSounds (w w1 : World) :
  integrate w = Some w1 -> goalSounds (played w1) = goalSounds (played w).
Proof.
  unfold integrate. rewrite movePlayer_spec. cbn [bind].
  rewrite steerAI_spec. cbn [bind]. intros [= <-].
  set (w2 := moveBall (moveAI _)).
  assert (H2 : played w2 = played w) by reflexivity.
  assert (H3 : goalSounds (played (bounceHorizontal w2)) = goalSounds (played w2)).
  { unfold bounceHorizontal. destruct (JS.lt _ _ || JS.gt _ _); [| reflexivity].
    rewrite goalSounds_play. cbn. apply Nat.add_0_r. }
  assert (H4 : goalSounds (played (bounceVertical (bounceHorizontal w2)))
               = goalSounds (played (bounceHorizontal w2))).
  { unfold bounceVertical. destruct (JS.lt _ _ || JS.gt _ _); [| reflexivity].
    rewrite goalSounds_play. cbn. apply Nat.add_0_r. }
  rewrite H4, H3, H2. reflexivity.
Qed.

Lemma contact_goalSounds (k : R) (w : World) :
  goalSounds (played (aiBall (playerBall k w))) = goalSounds (played w) /\
  score (aiBall (playerBall k w)) = score w.
Proof.
  assert (H1 : goalSounds (played (playerBall k w)) = goalSounds (played w) /\
               score (playerBall k w) = score w).
  { unfold playerBall. destruct (checkCollision _ _); [| split; reflexivity].
    destruct (Keys.space _); [| split; reflexivity].
    rewrite goalSounds_play. cbn. split; [apply Nat.add_0_r | reflexivity]. }
  destruct H1 as (G1 & S1). rewrite <- G1, <- S1.
  unfold aiBall. destruct (checkCollision _ _); [| split; reflexivity].
  rewrite goalSounds_play. cbn. split; [apply Nat.add_0_r | reflexivity].
Qed.

Lemma goalCheck_goalSounds (w : World) :
  exists n : nat,
    (n <= 1)%nat /\
    goalSounds (played (goalCheck w)) = (goalSounds (played w) + n)%nat /\
    (Score.player (score (goalCheck w)) + Score.ai (score (goalCheck w))
     = Score.player (score w) + Score.ai (score w) + Z.of_nat n)%Z.
Proof.
  unfold goalCheck. destruct (JS.lt _ 0).
  - exists 1%nat. split; [lia |]. cbn [played set_ball score].
    change (played (play goal ?v)) with (played v ++ [goal]).
    rewrite goalSounds_app. cbn. split; [reflexivity | lia].
  - destruct (JS.gt _ _).
    + exists 1%nat. split; [lia |]. cbn [played set_ball score].
      change (played (play goal ?v)) with (played v ++ [goal]).
      rewrite goalSounds_app. cbn. split; [reflexivity | lia].
    + exists 0%nat. split; [lia |]. split; [rewrite Nat.add_0_r; reflexivity | lia].
Qed.

Lemma forEachPickUp_goalSounds (t : Z) (l : list PowerUp.t) (w : World) :
  goalSounds (played (snd (forEachPickUp t l w))) = goalSounds (played w).
Proof.
  revert w. induction l as [| pu l IH]; intros w; [reflexivity |].
  cbn [forEachPickUp].
  set (step1 := if PowerUp.active pu && _ then _ else _).
  assert (H1 : goalSounds (played (snd step1)) = goalSounds (played w)).
  { subst step1. destruct (PowerUp.active pu && _); [| reflexivity].
    destruct (JS.lt _ _); [| reflexivity].
    unfold applyPowerUp. cbn [snd]. rewrite goalSounds_play. cbn.
    apply Nat.add_0_r. }
  destruct step1 as [pu1 w1]. cbn [snd] in H1. specialize (IH w1).
  destruct (forEachPickUp t l w1) as [rest w2]. cbn [snd] in *. congruence.
Qed.

Lemma lifecycle_goalSounds (env : Env) (n : nat) (w : World) :
  goalSounds (played (lifecycle env n w)) = goalSounds (played w).
Proof.
  unfold lifecycle.
  destruct (spawnPowerUp_frame env n (updatePowerUps (now env) (pickUp (now env) w)))
    as (_ & _ & _ & _ & _ & _ & ->).
  destruct (updatePowerUps_frame (now env) (pickUp (now env) w))
    as (_ & _ & _ & _ & _ & ->).
  unfold pickUp.
  pose proof (forEachPickUp_goalSounds (now env) (powerUps w) w) as F.
  destruct (forEachPickUp (now env) (powerUps w) w) as [l v]. exact F.
Qed.

(** X17: A frame counts at most one goal, and the goal signal sounds exactly
    as often as a goal is counted: the two counters together grow by [n]
    and [n] goal signals are added to the log, with [n] 0 or 1. *)
Theorem goal_counted_and_signalled (env : Env) (w : World) :
  exists w' (n : nat),
    updateGame env w = Some w' /\ (n <= 1)%nat /\
    goalSounds (played w') = (goalSounds (played w) + n)%nat /\
    (Score.player (score w') + Score.ai (score w')
     = Score.player (score w) + Score.ai (score w) + Z.of_nat n)%Z /\
    (Score.player (score w) <= Score.player (score w'))%Z /\
    (Score.ai (score w) <= Score.ai (score w'))%Z.
Proof.
  destruct (updateGame_total env w) as (w' & H).
  exists w'. destruct (updateGame_score env w w' H) as (Sp & Sa).
  destruct (isPaused w) eqn:Hp.
  { unfold updateGame in H. rewrite Hp in H. injection H as <-.
    exists 0%nat. split; [unfold updateGame; rewrite Hp; reflexivity |].
    repeat split; lia. }
  destruct (updateGame_unfold env w w' H Hp) as (w1 & Hi & Hw').
  destruct (chargeKick_frame (isCharging w) (kickPower w) w)
    as (_ & _ & _ & _ & S0 & _ & L0).
  pose proof (integrate_goalSounds _ _ Hi) as G1. rewrite L0 in G1.
  destruct (integrate_frame _ _ Hi) as (_ & S1 & _). rewrite S0 in S1.
  destruct (contact_goalSounds (kickPower w) w1) as (G2 & S2).
  destruct (goalCheck_goalSounds (aiBall (playerBall (kickPower w) w1)))
    as (n & Hn & G3 & S3).
  exists n. split; [exact H |]. split; [exact Hn |].
  rewrite Hw', lifecycle_goalSounds.
  destruct (lifecycle_frame env (length (powerUps w)) (resolve (kickPower w) w1))
    as (_ & _ & _ & S4 & _).
  rewrite Hw' in Sp, Sa. rewrite S4 in *. unfold resolve in *.
  rewrite G3, G2, G1. rewrite S2, S1 in S3.
  repeat split; try assumption.
Qed.

(** ** The velocity of the player over several frames *)

Lemma updateGame_velocity (env : Env) (w w' : World) :
  isPaused w = false -> updateGame env w = Some w' ->
  GameObject.vx (player w') = GameObject.vx (nextPlayer (keys w) (player w)) /\
  GameObject.vy (player w') = GameObject.vy (nextPlayer (keys w) (player w)).
Proof.
  intros Hp H.
  destruct (updateGame_unfold env w w' H Hp) as (w1 & Hm & ->).
  destruct (afterMotion_spec w w1 Hm) as (P & _).
  destruct (resolve_frame (kickPower w) w1) as (_ & P2 & _).
  destruct (lifecycle_frame env (length (powerUps w)) (resolve (kickPower w) w1))
    as (_ & _ & _ & _ & _ & (_ & _ & Vx & Vy & _)).
  rewrite Vx, Vy, P2, P. split; reflexivity.
Qed.





Lemma nextPlayer_walking (k : Keys.t) (p : GameObject.t) :
  GameObject.acceleration p = 0.5 ->
  Keys.shift k = false -> Keys.left k <> Keys.right k ->
  Keys.up k = Keys.down k ->
  GameObject.vx (nextPlayer k p)
  = GameObject.vx p
    + (target (Keys.left k) (Keys.right k) * GameObject.speed p
       - GameObject.vx p) * 0.5.
Proof.
  intros Ha Hs Hx Hy. unfold nextPlayer.
  cbn [GameObject.vx]. rewrite Ha, Hs, Hy.
  rewrite (Bool.eqb_reflx (Keys.down k)), andb_false_r.
  destruct (Keys.left k), (Keys.right k); try contradiction; reflexivity.
Qed.

Lemma player_walks_invariant (envs : list Env) (w : World) :
  invariant w -> isPaused w = false ->
  Keys.shift (keys w) = false ->
  Keys.left (keys w) <> Keys.right (keys w) ->
  Keys.up (keys w) = Keys.down (keys w) ->
  let g := target (Keys.left (keys w)) (Keys.right (keys w)) * BASE_PLAYER_SPEED in
  exists w',
    run (map Frame envs) w = Some w' /\
    GameObject.vx (player w')
    = g - (g - GameObject.vx (player w)) * 0.5 ^ length envs.
Proof.
  revert w. induction envs as [| env envs IH]; intros w Inv Hp Hs Hx Hy g.
  - exists w. split; [reflexivity |]. cbn [length pow]. lra.
  - destruct (updateGame_total env w) as (w1 & H1).
    destruct (updateGame_cells env w w1 H1) as (K1 & _ & _ & _ & P1).
    destruct (updateGame_velocity env w w1 Hp H1) as (Vx & _).
    pose proof Inv as (_ & _ & IA & _ & IS & _).
    rewrite (nextPlayer_walking (keys w) (player w) IA Hs Hx Hy), IS in Vx.
    destruct (IH w1) as (w' & Hrun & C).
    + apply (updateGame_invariant env w w1 Inv H1).
    + congruence.
    + congruence.
    + congruence.
    + congruence.
    + exists w'. cbn [map run step]. rewrite H1. cbn [bind].
      split; [exact Hrun |]. rewrite C, K1, Vx.
      subst g. unfold BASE_PLAYER_SPEED. cbn [length pow].
      generalize (0.5 ^ length envs)
                 (target (Keys.left (keys w)) (Keys.right (keys w)))
                 (GameObject.vx (player w)).
      intros P T v. nra.
Qed.

(** X19: Walking (one key of the horizontal axis held, no net input on the
    vertical axis, no sprint): each frame of a running match halves the
    gap between the horizontal velocity and the walking velocity of 5
    towards that side, so after [n] frames the velocity is
    [g - (g - vx) / 2^n] with [g] = 5 or -5: it approaches the walking
    speed from one side and never passes it. *)
Theorem player_walks (envs : list Env) (w : World) :
  reachable w -> isPaused w = false ->
  Keys.shift (keys w) = false ->
  Keys.left (keys w) <> Keys.right (keys w) ->
  Keys.up (keys w) = Keys.down (keys w) ->
  let g := target (Keys.left (keys w)) (Keys.right (keys w)) * BASE_PLAYER_SPEED in
  exists w',
    run (map Frame envs) w = Some w' /\
    GameObject.vx (player w')
    = g - (g - GameObject.vx (player w)) * 0.5 ^ length envs.
Proof.
  intros Hr. apply player_walks_invariant. apply reachable_invariant, Hr.
Qed.

Lemma player_walks_witness :
  exists w',
    run (map Frame [quietEnv; quietEnv])
        (handleKeyDown ArrowRight (clickPause initialWorld)) = Some w' /\
    GameObject.vx (player w') = 3.75.
Proof.
  destruct (player_walks [quietEnv; quietEnv]
              (handleKeyDown ArrowRight (clickPause initialWorld)))
    as (w' & Hrun & C).
  - apply (reachable_step (KeyDown ArrowRight) _ _
             (reachable_step ClickPause _ _ reachable_initial I eq_refl)
             I eq_refl).
  - reflexivity.
  - reflexivity.
  - cbn. discriminate.
  - reflexivity.
  - exists w'. split; [exact Hrun |]. rewrite C. cbn. unfold target.
    unfold_consts. lra.
Defined.

(** ** The frame does not look at the clock *)

Section Carried.

(** [s] writes cells that no step of a frame reads or writes. *)
Variable s : World -> World.
Hypothesis s_player : forall w, player (s w) = player w.
Hypothesis s_ai : forall w, ai (s w) = ai w.
Hypothesis s_ball : forall w, ball (s w) = ball w.
Hypothesis s_keys : forall w, keys (s w) = keys w.
Hypothesis s_score : forall w, score (s w) = score w.
Hypothesis s_powerUps : forall w, powerUps (s w) = powerUps w.
Hypothesis s_kickPower : forall w, kickPower (s w) = kickPower w.
Hypothesis s_isCharging : forall w, isCharging (s w) = isCharging w.
Hypothesis s_isPaused : forall w, isPaused (s w) = isPaused w.
Hypothesis s_set_player : forall p w, s (set_player p w) = set_player p (s w).
Hypothesis s_set_ai : forall a w, s (set_ai a w) = set_ai a (s w).
Hypothesis s_set_ball : forall b w, s (set_ball b w) = set_ball b (s w).
Hypothesis s_setScore : forall v w, s (setScore v w) = setScore v (s w).
Hypothesis s_setPowerUps : forall v w, s (setPowerUps v w) = setPowerUps v (s w).
Hypothesis s_setKickPower : forall v w, s (setKickPower v w) = setKickPower v (s w).
Hypothesis s_play : forall v w, s (play v w) = play v (s w).

Lemma chargeKick_carried (c : bool) (k : R) (w : World) :
  chargeKick c k (s w) = s (chargeKick c k w).
Proof.
  unfold chargeKick. rewrite s_kickPower.
  destruct (c && JS.lt k MAX_KICK_POWER); [symmetry; apply s_setKickPower |].
  destruct (negb c && JS.gt k 0); [symmetry; apply s_setKickPower | reflexivity].
Qed.

Lemma integrate_carried (w : World) :
  integrate (s w) = option_map s (integrate w).
Proof.
  unfold integrate. rewrite !movePlayer_spec. cbn [bind].
  rewrite !steerAI_spec. cbn [bind option_map]. f_equal.
  rewrite s_keys, s_player.
  set (p := nextPlayer (keys w) (player w)).
  assert (E1 : set_ai (steered (ai (set_player p (s w))) (ball (set_player p (s w))))
                 (set_player p (s w))
               = s (set_ai (steered (ai (set_player p w)) (ball (set_player p w)))
                      (set_player p w))).
  { rewrite <- s_set_player, s_ai, s_ball, <- s_set_ai. reflexivity. }
  rewrite E1. set (w2 := set_ai _ (set_player p w)).
  assert (E2 : moveAI (s w2) = s (moveAI w2)).
  { unfold moveAI. rewrite s_ai. symmetry. apply s_set_ai. }
  assert (E3 : moveBall (s (moveAI w2)) = s (moveBall (moveAI w2))).
  { unfold moveBall. rewrite s_ball. symmetry. apply s_set_ball. }
  rewrite E2, E3. set (w3 := moveBall (moveAI w2)).
  assert (E4 : bounceHorizontal (s w3) = s (bounceHorizontal w3)).
  { unfold bounceHorizontal. rewrite s_ball.
    destruct (JS.lt _ _ || JS.gt _ _); [| reflexivity].
    rewrite s_play, s_set_ball. reflexivity. }
  rewrite E4. set (w4 := bounceHorizontal w3).
  unfold bounceVertical. rewrite s_ball.
  destruct (JS.lt _ _ || JS.gt _ _); [| reflexivity].
  rewrite s_play, s_set_ball. reflexivity.
Qed.

Lemma playerBall_carried (k : R) (w : World) :
  playerBall k (s w) = s (playerBall k w).
Proof.
  unfold playerBall. rewrite s_player, s_ball, s_keys.
  destruct (checkCollision _ _); [| reflexivity].
  destruct (Keys.space _).
  - rewrite s_play, s_set_ball. reflexivity.
  - rewrite s_set_ball. reflexivity.
Qed.

Lemma aiBall_carried (w : World) : aiBall (s w) = s (aiBall w).
Proof.
  unfold aiBall. rewrite s_ai, s_ball.
  destruct (checkCollision _ _); [| reflexivity].
  rewrite s_play, s_set_ball. reflexivity.
Qed.

Lemma goalCheck_carried (w : World) : goalCheck (s w) = s (goalCheck w).
Proof.
  unfold goalCheck. rewrite s_ball, s_score.
  destruct (JS.lt _ 0).
  - rewrite s_set_ball, s_play, s_setScore. reflexivity.
  - destruct (JS.gt _ _); [| reflexivity].
    rewrite s_set_ball, s_play, s_setScore. reflexivity.
Qed.

Lemma forEachPickUp_carried (t : Z) (l : list PowerUp.t) (w : World) :
  forEachPickUp t l (s w)
  = (fst (forEachPickUp t l w), s (snd (forEachPickUp t l w))).
Proof.
  revert w. induction l as [| pu l IH]; intros w; [reflexivity |].
  cbn [forEachPickUp]. rewrite s_player.
  destruct (PowerUp.active pu && negb (JS.truthy (PowerUp.startTime pu))).
  - destruct (JS.lt _ _).
    + unfold applyPowerUp. rewrite s_player.
      rewrite <- s_set_player, <- s_play, IH.
      destruct (forEachPickUp t l _) as [rest w2]. reflexivity.
    + rewrite IH. destruct (forEachPickUp t l w) as [rest w2]. reflexivity.
  - rewrite IH. destruct (forEachPickUp t l w) as [rest w2]. reflexivity.
Qed.

Lemma lifecycle_carried (env : Env) (n : nat) (w : World) :
  lifecycle env n (s w) = s (lifecycle env n w).
Proof.
  unfold lifecycle.
  assert (E1 : pickUp (now env) (s w) = s (pickUp (now env) w)).
  { unfold pickUp. rewrite s_powerUps, forEachPickUp_carried.
    destruct (forEachPickUp (now env) (powerUps w) w) as [l v].
    cbn [fst snd]. symmetry. apply s_setPowerUps. }
  rewrite E1. set (w1 := pickUp (now env) w).
  assert (E2 : updatePowerUps (now env) (s w1) = s (updatePowerUps (now env) w1)).
  { unfold updatePowerUps. rewrite s_powerUps, s_player.
    destruct (filterPowerUps (now env) (powerUps w1) (player w1)) as [kept p].
    rewrite s_setPowerUps, s_set_player. reflexivity. }
  rewrite E2. set (w2 := updatePowerUps (now env) w1).
  unfold spawnPowerUp. rewrite s_powerUps.
  destruct (JS.lt _ _ && _); [| reflexivity].
  symmetry. apply s_setPowerUps.
Qed.

Lemma updateGame_carried (env : Env) (w : World) :
  updateGame env (s w) = option_map s (updateGame env w).
Proof.
  unfold updateGame. rewrite s_isPaused, s_kickPower, s_isCharging, s_powerUps.
  destruct (isPaused w); [reflexivity |].
  rewrite chargeKick_carried, integrate_carried.
  destruct (integrate (chargeKick (isCharging w) (kickPower w) w)) as [w1 |];
    [| reflexivity].
  cbn [option_map bind]. f_equal. unfold resolve.
  rewrite playerBall_carried, aiBall_carried, goalCheck_carried.
  apply lifecycle_carried.
Qed.

End Carried.

(** X20: A frame looks neither at the clock nor at the game-over flag: it
    computes the same world whatever [timeLeft] and [gameOver] are and
    hands both on as they were.  So the simulation of a frame after the
    end of the match is the one during the match: whenever a frame runs
    with the match over and not paused, bodies move, goals are counted
    and power-ups spawn as before. *)
Theorem frame_ignores_clock (env : Env) (over : bool) (t : Z) (w : World) :
  updateGame env (setGameOver over (setTimeLeft t w))
  = option_map (fun w' => setGameOver over (setTimeLeft t w'))
               (updateGame env w).
Proof.
  apply (updateGame_carried (fun v => setGameOver over (setTimeLeft t v)));
    intros; reflexivity.
Qed.

(** ** The clock of the score bar *)

Lemma clock_agrees_below_600 : forallb View.agree (seq 0 600) = true.
Proof. vm_compute. reflexivity. Qed.

(** X21: For every time below ten minutes, so for every time of a match, the
    score bar shows the clock as the minutes in one digit, a colon and
    the seconds in exactly two digits: [padStart] fills the seconds below
    ten with a zero, and the digits read back to [timeLeft]. *)
Theorem clock_shows_minutes_and_seconds (t : Z) :
  (0 <= t < 600)%Z -> View.clock t = View.minutesSeconds t.
Proof.
  intros Ht. pose proof clock_agrees_below_600 as H.
  rewrite forallb_forall in H.
  specialize (H (Z.to_nat t)).
  unfold View.agree in H. rewrite Z2Nat.id in H by lia.
  apply String.eqb_eq, H. apply in_seq. lia.
Qed.

Lemma clock_shows_minutes_and_seconds_witness :
  View.clock 61 = View.minutesSeconds 61.
Proof. apply (clock_shows_minutes_and_seconds 61). lia. Defined.
